(** * Word-search puzzle generator: a shallow embedding of [word_puzzle]

    The development follows the layering of the Python package:

    - [domain/value_objects.py]: [Position], [Direction], [Word],
      the [Directions] catalog;
    - [domain/entities.py]: [WordPlacement], [Puzzle];
    - [application/services.py]: [DirectionBalancer],
      [WordPlacementService], [PuzzleGenerationStrategy];
    - [application/use_cases.py]: [GeneratePuzzleUseCase] and
      [ValidateConfigUseCase], over the ports of
      [application/interfaces.py];
    - [infrastructure/validators.py], [infrastructure/repositories.py]:
      the validator and the repositories the application is wired with;
    - [presentation/html_presenter.py]: the exported puzzle data.

    Python integers are [Z]; Python [str] values are [string], one
    character per character of the text, which covers ASCII text (a grid
    cell is a [str]: [""] for an empty cell, a one-character string
    otherwise); Python lists are [list], indexed with stdpp's lookup and
    insert, with the [IndexError] of an out-of-range access written out.
    Mutation of the puzzle object and draws from the global [random]
    module are threaded through a state-and-exception monad. *)

From Stdlib Require Import ZArith List Ascii String Lia Permutation Bool.
From Stdlib Require Import SpecFloat.
From stdpp Require Import base tactics option list list_numbers strings gmap.

Open Scope string_scope.
Open Scope list_scope.
Open Scope Z_scope.

(* ================================================================== *)
(** * Exceptions *)

Inductive exn : Type := ValueError | IndexError.

Inductive Res (A : Type) : Type :=
| Ok (a : A)
| Raise (e : exn).
Arguments Ok {A} a.
Arguments Raise {A} e.

(* ================================================================== *)
(** * domain/value_objects.py *)

Record Position : Type := mkPosition { row : Z; col : Z }.

Record Direction : Type :=
  mkDirection { row_delta : Z; col_delta : Z; name : string }.

Inductive DirectionType : Type := HORIZONTAL | VERTICAL | DIAGONAL.

#[global] Instance Position_eq_dec : EqDecision Position.
Proof. solve_decision. Defined.

#[global] Instance Direction_eq_dec : EqDecision Direction.
Proof. solve_decision. Defined.

#[global] Instance DirectionType_eq_dec : EqDecision DirectionType.
Proof. solve_decision. Defined.

(** [str.isascii]: every character is below 128. *)
Fixpoint isascii (s : string) : bool :=
  match s with
  | EmptyString => true
  | String c r => (nat_of_ascii c <? 128)%nat && isascii r
  end.

(** [str.lower] and [str.upper], on ASCII text ([isascii]): they
    exchange a-z and A-Z and leave every other character alone.  On
    other text Python applies the Unicode case mapping, which is not
    modelled; what is stated of the case mapping of an arbitrary string
    is stated under [isascii]. *)
Definition lower_char (c : ascii) : ascii :=
  let n := nat_of_ascii c in
  if ((65 <=? n) && (n <=? 90))%nat then ascii_of_nat (n + 32) else c.

Definition upper_char (c : ascii) : ascii :=
  let n := nat_of_ascii c in
  if ((97 <=? n) && (n <=? 122))%nat then ascii_of_nat (n - 32) else c.

Fixpoint lower (s : string) : string :=
  match s with
  | EmptyString => EmptyString
  | String c r => String (lower_char c) (lower r)
  end.

Fixpoint upper (s : string) : string :=
  match s with
  | EmptyString => EmptyString
  | String c r => String (upper_char c) (upper r)
  end.

(** [needle in hay] on strings. *)
Fixpoint str_in (needle hay : string) : bool :=
  String.prefix needle hay
  || match hay with
     | EmptyString => false
     | String _ r => str_in needle r
     end.

Definition is_horizontal (d : Direction) : bool :=
  str_in "horizontal" (lower (name d)).

Definition is_vertical (d : Direction) : bool :=
  str_in "vertical" (lower (name d)).

Definition is_diagonal (d : Direction) : bool :=
  str_in "diagonal" (lower (name d)).

Record Word : Type := mkWord { value : string }.

#[global] Instance Word_eq_dec : EqDecision Word.
Proof. solve_decision. Defined.

(** [Word.__post_init__]: an empty value is rejected, any other is
    stored in upper case. *)
Definition Word_new (s : string) : Res Word :=
  match s with
  | EmptyString => Raise ValueError
  | _ => Ok (mkWord (upper s))
  end.

Definition Word_len (w : Word) : nat := String.length (value w).

(** [GridSize.__post_init__]. *)
Definition GridSize_new (v : Z) : Res Z :=
  if v <? 5 then Raise ValueError
  else if 30 <? v then Raise ValueError
  else Ok v.

Module Directions.
Definition HORIZONTAL_RIGHT := mkDirection 0 1 "horizontal_right".
Definition HORIZONTAL_LEFT := mkDirection 0 (-1) "horizontal_left".
Definition VERTICAL_DOWN := mkDirection 1 0 "vertical_down".
Definition VERTICAL_UP := mkDirection (-1) 0 "vertical_up".
Definition DIAGONAL_DOWN_RIGHT := mkDirection 1 1 "diagonal_down_right".
Definition DIAGONAL_DOWN_LEFT := mkDirection 1 (-1) "diagonal_down_left".
Definition DIAGONAL_UP_RIGHT := mkDirection (-1) 1 "diagonal_up_right".
Definition DIAGONAL_UP_LEFT := mkDirection (-1) (-1) "diagonal_up_left".

Definition all : list Direction :=
  [ HORIZONTAL_RIGHT; HORIZONTAL_LEFT;
    VERTICAL_DOWN; VERTICAL_UP;
    DIAGONAL_DOWN_RIGHT; DIAGONAL_DOWN_LEFT;
    DIAGONAL_UP_RIGHT; DIAGONAL_UP_LEFT ].

Definition horizontal : list Direction :=
  [ HORIZONTAL_RIGHT; HORIZONTAL_LEFT ].

Definition vertical : list Direction :=
  [ VERTICAL_DOWN; VERTICAL_UP ].

Definition diagonal : list Direction :=
  [ DIAGONAL_DOWN_RIGHT; DIAGONAL_DOWN_LEFT;
    DIAGONAL_UP_RIGHT; DIAGONAL_UP_LEFT ].

Definition by_type (t : DirectionType) : list Direction :=
  match t with
  | HORIZONTAL => horizontal
  | VERTICAL => vertical
  | DIAGONAL => diagonal
  end.
End Directions.

(* ================================================================== *)
(** * domain/entities.py *)

Record WordPlacement : Type := mkWordPlacement {
  word : Word;
  start_position : Position;
  direction : Direction;
  positions : list Position
}.

(** The cell reached after [i] steps from [start] along [d]. *)
Definition step_position (start : Position) (d : Direction) (i : Z) : Position :=
  mkPosition (row start + i * row_delta d) (col start + i * col_delta d).

(** [WordPlacement._calculate_positions]: one position per index of the
    word's value. *)
Definition _calculate_positions (w : Word) (start : Position) (d : Direction)
  : list Position :=
  (fun i : nat => step_position start d (Z.of_nat i)) <$> seq 0 (Word_len w).

(** The dataclass constructor followed by [__post_init__]: an empty
    [positions] argument (the default) is replaced by the computed
    path. *)
Definition WordPlacement_init (w : Word) (start : Position) (d : Direction)
    (ps : list Position) : WordPlacement :=
  mkWordPlacement w start d
    (match ps with
     | [] => _calculate_positions w start d
     | _ => ps
     end).

Definition WordPlacement_new (w : Word) (start : Position) (d : Direction)
  : WordPlacement :=
  WordPlacement_init w start d [].

(** [s[i]] for a Python [str] and a non-negative index: a one-character
    string, or [IndexError]. *)
Fixpoint str_index (s : string) (i : nat) : Res string :=
  match s, i with
  | EmptyString, _ => Raise IndexError
  | String c _, O => Ok (String c EmptyString)
  | String _ r, S i' => str_index r i'
  end.

Definition get_character_at (pl : WordPlacement) (index : nat) : Res string :=
  str_index (value (word pl)) index.

Record Puzzle : Type := mkPuzzle {
  grid_size : Z;
  words : list Word;
  placements : list WordPlacement;
  grid : list (list string)
}.

(** [[['' for _ in range(n)] for _ in range(n)]]. *)
Definition empty_grid (n : Z) : list (list string) :=
  replicate (Z.to_nat n) (replicate (Z.to_nat n) EmptyString).

(** [Puzzle(grid_size=.., words=..)]: the defaults are empty lists and
    [__post_init__] builds the empty grid. *)
Definition Puzzle_new (gs : Z) (ws : list Word) : Puzzle :=
  mkPuzzle gs ws [] (empty_grid gs).

Definition is_valid_position (p : Puzzle) (pos : Position) : bool :=
  (0 <=? row pos) && (row pos <? grid_size p)
  && (0 <=? col pos) && (col pos <? grid_size p).

(** [grid[r][c]] for non-negative indices, [None] standing for the
    [IndexError] of either subscript. *)
Definition grid_at (g : list (list string)) (pos : Position) : option string :=
  match g !! Z.to_nat (row pos) with
  | Some line => line !! Z.to_nat (col pos)
  | None => None
  end.

Definition get_cell (p : Puzzle) (pos : Position) : Res string :=
  if negb (is_valid_position p pos) then Raise ValueError
  else match grid_at (grid p) pos with
       | Some c => Ok c
       | None => Raise IndexError
       end.

Definition is_complete (p : Puzzle) : bool :=
  (length (words p) <=? length (placements p))%nat.

Definition reset (p : Puzzle) : Puzzle :=
  mkPuzzle (grid_size p) (words p) [] (empty_grid (grid_size p)).

(** [Puzzle.can_place_word]: the loop over [enumerate(word.value)],
    [i] being the index of the first remaining character. *)
Fixpoint can_place_loop (p : Puzzle) (start : Position) (d : Direction)
    (i : Z) (chars : string) : Res bool :=
  match chars with
  | EmptyString => Ok true
  | String c rest =>
      let position := step_position start d i in
      if negb (is_valid_position p position) then Ok false
      else match get_cell p position with
           | Raise e => Raise e
           | Ok existing_char =>
               if negb (bool_decide (existing_char = EmptyString))
                  && negb (bool_decide (existing_char = String c EmptyString))
               then Ok false
               else can_place_loop p start d (i + 1) rest
           end
  end.

Definition can_place_word (p : Puzzle) (w : Word) (start : Position)
    (d : Direction) : Res bool :=
  can_place_loop p start d 0 (value w).

(* ================================================================== *)
(** * The state-and-exception monad

    A computation over a mutable state [S] either returns a value or
    raises; in both cases the state reached so far is kept, as a Python
    exception leaves earlier mutations in place. *)

Definition M (S A : Type) : Type := S -> Res A * S.

Definition ret {S A} (a : A) : M S A := fun s => (Ok a, s).

Definition raise {S A} (e : exn) : M S A := fun s => (Raise e, s).

Definition bind {S A B} (m : M S A) (k : A -> M S B) : M S B :=
  fun s =>
    match m s with
    | (Ok a, s') => k a s'
    | (Raise e, s') => (Raise e, s')
    end.

Definition get_state {S} : M S S := fun s => (Ok s, s).

Definition modify {S} (f : S -> S) : M S unit := fun s => (Ok tt, f s).

Definition lift_res {S A} (r : Res A) : M S A := fun s => (r, s).

Notation "'let*' x ':=' m 'in' k" := (bind m (fun x => k))
  (at level 10, x pattern, m at level 100, k at level 200).

(** [for x in xs: body x]. *)
Fixpoint for_each {S A} (xs : list A) (body : A -> M S unit) : M S unit :=
  match xs with
  | [] => ret tt
  | x :: rest => let* _ := body x in for_each rest body
  end.

(* ------------------------------------------------------------------ *)
(** ** Mutating methods of [Puzzle] *)

Definition with_grid (p : Puzzle) (g : list (list string)) : Puzzle :=
  mkPuzzle (grid_size p) (words p) (placements p) g.

(** [Puzzle.set_cell]: the bounds check, then [grid[row][col] = character]
    with the [IndexError] of a grid smaller than [grid_size]. *)
Definition set_cell (pos : Position) (character : string) : M Puzzle unit :=
  fun p =>
    if negb (is_valid_position p pos) then (Raise ValueError, p)
    else match grid p !! Z.to_nat (row pos) with
         | None => (Raise IndexError, p)
         | Some line =>
             if bool_decide (Z.to_nat (col pos) < length line)%nat
             then (Ok tt,
                   with_grid p
                     (<[Z.to_nat (row pos) :=
                          <[Z.to_nat (col pos) := character]> line]> (grid p)))
             else (Raise IndexError, p)
         end.

(** [Puzzle.add_placement]: the loop over [enumerate(placement.positions)],
    then [placements.append]. *)
Fixpoint add_placement_loop (pl : WordPlacement) (i : nat)
    (ps : list Position) : M Puzzle unit :=
  match ps with
  | [] => ret tt
  | position :: rest =>
      let* character := lift_res (get_character_at pl i) in
      let* _ := set_cell position character in
      add_placement_loop pl (S i) rest
  end.

Definition append_placement (pl : WordPlacement) (p : Puzzle) : Puzzle :=
  mkPuzzle (grid_size p) (words p) (placements p ++ [pl]) (grid p).

Definition add_placement (pl : WordPlacement) : M Puzzle unit :=
  let* _ := add_placement_loop pl 0 (positions pl) in
  modify (append_placement pl).

(* ================================================================== *)
(** * The random source

    The module-level generator of [random] is a tape of draws:
    [randbelow n] consumes the next entry and reduces it modulo [n]; an
    exhausted tape keeps answering 0.  Every sequence of outcomes of the
    real generator is the behaviour of some tape. *)

Record World : Type := mkWorld { w_puzzle : Puzzle; w_rng : list nat }.

Definition lift_puzzle {A} (m : M Puzzle A) : M World A :=
  fun w =>
    match m (w_puzzle w) with
    | (r, p') => (r, mkWorld p' (w_rng w))
    end.

Definition get_puzzle : M World Puzzle := fun w => (Ok (w_puzzle w), w).

Definition randbelow (n : nat) : M World nat :=
  fun w =>
    match w_rng w with
    | [] => (Ok 0%nat, w)
    | x :: tape => (Ok (x mod n)%nat, mkWorld (w_puzzle w) tape)
    end.

(** [x[i], x[j] = x[j], x[i]] for indices in range. *)
Definition swap {A} (x : list A) (i j : nat) : list A :=
  match x !! i, x !! j with
  | Some a, Some b => <[j := a]> (<[i := b]> x)
  | _, _ => x
  end.

(** [random.shuffle]: for [i] from [len(x) - 1] down to 1, exchange
    [x[i]] with [x[randbelow(i + 1)]].  The list is changed in place;
    the value returned here is its content after the call. *)
Fixpoint shuffle_loop {A} (i : nat) (x : list A) : M World (list A) :=
  match i with
  | O => ret x
  | S i' =>
      let* j := randbelow (S i) in
      shuffle_loop i' (swap x i j)
  end.

Definition shuffle {A} (x : list A) : M World (list A) :=
  shuffle_loop (length x - 1) x.

Definition ascii_uppercase : string := "ABCDEFGHIJKLMNOPQRSTUVWXYZ".

(** [random.choice] on a string. *)
Definition choice (s : string) : M World string :=
  let* j := randbelow (String.length s) in
  lift_res (str_index s j).

(* ================================================================== *)
(** * application/services.py *)

(** ** DirectionBalancer *)

Record DirectionBalancer : Type := mkBalancer {
  total_words : Z;
  counts : DirectionType -> Z
}.

Definition DirectionBalancer_new (total : Z) : DirectionBalancer :=
  mkBalancer total (fun _ => 0).

Definition bump (c : DirectionType -> Z) (t : DirectionType)
  : DirectionType -> Z :=
  fun t' => if bool_decide (t' = t) then c t' + 1 else c t'.

Definition increment (b : DirectionBalancer) (d : Direction)
  : DirectionBalancer :=
  if is_horizontal d then mkBalancer (total_words b) (bump (counts b) HORIZONTAL)
  else if is_vertical d then mkBalancer (total_words b) (bump (counts b) VERTICAL)
  else mkBalancer (total_words b) (bump (counts b) DIAGONAL).

(** [enumerate]. *)
Definition enumerate {A} (l : list A) : list (nat * A) :=
  zip (seq 0 (length l)) l.

Definition get_priority_directions (b : DirectionBalancer) (word_index : Z)
  : list Direction :=
  let target_per_category := total_words b / 3 in
  let horizontal := Directions.horizontal in
  let vertical := Directions.vertical in
  let diagonal := Directions.diagonal in
  if counts b DIAGONAL <? target_per_category then
    diagonal ++ horizontal ++ vertical
  else if counts b HORIZONTAL <? target_per_category then
    horizontal ++ diagonal ++ vertical
  else if counts b VERTICAL <? target_per_category then
    vertical ++ diagonal ++ horizontal
  else
    let all_directions := [horizontal; vertical; diagonal] in
    let group_idx :=
      Z.to_nat (word_index mod Z.of_nat (length all_directions)) in
    let selected := nth group_idx all_directions [] in
    let others :=
      concat (snd <$> filter (fun ig => fst ig ≠ group_idx)
                             (enumerate all_directions)) in
    selected ++ others.

(** *** Binary64 arithmetic of the coverage test

    [total_words * min_percentage] converts the integer to a double and
    multiplies with rounding to nearest-even; [count >= product]
    compares an integer with a double by their exact values. *)

Definition prec : Z := 53.
Definition emax : Z := 1024.

(** [float(n)]: the nearest double, ties to even.  (Python raises
    [OverflowError] where this yields an infinity, for integers of more
    than a thousand bits; a list length is far below.) *)
Definition float_of_int (n : Z) : spec_float :=
  binary_normalize prec emax n 0 false.

(** The double nearest to 0.2: [0x1999999999999A * 2^-55]. *)
Definition float_0_2 : spec_float :=
  S754_finite false 7205759403792794 (-55).

Definition int_ge_float (d : Z) (f : spec_float) : bool :=
  match f with
  | S754_nan => false
  | S754_infinity s => s
  | S754_zero _ => 0 <=? d
  | S754_finite s m e =>
      let v := if s then Z.neg m else Z.pos m in
      if 0 <=? e then v * 2 ^ e <=? d else v <=? d * 2 ^ (- e)
  end.

Definition has_sufficient_diagonal_coverage (b : DirectionBalancer)
    (min_percentage : spec_float) : bool :=
  int_ge_float (counts b DIAGONAL)
    (SFmul prec emax (float_of_int (total_words b)) min_percentage).

(** ** WordPlacementService *)

Definition _get_all_positions (p : Puzzle) : list Position :=
  r ← seqZ 0 (grid_size p);
  c ← seqZ 0 (grid_size p);
  [mkPosition r c].

(** The inner loop of [try_place_word]: the first start position that
    admits the word is committed. *)
Fixpoint scan_positions (w : Word) (d : Direction) (ps : list Position)
  : M World bool :=
  match ps with
  | [] => ret false
  | position :: rest =>
      let* p := get_puzzle in
      let* ok := lift_res (can_place_word p w position d) in
      if ok then
        let placement := WordPlacement_new w position d in
        let* _ := lift_puzzle (add_placement placement) in
        ret true
      else scan_positions w d rest
  end.

(** The outer loop of [try_place_word], over the shuffled directions. *)
Fixpoint scan_directions (w : Word) (ds : list Direction) : M World bool :=
  match ds with
  | [] => ret false
  | d :: rest =>
      let* p := get_puzzle in
      let* ps := shuffle (_get_all_positions p) in
      let* placed := scan_positions w d ps in
      if placed then ret true else scan_directions w rest
  end.

(** [try_place_word]: besides the boolean, the content of the caller's
    [directions] list after the call, which [random.shuffle] permuted in
    place. *)
Definition try_place_word (w : Word) (directions : list Direction)
  : M World (bool * list Direction) :=
  let* directions' := shuffle directions in
  let* placed := scan_directions w directions' in
  ret (placed, directions').

Definition fill_cell (position : Position) : M World unit :=
  let* p := get_puzzle in
  let* c := lift_res (get_cell p position) in
  if bool_decide (c = EmptyString) then
    let* letter := choice ascii_uppercase in
    lift_puzzle (set_cell position letter)
  else ret tt.

Definition fill_empty_cells : M World unit :=
  let* p := get_puzzle in
  for_each (seqZ 0 (grid_size p)) (fun r =>
    for_each (seqZ 0 (grid_size p)) (fun c =>
      fill_cell (mkPosition r c))).

(** ** PuzzleGenerationStrategy *)

(** [sorted(ws, key=len, reverse=True)]: a stable sort, longest first. *)
Fixpoint insert_by_len (w : Word) (sorted : list Word) : list Word :=
  match sorted with
  | [] => [w]
  | x :: rest =>
      if (Word_len x <? Word_len w)%nat then w :: x :: rest
      else x :: insert_by_len w rest
  end.

Definition sorted_by_len_desc (ws : list Word) : list Word :=
  foldr (fun w acc => insert_by_len w acc) [] (reverse ws).

(** [l[-1]]. *)
Definition list_last {A} (l : list A) : Res A :=
  match last l with
  | Some a => Ok a
  | None => Raise IndexError
  end.

(** The loop of [_attempt_placement] from word index [i] on, then the
    coverage test with its default threshold. *)
Fixpoint attempt_loop (b : DirectionBalancer) (i : Z) (ws : list Word)
  : M World bool :=
  match ws with
  | [] => ret (has_sufficient_diagonal_coverage b float_0_2)
  | w :: rest =>
      let priority_directions := get_priority_directions b i in
      let* r := try_place_word w priority_directions in
      if fst r then
        let* p := get_puzzle in
        let* last_placement := lift_res (list_last (placements p)) in
        attempt_loop (increment b (direction last_placement)) (i + 1) rest
      else ret false
  end.

Definition _attempt_placement (ws : list Word) : M World bool :=
  attempt_loop (DirectionBalancer_new (Z.of_nat (length ws))) 0 ws.

(** One iteration of the loop of [generate] up to the test of its [if]:
    reset the puzzle, copy and shuffle the sorted words, try to place
    them all. *)
Definition attempt (sorted_words : list Word) : M World bool :=
  let* _ := lift_puzzle (modify reset) in
  let* words_to_place := shuffle sorted_words in
  _attempt_placement words_to_place.

(** [generate]: [n] iterations of the attempt loop remain. *)
Fixpoint generate_loop (n : nat) (sorted_words : list Word) : M World bool :=
  match n with
  | O => ret false
  | S n' =>
      let* ok := attempt sorted_words in
      if ok then
        let* _ := fill_empty_cells in
        ret true
      else generate_loop n' sorted_words
  end.

Definition generate (max_attempts : Z) : M World bool :=
  let* p := get_puzzle in
  let sorted_words := sorted_by_len_desc (words p) in
  generate_loop (Z.to_nat max_attempts) sorted_words.

(* ================================================================== *)
(** * application/use_cases.py *)

(** [self.generation_strategy.generate(puzzle)] on a puzzle object of its
    own: the boolean and the puzzle as the call leaves it. *)
Definition run_generate (max_attempts : Z) (puzzle : Puzzle)
  : M (list nat) (bool * Puzzle) :=
  fun tape =>
    match generate max_attempts (mkWorld puzzle tape) with
    | (Ok b, w) => (Ok (b, w_puzzle w), w_rng w)
    | (Raise e, w) => (Raise e, w_rng w)
    end.

(** The loop of [_generate_puzzles] with [n] iterations left;
    [strategy_max] is the [max_attempts] of the injected strategy.  The
    progress messages are not modelled. *)
Fixpoint _generate_puzzles_loop (strategy_max : Z) (gs : Z) (ws : list Word)
    (count : Z) (n : nat) (puzzles : list Puzzle)
  : M (list nat) (list Puzzle) :=
  match n with
  | O => ret puzzles
  | S n' =>
      if count <=? Z.of_nat (length puzzles) then ret puzzles
      else
        let puzzle := Puzzle_new gs ws in
        let* r := run_generate strategy_max puzzle in
        if fst r
        then _generate_puzzles_loop strategy_max gs ws count n'
               (puzzles ++ [snd r])
        else _generate_puzzles_loop strategy_max gs ws count n' puzzles
  end.

Definition _generate_puzzles (strategy_max : Z) (gs : Z) (ws : list Word)
    (count : Z) : M (list nat) (list Puzzle) :=
  let max_attempts := count * 10 in
  _generate_puzzles_loop strategy_max gs ws count (Z.to_nat max_attempts) [].

(* ================================================================== *)
(** * Specification predicates *)

(** The grid has the shape [__post_init__] and [reset] give it. *)
Definition grid_wf (p : Puzzle) : Prop :=
  length (grid p) = Z.to_nat (grid_size p)
  /\ Forall (fun line => length line = Z.to_nat (grid_size p)) (grid p).

(** The cell at [pos] accepts the character [c]: it is inside the grid
    and is empty or already holds [c]. *)
Definition cell_admits (p : Puzzle) (pos : Position) (c : ascii) : Prop :=
  is_valid_position p pos = true
  /\ exists cell, grid_at (grid p) pos = Some cell
                  /\ (cell = EmptyString \/ cell = String c EmptyString).

(** ** The priority ordering as §4.4 of the specification words it *)

Definition categories : list DirectionType := [HORIZONTAL; VERTICAL; DIAGONAL].

(** The ordered list of categories for counts [(h, v, d)] out of [total]
    and word index [word_index]. *)
Definition priority_spec (total h v d word_index : Z) : list DirectionType :=
  let target := total / 3 in
  if d <? target then [DIAGONAL; HORIZONTAL; VERTICAL]
  else if h <? target then [HORIZONTAL; DIAGONAL; VERTICAL]
  else if v <? target then [VERTICAL; DIAGONAL; HORIZONTAL]
  else
    let lead := nth (Z.to_nat (word_index mod 3)) categories HORIZONTAL in
    lead :: filter (fun t => t ≠ lead) categories.

(** Each category replaced by its concrete directions. *)
Definition expand_categories (ts : list DirectionType) : list Direction :=
  concat (Directions.by_type <$> ts).

(** The character that [add_placement] leaves at [q] when it walks the
    positions [ps] from word index [i] on: the last write wins. *)
Fixpoint last_write (s : string) (i : nat) (ps : list Position)
    (q : Position) : option ascii :=
  match ps with
  | [] => None
  | pos :: rest =>
      match last_write s (S i) rest q with
      | Some c => Some c
      | None => if bool_decide (pos = q) then String.get i s else None
      end
  end.

(** ** Placement invariants *)

(** A direction that moves: its path never visits a cell twice. *)
Definition dir_moves (d : Direction) : Prop :=
  row_delta d <> 0 \/ col_delta d <> 0.

(** One successful probe of [try_place_word]: [can_place_word] accepted
    [(pos, d)] on [p0] and [add_placement] then left [p']. *)
Definition committed (p0 : Puzzle) (w : Word) (pos : Position)
    (d : Direction) (p' : Puzzle) : Prop :=
  can_place_word p0 w pos d = Ok true
  /\ add_placement (WordPlacement_new w pos d) p0 = (Ok tt, p').

(** A recorded placement agrees with the grid: its positions are the
    computed path, its direction is one of the eight, and every cell of
    the path is inside the grid and holds the word's character. *)
Definition placement_ok (p : Puzzle) (pl : WordPlacement) : Prop :=
  positions pl
  = _calculate_positions (word pl) (start_position pl) (direction pl)
  /\ direction pl ∈ Directions.all
  /\ forall (i : nat) (c : ascii),
       String.get i (value (word pl)) = Some c ->
       is_valid_position p
         (step_position (start_position pl) (direction pl) (Z.of_nat i)) = true
       /\ grid_at (grid p)
            (step_position (start_position pl) (direction pl) (Z.of_nat i))
          = Some (String c EmptyString).

Definition puzzle_inv (p : Puzzle) : Prop :=
  grid_wf p /\ Forall (placement_ok p) (placements p).

(** ** Attempts *)

(** The balancer after the directions of [pls] have been counted, in
    order. *)
Definition tally (b : DirectionBalancer) (pls : list WordPlacement)
  : DirectionBalancer :=
  fold_left (fun b pl => increment b (direction pl)) pls b.

(** The world after [k] iterations of the loop of [generate] that did
    not return. *)
Fixpoint after_attempts (sorted_words : list Word) (k : nat) (w : World)
  : World :=
  match k with
  | O => w
  | S k' => after_attempts sorted_words k' (snd (attempt sorted_words w))
  end.

(** A single upper-case letter, as [random.choice(string.ascii_uppercase)]
    returns. *)
Definition uppercase_letter (s : string) : Prop :=
  exists c : ascii,
    s = String c EmptyString /\ (65 <= nat_of_ascii c <= 90)%nat.

(** [p'] is [p] with some of its empty cells filled by letters: nothing
    else differs. *)
Definition filled_from (p p' : Puzzle) : Prop :=
  grid_size p' = grid_size p /\ words p' = words p
  /\ placements p' = placements p
  /\ forall q cell,
       is_valid_position p q = true -> grid_at (grid p) q = Some cell ->
       if bool_decide (cell = EmptyString)
       then grid_at (grid p') q = Some EmptyString
            \/ exists letter, uppercase_letter letter
                              /\ grid_at (grid p') q = Some letter
       else grid_at (grid p') q = Some cell.

(** The cell at [q] is inside the grid and holds a character. *)
Definition cell_filled (p : Puzzle) (q : Position) : Prop :=
  is_valid_position p q = true
  /\ exists cell, grid_at (grid p) q = Some cell /\ cell <> EmptyString.

(** [PuzzleGenerationStrategy.__init__]: the default [max_attempts]. *)
Definition default_max_attempts : Z := 1000.

(** No cell of the grid is the empty sentinel. *)
Definition no_sentinel (p : Puzzle) : Prop :=
  Forall (Forall (fun cell => cell <> EmptyString)) (grid p).

(** ** The coverage test *)

(** [ceil(0.2 * n)] for an integer [n]. *)
Definition ceil_fifth (n : Z) : Z := (n + 4) / 5.

(** The number of placements whose direction is diagonal. *)
Definition count_diagonal (pls : list WordPlacement) : nat :=
  length (List.filter (fun pl => is_diagonal (direction pl)) pls).

(** For [n] words the double [n * 0.2] separates the counts below
    [ceil(0.2 * n)] from the others. *)
Definition gate_ok (n : Z) : bool :=
  let product := SFmul prec emax (float_of_int n) float_0_2 in
  int_ge_float (ceil_fifth n) product
  && negb (int_ge_float (ceil_fifth n - 1) product).

(** The word counts covered: an integer below [2^53] converts to a
    double exactly. *)
Definition max_word_count : Z := 2 ^ 53 - 1.

(** The record reached after shifting [m0] right by [j] bits: the
    quotient, the bit shifted out last and whether a one was shifted out
    before it. *)
Definition shr_inv (m0 j : Z) (x : shr_record) : Prop :=
  0 <= shr_m x
  /\ exists t, 0 <= t < 2 ^ j
       /\ 2 * m0 = shr_m x * 2 ^ (j + 1) + (if shr_r x then 2 ^ j else 0) + t
       /\ (shr_s x = true <-> t <> 0).

(** ** The orchestrator *)

(** The first [k] calls of the generator, each on a fresh puzzle and on
    the tape the previous call left: the accepted puzzles, in order, and
    the tape after the last call. *)
Fixpoint first_calls (strategy_max gs : Z) (ws : list Word) (k : nat)
    (tape : list nat) : list Puzzle * list nat :=
  match k with
  | O => ([], tape)
  | S k' =>
      match run_generate strategy_max (Puzzle_new gs ws) tape with
      | (Ok (true, p), tape') =>
          let (ps, t) := first_calls strategy_max gs ws k' tape' in
          (p :: ps, t)
      | (_, tape') => first_calls strategy_max gs ws k' tape'
      end
  end.

(** ** Sample inputs *)

Definition CAT : Word := mkWord "CAT".
Definition DOG : Word := mkWord "DOG".
Definition SUN : Word := mkWord "SUN".

(** An empty 5x5 puzzle for three words, and a tape on which the first
    attempt of [generate] is accepted. *)
Definition sample_puzzle : Puzzle := Puzzle_new 5 [CAT; DOG; SUN].
Definition sample_world : World := mkWorld sample_puzzle [0; 0; 4]%nat.

(** The same request with a repeated word. *)
Definition repeated_world : World :=
  mkWorld (Puzzle_new 5 [CAT; CAT]) [0; 1]%nat.

(** A tape on which the shuffle of the eight directions puts
    [HORIZONTAL_RIGHT] first. *)
Definition horizontal_first_world : World :=
  mkWorld sample_puzzle [0; 0; 0; 0; 1; 1; 1]%nat.

(** The same for a whole run of [generate]: the first two draws leave
    the three words in their order. *)
Definition horizontal_first_run : World :=
  mkWorld sample_puzzle [2; 1; 0; 0; 0; 0; 1; 1; 1]%nat.

(* ================================================================== *)
(** * application/interfaces.py

    The ports of the application layer.  A call of a collaborator is
    modelled by how it ends: it returns a value, it raises an exception
    of class [Exception] (which [except Exception] catches), or it
    raises one outside that class, as [sys.exit] does with [SystemExit]
    (which [except Exception] lets through).  What a collaborator
    prints is not part of the model. *)

(** An [Exception]: one of those the modelled code raises itself, or
    any other, known by its text. *)
Inductive Exception : Type :=
| Builtin (e : exn)
| OtherException (text : string).

(** A [BaseException] that is not an [Exception]. *)
Inductive BaseException : Type :=
| SystemExit (code : Z)
| OtherBaseException (text : string).

Inductive Outcome (A : Type) : Type :=
| Returns (a : A)
| Raises (e : Exception)
| Escapes (b : BaseException).
Arguments Returns {A} a.
Arguments Raises {A} e.
Arguments Escapes {A} b.

(** The outcome of modelled code, which returns or raises [ValueError]
    or [IndexError]. *)
Definition of_res {A} (r : Res A) : Outcome A :=
  match r with
  | Ok a => Returns a
  | Raise e => Raises (Builtin e)
  end.

(** The [metadata] dictionary handed to the presenter, with its two
    keys. *)
Record Metadata : Type :=
  mkMetadata { md_title : string; md_output_file : string }.

Class IPuzzleRepository (Content : Type) : Type := {
  save : Content -> string -> Outcome unit
}.

Class IWordRepository : Type := {
  get_default_words : Outcome (list Word);
  load_from_file : string -> Outcome (list Word)
}.

Class IPuzzlePresenter (Content : Type) : Type := {
  present : list Puzzle -> Metadata -> Outcome Content
}.

(** The validator the application is wired with returns or raises
    [ValueError]; the port is modelled with these outcomes. *)
Class IConfigValidator : Type := {
  validate_grid_size : Z -> Res unit;
  validate_words : list Word -> Z -> Res unit
}.

(** [[f(x) for x in xs]] where [f] may raise: the first exception ends
    the comprehension. *)
Fixpoint map_res {A B} (f : A -> Res B) (xs : list A) : Res (list B) :=
  match xs with
  | [] => Ok []
  | x :: rest =>
      match f x with
      | Raise e => Raise e
      | Ok y =>
          match map_res f rest with
          | Raise e => Raise e
          | Ok ys => Ok (y :: ys)
          end
      end
  end.

(* ================================================================== *)
(** * infrastructure/validators.py *)

(** [max(iterable)]: [ValueError] on an empty iterable. *)
Definition py_max (xs : list nat) : Res nat :=
  match xs with
  | [] => Raise ValueError
  | x :: rest => Ok (foldl Nat.max x rest)
  end.

Module PuzzleConfigValidator.

Definition MIN_GRID_SIZE : Z := 5.
Definition MAX_GRID_SIZE : Z := 30.

Definition validate_grid_size (size : Z) : Res unit :=
  if size <? MIN_GRID_SIZE then Raise ValueError
  else if MAX_GRID_SIZE <? size then Raise ValueError
  else Ok tt.

Definition validate_words (ws : list Word) (grid_size : Z) : Res unit :=
  if (length ws =? 0)%nat then Raise ValueError
  else
    match py_max (Word_len <$> ws) with
    | Raise e => Raise e
    | Ok max_word_length =>
        if grid_size <? Z.of_nat max_word_length then Raise ValueError
        else Ok tt
    end.

#[export] Instance validator : IConfigValidator :=
  Build_IConfigValidator validate_grid_size validate_words.

End PuzzleConfigValidator.

(* ================================================================== *)
(** * infrastructure/repositories.py *)

Module FileWordRepository.

Definition DEFAULT_WORDS : list string :=
  ["addobbo"; "angelo"; "giuseppe"; "cometa"; "stella"; "maria";
   "magi"; "betlemme"; "bue"; "natale"; "asinello"; "stalla"].

Definition get_default_words : Res (list Word) :=
  map_res Word_new DEFAULT_WORDS.

Section files.
(** The files as [load_from_file] reads them: for a path, the list
    [word_strings] of its stripped non-blank lines, or [None] when
    opening or reading the file raises. *)
Variable read_word_strings : string -> option (list string).

(** Both [except] clauses end in [sys.exit(1)]: the call returns the
    words or leaves with [SystemExit], and never raises an
    [Exception]. *)
Definition load_from_file (filepath : string) : Outcome (list Word) :=
  match read_word_strings filepath with
  | None => Escapes (SystemExit 1)
  | Some word_strings =>
      match map_res Word_new word_strings with
      | Ok ws => Returns ws
      | Raise _ => Escapes (SystemExit 1)
      end
  end.

Definition repository : IWordRepository :=
  Build_IWordRepository (of_res get_default_words) load_from_file.

End files.
End FileWordRepository.

Module HTMLFileRepository.
Section files.
(** Whether writing a content to a file name goes through; [false]
    when opening or writing raises. *)
Variable write_file : string -> string -> bool.

Definition save (content : string) (filename : string) : Outcome unit :=
  if write_file filename content then Returns tt
  else Escapes (SystemExit 1).

Definition repository : IPuzzleRepository string :=
  Build_IPuzzleRepository string save.

End files.
End HTMLFileRepository.

(* ================================================================== *)
(** * application/use_cases.py: the use cases *)

Record GeneratePuzzleRequest : Type := mkGeneratePuzzleRequest {
  req_grid_size : Z;
  req_words : option (list string);
  req_word_file : option string;
  puzzle_count : Z;
  output_file : string;
  title : string
}.

(** The [message] of a response: [Successfully generated n puzzles] or
    [Failed to generate puzzles: e]. *)
Inductive Message : Type :=
| Successfully_generated (n : nat)
| Failed_to_generate (e : Exception).

Record GeneratePuzzleResponse : Type := mkGeneratePuzzleResponse {
  success : bool;
  resp_puzzles : list Puzzle;
  message : Message;
  puzzles_generated : nat
}.

Module GeneratePuzzleUseCase.
Section use_case.
Context {Content : Type}.
Context {word_repository : IWordRepository}.
Context {puzzle_repository : IPuzzleRepository Content}.
Context {presenter : IPuzzlePresenter Content}.
Context {validator : IConfigValidator}.
(** [self.generation_strategy.max_attempts]. *)
Variable strategy_max : Z.

(** [if request.word_file: .. elif request.words: .. else: ..]: [None],
    the empty string and the empty list are false. *)
Definition _load_words (request : GeneratePuzzleRequest)
  : Outcome (list Word) :=
  match req_word_file request with
  | Some (String c f) => load_from_file (String c f)
  | _ =>
      match req_words request with
      | Some (w :: ws) => of_res (map_res Word_new (w :: ws))
      | _ => get_default_words
      end
  end.

Definition _validate_configuration (grid_size : Z) (ws : list Word)
  : Res unit :=
  match validate_grid_size grid_size with
  | Raise e => Raise e
  | Ok _ => validate_words ws grid_size
  end.

Definition _save_puzzles (puzzles : list Puzzle)
    (request : GeneratePuzzleRequest) : Outcome unit :=
  let metadata := mkMetadata (title request) (output_file request) in
  match present puzzles metadata with
  | Raises e => Raises e
  | Escapes b => Escapes b
  | Returns presented_data =>
      match puzzles with
      | [] => Returns tt
      | _ :: _ => save presented_data (output_file request)
      end
  end.

(** The body of the [try] block, with the random source threaded
    through the generation step. *)
Definition execute_try (request : GeneratePuzzleRequest)
    (tape : list nat) : Outcome (list Puzzle) * list nat :=
  match _load_words request with
  | Raises e => (Raises e, tape)
  | Escapes b => (Escapes b, tape)
  | Returns ws =>
      match _validate_configuration (req_grid_size request) ws with
      | Raise e => (Raises (Builtin e), tape)
      | Ok _ =>
          match _generate_puzzles strategy_max (req_grid_size request) ws
                  (puzzle_count request) tape with
          | (Raise e, tape') => (Raises (Builtin e), tape')
          | (Ok puzzles, tape') =>
              match _save_puzzles puzzles request with
              | Raises e => (Raises e, tape')
              | Escapes b => (Escapes b, tape')
              | Returns _ => (Returns puzzles, tape')
              end
          end
      end
  end.

(** [execute]: an [Exception] of the body becomes a failure response;
    any other exception leaves the call, and no response is returned.
    The second component is the random source after the call. *)
Definition execute (request : GeneratePuzzleRequest) (tape : list nat)
  : Outcome GeneratePuzzleResponse * list nat :=
  match execute_try request tape with
  | (Returns puzzles, tape') =>
      (Returns (mkGeneratePuzzleResponse true puzzles
                  (Successfully_generated (length puzzles))
                  (length puzzles)), tape')
  | (Raises e, tape') =>
      (Returns (mkGeneratePuzzleResponse false []
                  (Failed_to_generate e) 0), tape')
  | (Escapes b, tape') => (Escapes b, tape')
  end.

End use_case.
End GeneratePuzzleUseCase.

Record ValidateConfigRequest : Type := mkValidateConfigRequest {
  vreq_grid_size : Z;
  vreq_words : list string
}.

(** [errors] holds, for each failed check, the exception whose text the
    code appends. *)
Record ValidateConfigResponse : Type := mkValidateConfigResponse {
  valid : bool;
  errors : list exn
}.

Module ValidateConfigUseCase.
Section use_case.
Context {validator : IConfigValidator}.

Definition execute (request : ValidateConfigRequest)
  : ValidateConfigResponse :=
  let errors0 : list exn := [] in
  let errors1 :=
    match validate_grid_size (vreq_grid_size request) with
    | Raise e => errors0 ++ [e]
    | Ok _ => errors0
    end in
  let errors2 :=
    match map_res Word_new (vreq_words request) with
    | Raise e => errors1 ++ [e]
    | Ok ws =>
        match validate_words ws (vreq_grid_size request) with
        | Raise e => errors1 ++ [e]
        | Ok _ => errors1
        end
    end in
  mkValidateConfigResponse (length errors2 =? 0)%nat errors2.

End use_case.
End ValidateConfigUseCase.

(* ================================================================== *)
(** * presentation/html_presenter.py: the exported puzzle data *)

(** One entry of [puzzles_data]: the grid, and the dictionary from a
    word's text to the [[row, col]] pairs of its path. *)
Record PuzzleData : Type := mkPuzzleData {
  pd_grid : list (list string);
  pd_words : gmap string (list (list Z))
}.

(** The inner loop of [_convert_puzzles_to_data]:
    [word_data[str(placement.word)] = positions]. *)
Definition word_data_of (pls : list WordPlacement)
  : gmap string (list (list Z)) :=
  foldl (fun word_data placement =>
           let positions :=
             (fun pos => [row pos; col pos]) <$> positions placement in
           <[value (word placement) := positions]> word_data)
        ∅ pls.

Definition _convert_puzzles_to_data (puzzles : list Puzzle)
  : list PuzzleData :=
  (fun puzzle => mkPuzzleData (grid puzzle) (word_data_of (placements puzzle)))
    <$> puzzles.

(* ================================================================== *)
(** * Further specification predicates and sample inputs *)

(** The properties of a puzzle that [generate] reported as complete. *)
Definition accepted_puzzle (gs : Z) (ws : list Word) (p : Puzzle) : Prop :=
  grid_size p = gs /\ words p = ws
  /\ puzzle_inv p /\ no_sentinel p
  /\ word <$> placements p ≡ₚ ws
  /\ is_complete p = true.


(** The [[row, col]] pairs exported for a placement. *)
Definition path_of (pl : WordPlacement) : list (list Z) :=
  (fun pos => [row pos; col pos]) <$> positions pl.


(** Every letter in the grid lies on the path of a recorded placement. *)
Definition letters_covered (p : Puzzle) : Prop :=
  forall q cell,
    is_valid_position p q = true -> grid_at (grid p) q = Some cell ->
    cell <> EmptyString ->
    exists pl, pl ∈ placements p /\ q ∈ positions pl.

(** The words a request lists are ASCII text. *)
Definition ascii_request (request : GeneratePuzzleRequest) : Prop :=
  match req_words request with
  | Some strs => Forall (fun s => isascii s = true) strs
  | None => True
  end.

(** Collaborators for the examples: the file repository with no
    readable word file, a presenter that exports the puzzle data and
    refuses an empty list as [HTMLPuzzlePresenter.present] does, and a
    repository whose [save] succeeds. *)
Definition sample_word_repository : IWordRepository :=
  FileWordRepository.repository (fun _ => None).

Definition sample_presenter : IPuzzlePresenter (list PuzzleData) :=
  Build_IPuzzlePresenter _
    (fun puzzles _ =>
       match puzzles with
       | [] => Raises (Builtin ValueError)
       | _ :: _ => Returns (_convert_puzzles_to_data puzzles)
       end).

Definition sample_puzzle_repository : IPuzzleRepository (list PuzzleData) :=
  Build_IPuzzleRepository _ (fun _ _ => Returns tt).

(** A presenter of documents that refuses an empty list and otherwise
    returns a fixed text. *)
Definition sample_html_presenter : IPuzzlePresenter string :=
  Build_IPuzzlePresenter string
    (fun puzzles _ =>
       match puzzles with
       | [] => Raises (Builtin ValueError)
       | _ :: _ => Returns "<!DOCTYPE html>"
       end).

(** One puzzle of size 5 with the word "cat", one attempt per puzzle;
    the draws put a diagonal direction first. *)
Definition sample_request : GeneratePuzzleRequest :=
  mkGeneratePuzzleRequest 5 (Some ["cat"]) None 1 "out.html" "Puzzle".

Definition sample_tape : list nat := [7; 6; 5; 0; 3; 2; 1]%nat.

(** The same request with a word file that cannot be read. *)
Definition sample_file_request : GeneratePuzzleRequest :=
  mkGeneratePuzzleRequest 5 None (Some "words.txt") 1 "out.html" "Puzzle".

(* ================================================================== *)
(** * Verification *)

(** ** Reasoning about monadic code *)

Lemma bind_ok {S A B} (m : M S A) (k : A -> M S B) s a s' :
  m s = (Ok a, s') -> bind m k s = k a s'.
Proof. intros H. unfold bind. now rewrite H. Qed.

Lemma bind_raise {S A B} (m : M S A) (k : A -> M S B) s e s' :
  m s = (Raise e, s') -> bind m k s = (Raise e, s').
Proof. intros H. unfold bind. now rewrite H. Qed.

Lemma lift_puzzle_ok {A} (m : M Puzzle A) w a p' :
  m (w_puzzle w) = (Ok a, p') ->
  lift_puzzle m w = (Ok a, mkWorld p' (w_rng w)).
Proof. intros H. unfold lift_puzzle. now rewrite H. Qed.

(* ------------------------------------------------------------------ *)
(** ** Grid model *)

Lemma empty_grid_wf gs ws pls :
  grid_wf (mkPuzzle gs ws pls (empty_grid gs)).
Proof.
  split; simpl; unfold empty_grid.
  - apply length_replicate.
  - apply Forall_replicate, length_replicate.
Qed.

Lemma Puzzle_new_wf gs ws : grid_wf (Puzzle_new gs ws).
Proof. apply empty_grid_wf. Qed.

Lemma reset_wf p : grid_wf (reset p).
Proof. apply empty_grid_wf. Qed.

Lemma valid_position_bounds p pos :
  is_valid_position p pos = true <->
  0 <= row pos < grid_size p /\ 0 <= col pos < grid_size p.
Proof. unfold is_valid_position. rewrite !andb_true_iff. lia. Qed.

Lemma grid_at_valid p pos :
  grid_wf p -> is_valid_position p pos = true ->
  exists c, grid_at (grid p) pos = Some c.
Proof.
  intros [Hlen Hrows] Hv. apply valid_position_bounds in Hv.
  unfold grid_at.
  destruct (lookup_lt_is_Some_2 (grid p) (Z.to_nat (row pos))) as [line Hl];
    [lia|].
  rewrite Hl.
  rewrite Forall_lookup in Hrows. specialize (Hrows _ _ Hl).
  destruct (lookup_lt_is_Some_2 line (Z.to_nat (col pos))) as [c Hc]; [lia|].
  eauto.
Qed.

Lemma empty_grid_at gs pos :
  0 <= row pos < gs -> 0 <= col pos < gs ->
  grid_at (empty_grid gs) pos = Some EmptyString.
Proof.
  intros Hr Hc. unfold grid_at, empty_grid.
  rewrite lookup_replicate_2 by lia.
  apply lookup_replicate_2. lia.
Qed.

Lemma get_cell_valid p pos :
  grid_wf p -> is_valid_position p pos = true ->
  exists c, get_cell p pos = Ok c /\ grid_at (grid p) pos = Some c.
Proof.
  intros Hwf Hv. destruct (grid_at_valid p pos Hwf Hv) as [c Hc].
  exists c. unfold get_cell. now rewrite Hv, Hc.
Qed.

(* ------------------------------------------------------------------ *)
(** ** [can_place_word] *)

Lemma can_place_loop_true p start d chars : forall k,
  can_place_loop p start d k chars = Ok true <->
  forall (i : nat) (c : ascii),
    String.get i chars = Some c ->
    cell_admits p (step_position start d (k + Z.of_nat i)) c.
Proof.
  induction chars as [|a rest IH]; intros k; simpl.
  - split; [intros _ i c Hi; destruct i; discriminate | reflexivity].
  - destruct (is_valid_position p (step_position start d k)) eqn:Hv; simpl.
    + unfold get_cell. rewrite Hv. simpl.
      destruct (grid_at (grid p) (step_position start d k)) as [cell|] eqn:Hc.
      * destruct (bool_decide (cell = "")) eqn:He; simpl.
        { apply bool_decide_eq_true in He. rewrite IH. split.
          - intros H [|i] c Hi; simpl in Hi.
            + inversion Hi; subst. rewrite Z.add_0_r. split; eauto.
            + replace (k + Z.of_nat (S i)) with (k + 1 + Z.of_nat i) by lia.
              now apply H.
          - intros H i c Hi.
            replace (k + 1 + Z.of_nat i) with (k + Z.of_nat (S i)) by lia.
            now apply H. }
        destruct (bool_decide (cell = String a "")) eqn:Ha; simpl.
        { apply bool_decide_eq_true in Ha. rewrite IH. split.
          - intros H [|i] c Hi; simpl in Hi.
            + inversion Hi; subst. rewrite Z.add_0_r. split; eauto.
            + replace (k + Z.of_nat (S i)) with (k + 1 + Z.of_nat i) by lia.
              now apply H.
          - intros H i c Hi.
            replace (k + 1 + Z.of_nat i) with (k + Z.of_nat (S i)) by lia.
            now apply H. }
        apply bool_decide_eq_false in He, Ha.
        split; [discriminate|]. intros H.
        destruct (H 0%nat a eq_refl) as [_ (cell' & Hc' & Hor)].
        rewrite Z.add_0_r in Hc'. rewrite Hc in Hc'. inversion Hc'; subst.
        destruct Hor; contradiction.
      * split; [discriminate|]. intros H.
        destruct (H 0%nat a eq_refl) as [_ (cell' & Hc' & _)].
        rewrite Z.add_0_r in Hc'. congruence.
    + split; [discriminate|]. intros H.
      destruct (H 0%nat a eq_refl) as [Hv' _].
      rewrite Z.add_0_r in Hv'. congruence.
Qed.

Lemma can_place_loop_total p start d chars : forall k,
  grid_wf p -> exists b, can_place_loop p start d k chars = Ok b.
Proof.
  induction chars as [|a rest IH]; intros k Hwf; simpl; [eauto|].
  destruct (is_valid_position p (step_position start d k)) eqn:Hv; simpl;
    [|eauto].
  destruct (get_cell_valid p _ Hwf Hv) as (c & -> & _).
  destruct (_ && _); eauto.
Qed.

Lemma can_place_word_total p w start d :
  grid_wf p -> exists b, can_place_word p w start d = Ok b.
Proof. apply can_place_loop_total. Qed.

(** C3. [can_place_word] returns true exactly when every index [i] of the
    word has its target cell [(start.row + i * row_delta,
    start.col + i * col_delta)] inside the grid and that cell is empty
    or already holds the word's character at [i]. *)
Theorem can_place_word_iff (p : Puzzle) (w : Word) (start : Position)
    (d : Direction) :
  can_place_word p w start d = Ok true <->
  forall (i : nat) (c : ascii),
    String.get i (value w) = Some c ->
    let pos := mkPosition (row start + Z.of_nat i * row_delta d)
                          (col start + Z.of_nat i * col_delta d) in
    (0 <= row pos < grid_size p /\ 0 <= col pos < grid_size p)
    /\ exists cell, grid_at (grid p) pos = Some cell
                    /\ (cell = EmptyString \/ cell = String c EmptyString).
Proof.
  unfold can_place_word. rewrite can_place_loop_true.
  split; intros H i c Hi; specialize (H i c Hi); simpl in *;
    unfold cell_admits in *; rewrite valid_position_bounds in *; exact H.
Qed.

(* ------------------------------------------------------------------ *)
(** ** Direction balancer *)

Lemma mod3_cases (i : Z) : i mod 3 = 0 \/ i mod 3 = 1 \/ i mod 3 = 2.
Proof. pose proof (Z.mod_pos_bound i 3). lia. Qed.

(** C6. [get_priority_directions] is the category ordering of the
    specification, each category expanded to its directions: the
    under-represented category first (diagonal, then horizontal, then
    vertical being tested against [total_words // 3]), otherwise the
    round-robin ordering led by category [i mod 3]. *)
Theorem get_priority_directions_refines_spec (b : DirectionBalancer) (i : Z) :
  get_priority_directions b i =
  expand_categories
    (priority_spec (total_words b) (counts b HORIZONTAL) (counts b VERTICAL)
                   (counts b DIAGONAL) i).
Proof.
  unfold get_priority_directions, priority_spec.
  destruct (counts b DIAGONAL <? total_words b / 3); [reflexivity|].
  destruct (counts b HORIZONTAL <? total_words b / 3); [reflexivity|].
  destruct (counts b VERTICAL <? total_words b / 3); [reflexivity|].
  change (Z.of_nat (length [Directions.horizontal; Directions.vertical;
                            Directions.diagonal])) with 3.
  destruct (mod3_cases i) as [-> | [-> | ->]]; reflexivity.
Qed.

(** The three under-represented cases and the three round-robin cases,
    read off the source. *)
Lemma get_priority_directions_cases (b : DirectionBalancer) (i : Z) :
  let target := total_words b / 3 in
  let H := Directions.horizontal in
  let V := Directions.vertical in
  let D := Directions.diagonal in
  (counts b DIAGONAL < target ->
     get_priority_directions b i = D ++ H ++ V)
  /\ (target <= counts b DIAGONAL -> counts b HORIZONTAL < target ->
     get_priority_directions b i = H ++ D ++ V)
  /\ (target <= counts b DIAGONAL -> target <= counts b HORIZONTAL ->
      counts b VERTICAL < target ->
     get_priority_directions b i = V ++ D ++ H)
  /\ (target <= counts b DIAGONAL -> target <= counts b HORIZONTAL ->
      target <= counts b VERTICAL ->
     get_priority_directions b i =
       if i mod 3 =? 0 then H ++ V ++ D
       else if i mod 3 =? 1 then V ++ H ++ D
       else D ++ H ++ V).
Proof.
  intros target H V D. unfold get_priority_directions.
  fold target H V D.
  repeat split; intros;
    repeat match goal with
    | Hlt : ?a < ?t |- context [?a <? ?t] =>
        rewrite (proj2 (Z.ltb_lt a t) Hlt)
    | Hge : ?t <= ?a |- context [?a <? ?t] =>
        rewrite (proj2 (Z.ltb_ge a t) Hge)
    end; try reflexivity.
  change (Z.of_nat (length [H; V; D])) with 3.
  destruct (mod3_cases i) as [-> | [-> | ->]]; reflexivity.
Qed.

(* ------------------------------------------------------------------ *)
(** ** Writing cells *)

Lemma str_index_get s : forall i,
  str_index s i =
  match String.get i s with
  | Some c => Ok (String c EmptyString)
  | None => Raise IndexError
  end.
Proof.
  induction s as [|a s IH]; intros [|i]; simpl; try reflexivity. apply IH.
Qed.

Lemma get_lt_Some s : forall i,
  (i < String.length s)%nat -> exists c, String.get i s = Some c.
Proof.
  induction s as [|a s IH]; intros [|i] Hi; simpl in *; try lia; eauto.
  apply IH. lia.
Qed.

Lemma get_Some_lt s : forall i c,
  String.get i s = Some c -> (i < String.length s)%nat.
Proof.
  induction s as [|a s IH]; intros [|i] c Hi; simpl in *;
    try discriminate; try lia.
  apply IH in Hi. lia.
Qed.

Lemma position_eq_nat (q pos : Position) :
  0 <= row q -> 0 <= col q -> 0 <= row pos -> 0 <= col pos ->
  Z.to_nat (row q) = Z.to_nat (row pos) ->
  Z.to_nat (col q) = Z.to_nat (col pos) -> q = pos.
Proof.
  destruct q, pos; simpl. intros. f_equal; lia.
Qed.

Lemma set_cell_invalid p pos ch :
  is_valid_position p pos = false ->
  set_cell pos ch p = (Raise ValueError, p).
Proof. intros H. unfold set_cell. now rewrite H. Qed.

Lemma set_cell_valid p pos ch :
  grid_wf p -> is_valid_position p pos = true ->
  exists p',
    set_cell pos ch p = (Ok tt, p')
    /\ grid_size p' = grid_size p /\ words p' = words p
    /\ placements p' = placements p
    /\ grid_wf p'
    /\ grid_at (grid p') pos = Some ch
    /\ forall q, is_valid_position p q = true -> q <> pos ->
                 grid_at (grid p') q = grid_at (grid p) q.
Proof.
  intros [Hlen Hrows] Hv. pose proof Hv as Hb.
  apply valid_position_bounds in Hb.
  destruct (lookup_lt_is_Some_2 (grid p) (Z.to_nat (row pos))) as [line Hl];
    [lia|].
  pose proof Hrows as Hrows'. rewrite Forall_lookup in Hrows'.
  pose proof (Hrows' _ _ Hl) as Hline.
  unfold set_cell. rewrite Hv, Hl. simpl.
  rewrite bool_decide_eq_true_2 by lia.
  eexists. split; [reflexivity|]. unfold with_grid, grid_wf. simpl.
  repeat split; try reflexivity.
  - now rewrite length_insert.
  - apply Forall_insert; [assumption|]. now rewrite length_insert.
  - unfold grid_at. rewrite list_lookup_insert_eq by lia.
    apply list_lookup_insert_eq. lia.
  - intros q Hq Hne. apply valid_position_bounds in Hq.
    unfold grid_at.
    destruct (decide (Z.to_nat (row pos) = Z.to_nat (row q))) as [Hr|Hr].
    + rewrite <- Hr, list_lookup_insert_eq, Hl by lia.
      apply list_lookup_insert_ne. intros Hc. apply Hne.
      apply position_eq_nat; lia.
    + now rewrite list_lookup_insert_ne.
Qed.

Lemma last_write_None s ps : forall i q,
  (forall pos, pos ∈ ps -> pos <> q) -> last_write s i ps q = None.
Proof.
  induction ps as [|pos rest IH]; intros i q H; simpl; [reflexivity|].
  rewrite IH by (intros; apply H; now right).
  rewrite bool_decide_eq_false_2; [reflexivity|].
  apply H. now left.
Qed.

(** In bounds the loop of [add_placement] runs to its end and the cells
    hold what was written last. *)
Lemma add_placement_loop_ok pl ps : forall i p,
  grid_wf p ->
  Forall (fun pos => is_valid_position p pos = true) ps ->
  (i + length ps <= Word_len (word pl))%nat ->
  exists p',
    add_placement_loop pl i ps p = (Ok tt, p')
    /\ grid_size p' = grid_size p /\ words p' = words p
    /\ placements p' = placements p
    /\ grid_wf p'
    /\ forall q, is_valid_position p q = true ->
         grid_at (grid p') q =
         match last_write (value (word pl)) i ps q with
         | Some c => Some (String c EmptyString)
         | None => grid_at (grid p) q
         end.
Proof.
  induction ps as [|pos rest IH]; intros i p Hwf Hall Hlen; simpl.
  - exists p. split_and!; auto.
  - inversion Hall as [|? ? Hpos Hrest]; subst. simpl in Hlen.
    destruct (get_lt_Some (value (word pl)) i) as [c Hc];
      [unfold Word_len in Hlen; lia|].
    destruct (set_cell_valid p pos (String c "") Hwf Hpos)
      as (p1 & Hset & Hgs & Hws & Hpls & Hwf1 & Hat & Hframe).
    assert (Hvalid1 : forall q, is_valid_position p1 q = is_valid_position p q)
      by (intros q; unfold is_valid_position; now rewrite Hgs).
    destruct (IH (S i) p1 Hwf1) as (p' & Hrun & Hgs' & Hws' & Hpls' & Hwf' & Hq).
    { eapply Forall_impl; [exact Hrest|]. intros q Hq. simpl.
      now rewrite Hvalid1. }
    { lia. }
    exists p'. split.
    { unfold get_character_at. rewrite str_index_get, Hc.
      unfold lift_res. unfold bind at 1. unfold bind at 1.
      now rewrite Hset. }
    split_and!; try congruence.
    intros q Hvq. rewrite Hq by now rewrite Hvalid1.
    destruct (last_write (value (word pl)) (S i) rest q); [reflexivity|].
    destruct (decide (pos = q)) as [->|Hne].
    + rewrite bool_decide_eq_true_2 by reflexivity. now rewrite Hc.
    + rewrite bool_decide_eq_false_2 by assumption. apply Hframe; auto.
Qed.

(* ------------------------------------------------------------------ *)
(** ** Word placements *)

Lemma positions_new w start d :
  positions (WordPlacement_new w start d) = _calculate_positions w start d.
Proof. reflexivity. Qed.

Lemma calculate_positions_length w start d :
  length (_calculate_positions w start d) = Word_len w.
Proof.
  unfold _calculate_positions. now rewrite length_fmap, length_seq.
Qed.

Lemma calculate_positions_lookup w start d (i : nat) :
  (i < Word_len w)%nat ->
  _calculate_positions w start d !! i
  = Some (step_position start d (Z.of_nat i)).
Proof.
  intros Hi. unfold _calculate_positions.
  rewrite list_lookup_fmap, lookup_seq_lt by assumption. reflexivity.
Qed.

Lemma calculate_positions_elem w start d pos :
  pos ∈ _calculate_positions w start d <->
  exists i : nat, (i < Word_len w)%nat
                  /\ pos = step_position start d (Z.of_nat i).
Proof.
  unfold _calculate_positions. rewrite list_elem_of_fmap. split.
  - intros (i & -> & Hi). apply elem_of_seq in Hi. exists i. split; [lia|auto].
  - intros (i & Hi & ->). exists i. split; [auto|]. apply elem_of_seq. lia.
Qed.

Lemma last_write_path s start d (n : nat) : forall (i j : nat) (c : ascii),
  (i <= j < i + n)%nat ->
  String.get j s = Some c ->
  (forall k : nat, (j < k < i + n)%nat ->
     step_position start d (Z.of_nat k) <> step_position start d (Z.of_nat j)) ->
  last_write s i
    ((fun k : nat => step_position start d (Z.of_nat k)) <$> seq i n)
    (step_position start d (Z.of_nat j))
  = Some c.
Proof.
  induction n as [|n IH]; intros i j c Hj Hc Hlater; [lia|].
  change (seq i (S n)) with (i :: seq (S i) n).
  rewrite fmap_cons. cbn [last_write].
  destruct (decide (j = i)) as [->|Hne].
  - rewrite last_write_None.
    + now rewrite bool_decide_eq_true_2.
    + intros pos Hin. apply list_elem_of_fmap in Hin as (k & -> & Hk).
      apply elem_of_seq in Hk. apply Hlater. lia.
  - rewrite (IH (S i) j c); [reflexivity | lia | assumption |].
    intros k Hk. apply Hlater. lia.
Qed.

(** The loop of [add_placement] over a path in two parts: the second
    part runs from the state the first part leaves, if it returns. *)
Lemma add_placement_loop_app pl ps1 ps2 : forall i p,
  add_placement_loop pl i (ps1 ++ ps2) p
  = match add_placement_loop pl i ps1 p with
    | (Ok _, p1) => add_placement_loop pl (i + length ps1) ps2 p1
    | (Raise e, p1) => (Raise e, p1)
    end.
Proof.
  induction ps1 as [|pos rest IH]; intros i p.
  - cbn [app add_placement_loop length]. unfold ret.
    now rewrite Nat.add_0_r.
  - cbn [app add_placement_loop length]. unfold bind, lift_res.
    destruct (get_character_at pl i) as [c|e]; [|reflexivity].
    destruct (set_cell pos c p) as [[[]|e] p1]; [|reflexivity].
    rewrite IH. now replace (S i + length rest)%nat
                  with (i + S (length rest))%nat by lia.
Qed.

(** The loop stops at the first position outside the grid, after the
    writes before it. *)
Lemma add_placement_loop_stops pl ps1 pos ps2 : forall i p,
  grid_wf p ->
  Forall (fun q => is_valid_position p q = true) ps1 ->
  is_valid_position p pos = false ->
  (i + length ps1 < Word_len (word pl))%nat ->
  exists p',
    add_placement_loop pl i (ps1 ++ pos :: ps2) p = (Raise ValueError, p')
    /\ add_placement_loop pl i ps1 p = (Ok tt, p').
Proof.
  intros i p Hwf Hall Hbad Hlen.
  destruct (add_placement_loop_ok pl ps1 i p Hwf Hall)
    as (p1 & Hrun & Hgs & _); [lia|].
  exists p1. split; [|assumption].
  rewrite add_placement_loop_app, Hrun. cbn [add_placement_loop].
  destruct (get_lt_Some (value (word pl)) (i + length ps1)) as [c Hc];
    [exact Hlen|].
  unfold get_character_at. rewrite str_index_get, Hc.
  unfold lift_res. unfold bind at 1. unfold bind at 1.
  rewrite set_cell_invalid; [reflexivity|].
  unfold is_valid_position in *. now rewrite Hgs.
Qed.

Lemma first_false (f : nat -> bool) (n : nat) :
  (exists i : nat, (i < n)%nat /\ f i = false) ->
  exists k : nat, (k < n)%nat /\ f k = false
                  /\ forall i : nat, (i < k)%nat -> f i = true.
Proof.
  assert (Hcases : (forall i : nat, (i < n)%nat -> f i = true)
                   \/ exists k : nat,
                        (k < n)%nat /\ f k = false
                        /\ forall i : nat, (i < k)%nat -> f i = true).
  { induction n as [|n [Hall|(k & Hk & Hfk & Hbefore)]].
    - left. intros i Hi. lia.
    - destruct (f n) eqn:Hfn.
      + left. intros i Hi. destruct (decide (i = n)) as [->|Hne];
          [assumption | apply Hall; lia].
      + right. exists n. split_and!; auto.
    - right. exists k. split_and!; auto. }
  intros (i & Hi & Hf). destruct Hcases as [Hall|Hk]; [|exact Hk].
  rewrite Hall in Hf by assumption. discriminate.
Qed.

(** C9, as the code has it.  [add_placement] checks bounds only (through
    [set_cell]) and never looks at what the cells hold.  On a puzzle
    whose grid has [grid_size] rows of [grid_size] cells: when every
    computed position is inside the grid the call returns, the placement
    is appended and each computed position holds the word's character
    (the last one written there, should the path revisit a cell), all
    other cells being untouched; when some computed position is outside
    the grid the call raises [ValueError] at the first such position
    [k]: nothing is appended, the positions before [k] hold the word's
    characters as written so far, and all other cells are untouched. *)
Theorem add_placement_checks_bounds_only (p : Puzzle) (w : Word)
    (start : Position) (d : Direction) :
  grid_wf p ->
  let pl := WordPlacement_new w start d in
  let cell (i : nat) := step_position start d (Z.of_nat i) in
  ((forall i : nat, (i < Word_len w)%nat -> is_valid_position p (cell i) = true) ->
   exists p',
     add_placement pl p = (Ok tt, p')
     /\ placements p' = placements p ++ [pl]
     /\ grid_size p' = grid_size p /\ words p' = words p
     /\ (forall (i : nat) (c : ascii),
           String.get i (value w) = Some c ->
           (forall k : nat, (i < k < Word_len w)%nat -> cell k <> cell i) ->
           grid_at (grid p') (cell i) = Some (String c EmptyString))
     /\ (forall q, is_valid_position p q = true ->
           (forall i : nat, (i < Word_len w)%nat -> cell i <> q) ->
           grid_at (grid p') q = grid_at (grid p) q))
  /\ ((exists i : nat, (i < Word_len w)%nat
                       /\ is_valid_position p (cell i) = false) ->
      exists (k : nat) p',
        (k < Word_len w)%nat
        /\ (forall i : nat, (i < k)%nat ->
              is_valid_position p (cell i) = true)
        /\ is_valid_position p (cell k) = false
        /\ add_placement pl p = (Raise ValueError, p')
        /\ placements p' = placements p
        /\ grid_size p' = grid_size p /\ words p' = words p
        /\ (forall (i : nat) (c : ascii),
              (i < k)%nat -> String.get i (value w) = Some c ->
              (forall j : nat, (i < j < k)%nat -> cell j <> cell i) ->
              grid_at (grid p') (cell i) = Some (String c EmptyString))
        /\ (forall q, is_valid_position p q = true ->
              (forall i : nat, (i < k)%nat -> cell i <> q) ->
              grid_at (grid p') q = grid_at (grid p) q)).
Proof.
  intros Hwf pl cell. split.
  - intros Hvalid.
    destruct (add_placement_loop_ok pl (positions pl) 0 p Hwf)
      as (p1 & Hrun & Hgs & Hws & Hpls & Hwf1 & Hq).
    { apply Forall_forall. intros pos Hin.
      apply calculate_positions_elem in Hin as (i & Hi & ->). now apply Hvalid. }
    { simpl. now rewrite calculate_positions_length. }
    exists (append_placement pl p1). split.
    { unfold add_placement. now rewrite (bind_ok _ _ _ _ _ Hrun). }
    simpl. split_and!; try congruence.
    + intros i c Hc Hlater.
      assert (Hi : (i < Word_len w)%nat) by (eapply get_Some_lt; eauto).
      rewrite Hq by now apply Hvalid.
      simpl. unfold _calculate_positions, cell in *.
      rewrite (last_write_path (value w) start d (Word_len w) 0 i c);
        auto; try lia.
    + intros q Hvq Hoff. rewrite Hq by assumption.
      rewrite last_write_None; [reflexivity|].
      intros pos Hin. apply calculate_positions_elem in Hin as (i & Hi & ->).
      now apply Hoff.
  - intros Hex.
    destruct (first_false (fun i => is_valid_position p (cell i))
                (Word_len w) Hex) as (k & Hk & Hbad & Hbefore).
    assert (Hsplit : positions pl
                     = (cell <$> seq 0 k)
                       ++ cell k :: (cell <$> seq (S k) (Word_len w - S k))).
    { change (positions pl) with (cell <$> seq 0 (Word_len w)).
      replace (Word_len w) with (k + S (Word_len w - S k))%nat at 1 by lia.
      rewrite seq_app, fmap_app. reflexivity. }
    assert (Hall : Forall (fun q => is_valid_position p q = true)
                          (cell <$> seq 0 k)).
    { apply Forall_fmap, Forall_forall. intros i Hi.
      apply elem_of_seq in Hi. apply Hbefore. lia. }
    destruct (add_placement_loop_stops pl (cell <$> seq 0 k) (cell k)
                (cell <$> seq (S k) (Word_len w - S k)) 0 p Hwf Hall Hbad)
      as (p' & Hraise & Hprefix).
    { rewrite length_fmap, length_seq. exact Hk. }
    destruct (add_placement_loop_ok pl (cell <$> seq 0 k) 0 p Hwf Hall)
      as (p1 & Hrun & Hgs & Hws & Hpls & _ & Hq).
    { rewrite length_fmap, length_seq. simpl. lia. }
    rewrite Hprefix in Hrun. inversion Hrun; subst p1. clear Hrun.
    exists k, p'. split_and!; auto.
    + unfold add_placement. rewrite Hsplit.
      now rewrite (bind_raise _ _ _ _ _ Hraise).
    + intros i c Hi Hc Hlater. rewrite Hq by now apply Hbefore.
      simpl. unfold cell in *.
      rewrite (last_write_path (value w) start d k 0 i c); auto; lia.
    + intros q Hvq Hoff. rewrite Hq by assumption.
      rewrite last_write_None; [reflexivity|].
      intros pos Hin. apply list_elem_of_fmap in Hin as (i & -> & Hi).
      apply elem_of_seq in Hi. apply Hoff. lia.
Qed.

(* ------------------------------------------------------------------ *)
(** ** The random source: [shuffle] permutes *)

Lemma randbelow_ok n w :
  exists j w', randbelow n w = (Ok j, w') /\ w_puzzle w' = w_puzzle w.
Proof.
  unfold randbelow. destruct (w_rng w); eauto.
Qed.

Lemma randbelow_lt n w j w' :
  (0 < n)%nat -> randbelow n w = (Ok j, w') -> (j < n)%nat.
Proof.
  unfold randbelow. intros Hn H. destruct (w_rng w); inversion H; subst.
  - lia.
  - apply Nat.mod_upper_bound. lia.
Qed.

Lemma swap_perm {A} (x : list A) i j : swap x i j ≡ₚ x.
Proof.
  unfold swap.
  destruct (x !! i) as [a|] eqn:Hi; [|reflexivity].
  destruct (x !! j) as [b|] eqn:Hj; [|reflexivity].
  apply Permutation_inj. split; [now rewrite !length_insert|].
  exists (fun k => if decide (k = j) then i
                   else if decide (k = i) then j else k).
  split.
  - intros k1 k2. repeat case_decide; subst; congruence.
  - intros k.
    apply lookup_lt_Some in Hi as Hli. apply lookup_lt_Some in Hj as Hlj.
    rewrite !list_lookup_insert, !length_insert.
    repeat case_decide; subst; try congruence; try lia;
      destruct_and?; subst; try congruence.
    all: try (exfalso; intuition (congruence || lia)).
Qed.

Lemma shuffle_loop_perm {A} (i : nat) : forall (x : list A) w,
  exists x' w',
    shuffle_loop i x w = (Ok x', w')
    /\ x' ≡ₚ x /\ w_puzzle w' = w_puzzle w.
Proof.
  induction i as [|i IH]; intros x w; simpl.
  - exists x, w. split_and!; reflexivity.
  - destruct (randbelow_ok (S (S i)) w) as (j & w1 & Hr & Hp1).
    destruct (IH (swap x (S i) j) w1) as (x' & w' & Hs & Hperm & Hp').
    exists x', w'. split_and!.
    + now rewrite (bind_ok _ _ _ _ _ Hr).
    + rewrite Hperm. apply swap_perm.
    + congruence.
Qed.

(** [random.shuffle] never raises, leaves the puzzle alone and returns
    a permutation of its argument. *)
Lemma shuffle_perm {A} (x : list A) w :
  exists x' w',
    shuffle x w = (Ok x', w') /\ x' ≡ₚ x /\ w_puzzle w' = w_puzzle w.
Proof. apply shuffle_loop_perm. Qed.

(* ------------------------------------------------------------------ *)
(** ** Committing a placement *)

Lemma add_placement_ok p pl :
  grid_wf p ->
  Forall (fun pos => is_valid_position p pos = true) (positions pl) ->
  (length (positions pl) <= Word_len (word pl))%nat ->
  exists p',
    add_placement pl p = (Ok tt, p')
    /\ grid_size p' = grid_size p /\ words p' = words p
    /\ placements p' = placements p ++ [pl]
    /\ grid_wf p'
    /\ forall q, is_valid_position p q = true ->
         grid_at (grid p') q =
         match last_write (value (word pl)) 0 (positions pl) q with
         | Some c => Some (String c EmptyString)
         | None => grid_at (grid p) q
         end.
Proof.
  intros Hwf Hall Hlen.
  destruct (add_placement_loop_ok pl (positions pl) 0 p Hwf Hall)
    as (p1 & Hrun & Hgs & Hws & Hpls & Hwf1 & Hq); [simpl; lia|].
  exists (append_placement pl p1). split.
  { unfold add_placement. now rewrite (bind_ok _ _ _ _ _ Hrun). }
  simpl. split_and!; try congruence; auto.
Qed.

Lemma last_write_Some_inv s ps : forall i q c,
  last_write s i ps q = Some c ->
  exists j : nat, ps !! j = Some q /\ String.get (i + j) s = Some c.
Proof.
  induction ps as [|pos rest IH]; intros i q c H; simpl in H; [discriminate|].
  destruct (last_write s (S i) rest q) eqn:Hl.
  - inversion H; subst. destruct (IH _ _ _ Hl) as (j & Hj & Hg).
    exists (S j). split; [assumption|].
    now replace (i + S j)%nat with (S i + j)%nat by lia.
  - case_bool_decide; [|discriminate]. subst.
    exists 0%nat. split; [reflexivity|]. now rewrite Nat.add_0_r.
Qed.

Lemma step_position_inj start d (i k : Z) :
  dir_moves d ->
  step_position start d i = step_position start d k -> i = k.
Proof.
  intros Hm H. unfold step_position in H. inversion H as [[Hr Hc]].
  destruct Hm as [Hd|Hd]; nia.
Qed.

Lemma dir_all_moves d : d ∈ Directions.all -> dir_moves d.
Proof.
  intros H. apply list_elem_of_In in H. simpl in H.
  unfold dir_moves.
  repeat (destruct H as [<-|H]; [simpl; lia|]). destruct H.
Qed.

Lemma can_place_word_valid p w pos d (i : nat) :
  can_place_word p w pos d = Ok true ->
  (i < Word_len w)%nat ->
  is_valid_position p (step_position pos d (Z.of_nat i)) = true.
Proof.
  intros H Hi. unfold can_place_word in H.
  rewrite can_place_loop_true in H.
  destruct (get_lt_Some (value w) i Hi) as [c Hc].
  now destruct (H i c Hc) as [Hv _].
Qed.

Lemma committed_exists p0 w pos d :
  grid_wf p0 -> can_place_word p0 w pos d = Ok true ->
  exists p', committed p0 w pos d p'.
Proof.
  intros Hwf Hcan.
  destruct (add_placement_ok p0 (WordPlacement_new w pos d) Hwf)
    as (p' & Hadd & _).
  - apply Forall_forall. intros q Hin.
    apply calculate_positions_elem in Hin as (i & Hi & ->).
    eapply can_place_word_valid; eauto.
  - simpl. now rewrite calculate_positions_length.
  - exists p'. split; assumption.
Qed.

(** What a commit does to the puzzle: the placement is appended, no
    filled cell changes, and the cells of the new path hold the word. *)
Lemma committed_spec p0 w pos d p' :
  grid_wf p0 -> committed p0 w pos d p' ->
  grid_size p' = grid_size p0 /\ words p' = words p0
  /\ placements p' = placements p0 ++ [WordPlacement_new w pos d]
  /\ grid_wf p'
  /\ (forall q cell, is_valid_position p0 q = true ->
        grid_at (grid p0) q = Some cell -> cell <> EmptyString ->
        grid_at (grid p') q = Some cell)
  /\ (dir_moves d ->
      forall (i : nat) (c : ascii), String.get i (value w) = Some c ->
        is_valid_position p' (step_position pos d (Z.of_nat i)) = true
        /\ grid_at (grid p') (step_position pos d (Z.of_nat i))
           = Some (String c EmptyString)).
Proof.
  intros Hwf [Hcan Hadd].
  destruct (add_placement_ok p0 (WordPlacement_new w pos d) Hwf)
    as (p1 & Hadd1 & Hgs & Hws & Hpls & Hwf1 & Hq).
  { apply Forall_forall. intros q Hin.
    apply calculate_positions_elem in Hin as (i & Hi & ->).
    eapply can_place_word_valid; eauto. }
  { simpl. now rewrite calculate_positions_length. }
  rewrite Hadd in Hadd1. inversion Hadd1; subst p1. clear Hadd1.
  split_and!; auto.
  - intros q cell Hvq Hcell Hne. rewrite Hq by assumption.
    destruct (last_write _ _ _ q) as [c|] eqn:Hl; [|assumption].
    apply last_write_Some_inv in Hl as (j & Hj & Hg). simpl in Hj, Hg.
    assert (Hjlt : (j < Word_len w)%nat) by (eapply get_Some_lt; eauto).
    rewrite calculate_positions_lookup in Hj by assumption.
    inversion Hj; subst q.
    unfold can_place_word in Hcan. rewrite can_place_loop_true in Hcan.
    destruct (Hcan j c Hg) as [_ (cell' & Hc' & Hor)].
    rewrite Z.add_0_l in Hc'. rewrite Hcell in Hc'. inversion Hc'; subst.
    destruct Hor as [->| ->]; [contradiction | reflexivity].
  - intros Hm i c Hc.
    assert (Hi : (i < Word_len w)%nat) by (eapply get_Some_lt; eauto).
    assert (Hv : is_valid_position p0 (step_position pos d (Z.of_nat i)) = true)
      by (eapply can_place_word_valid; eauto).
    split.
    + unfold is_valid_position in *. now rewrite Hgs.
    + rewrite Hq by assumption. simpl. unfold _calculate_positions.
      rewrite (last_write_path (value w) pos d (Word_len w) 0 i c);
        auto; try lia.
      intros k Hk Heq. apply step_position_inj in Heq; [lia | assumption].
Qed.

Lemma committed_inv p0 w pos d p' :
  puzzle_inv p0 -> d ∈ Directions.all -> committed p0 w pos d p' ->
  puzzle_inv p'.
Proof.
  intros [Hwf Hpls] Hd Hc.
  destruct (committed_spec _ _ _ _ _ Hwf Hc)
    as (Hgs & Hws & Hpl' & Hwf' & Hkeep & Hnew).
  split; [assumption|]. rewrite Hpl'. apply Forall_app. split.
  - eapply Forall_impl; [exact Hpls|].
    intros pl (Hpos & Hdir & Hcells). split_and!; auto.
    intros i c Hi. destruct (Hcells i c Hi) as [Hv Hat]. split.
    + unfold is_valid_position in *. now rewrite Hgs.
    + eapply Hkeep; eauto; discriminate.
  - apply Forall_singleton. split_and!; auto.
    simpl. apply Hnew. now apply dir_all_moves.
Qed.

(* ------------------------------------------------------------------ *)
(** ** The placement prober *)

(** The scan over start positions is first-fit: it commits at the first
    position [can_place_word] accepts and at no other. *)
Lemma scan_positions_spec w d ps : forall w0,
  grid_wf (w_puzzle w0) ->
  exists b w',
    scan_positions w d ps w0 = (Ok b, w')
    /\ w_rng w' = w_rng w0
    /\ if b
       then exists pos, pos ∈ ps /\ committed (w_puzzle w0) w pos d (w_puzzle w')
       else w_puzzle w' = w_puzzle w0
            /\ forall pos, pos ∈ ps ->
                 can_place_word (w_puzzle w0) w pos d = Ok false.
Proof.
  induction ps as [|pos rest IH]; intros w0 Hwf; simpl.
  - exists false, w0. split_and!; auto. intros pos Hin. inversion Hin.
  - unfold get_puzzle, lift_res. unfold bind at 1. unfold bind at 1.
    destruct (can_place_word_total (w_puzzle w0) w pos d Hwf) as [b Hb].
    rewrite Hb. destruct b.
    + destruct (committed_exists _ _ _ _ Hwf Hb) as [p' Hc].
      exists true, (mkWorld p' (w_rng w0)). split_and!; auto.
      * destruct Hc as [_ Hadd].
        now rewrite (bind_ok _ _ _ _ _ (lift_puzzle_ok _ _ _ _ Hadd)).
      * exists pos. split; [now left | assumption].
    + destruct (IH w0 Hwf) as (b & w' & Hrun & Hr & Hpost).
      exists b, w'. split_and!; auto.
      destruct b.
      * destruct Hpost as (q & Hq & Hc). exists q. split; [now right|auto].
      * destruct Hpost as [Hp Hall]. split; [assumption|].
        intros q Hq. apply elem_of_cons in Hq as [->|Hq]; auto.
Qed.

Lemma scan_directions_spec w ds : forall w0,
  grid_wf (w_puzzle w0) ->
  exists b w',
    scan_directions w ds w0 = (Ok b, w')
    /\ if b
       then exists d pos,
              d ∈ ds /\ committed (w_puzzle w0) w pos d (w_puzzle w')
       else w_puzzle w' = w_puzzle w0.
Proof.
  induction ds as [|d rest IH]; intros w0 Hwf; simpl.
  - exists false, w0. split; reflexivity.
  - unfold get_puzzle. unfold bind at 1.
    destruct (shuffle_perm (_get_all_positions (w_puzzle w0)) w0)
      as (ps & w1 & Hsh & _ & Hp1).
    rewrite (bind_ok _ _ _ _ _ Hsh).
    assert (Hwf1 : grid_wf (w_puzzle w1)) by now rewrite Hp1.
    destruct (scan_positions_spec w d ps w1 Hwf1) as (b & w2 & Hrun & _ & Hpost).
    rewrite (bind_ok _ _ _ _ _ Hrun). destruct b.
    + exists true, w2. split; [reflexivity|].
      destruct Hpost as (pos & _ & Hc). exists d, pos.
      split; [now left | now rewrite <- Hp1].
    + destruct Hpost as [Hp2 _].
      assert (Hwf2 : grid_wf (w_puzzle w2)) by now rewrite Hp2.
      destruct (IH w2 Hwf2) as (b & w' & Hrun' & Hpost').
      exists b, w'. split; [assumption|]. destruct b.
      * destruct Hpost' as (d' & pos & Hd' & Hc). exists d', pos.
        split; [now right | now rewrite <- Hp1, <- Hp2].
      * congruence.
Qed.

(** [try_place_word] on a well-formed puzzle returns: the caller's list
    is a permutation of what it was, and the word is either committed
    with one of the listed directions or the puzzle is untouched. *)
Lemma try_place_word_spec w ds w0 :
  grid_wf (w_puzzle w0) ->
  exists b ds' w',
    try_place_word w ds w0 = (Ok (b, ds'), w')
    /\ ds' ≡ₚ ds
    /\ if b
       then exists d pos,
              d ∈ ds /\ committed (w_puzzle w0) w pos d (w_puzzle w')
       else w_puzzle w' = w_puzzle w0.
Proof.
  intros Hwf. unfold try_place_word.
  destruct (shuffle_perm ds w0) as (ds' & w1 & Hsh & Hperm & Hp1).
  rewrite (bind_ok _ _ _ _ _ Hsh).
  assert (Hwf1 : grid_wf (w_puzzle w1)) by now rewrite Hp1.
  destruct (scan_directions_spec w ds' w1 Hwf1) as (b & w' & Hrun & Hpost).
  rewrite (bind_ok _ _ _ _ _ Hrun).
  exists b, ds', w'. split_and!; auto. destruct b.
  - destruct Hpost as (d & pos & Hd & Hc). exists d, pos.
    split; [now rewrite <- Hperm | now rewrite <- Hp1].
  - congruence.
Qed.

(** [random.shuffle] can produce every order.  With [x] already agreeing
    with the target [y] beyond index [i] and holding the same elements
    up to it, suitable draws make the loop from [i] end in [y]. *)
Lemma shuffle_loop_reaches {A} (i : nat) : forall (x y : list A),
  (i < length x)%nat ->
  take (S i) x ≡ₚ take (S i) y ->
  drop (S i) x = drop (S i) y ->
  exists draws : list nat,
    length draws = i
    /\ forall p tape,
         shuffle_loop i x (mkWorld p (draws ++ tape))
         = (Ok y, mkWorld p tape).
Proof.
  induction i as [|i IH]; intros x y Hlen Htake Hdrop.
  - exists []. split; [reflexivity|]. intros p tape. cbn [shuffle_loop app].
    unfold ret. f_equal. f_equal.
    rewrite <- (take_drop 1 x), <- (take_drop 1 y), Hdrop. f_equal.
    destruct x as [|a x]; [simpl in Hlen; lia|].
    destruct y as [|b y]; [apply Permutation_nil_r in Htake; discriminate|].
    rewrite !firstn_cons, !take_0 in Htake.
    apply Permutation_singleton_r in Htake.
    rewrite !firstn_cons, !take_0. congruence.
  - assert (Hleny : (S i < length y)%nat).
    { apply Permutation_length in Htake. rewrite !length_take in Htake. lia. }
    destruct (lookup_lt_is_Some_2 y (S i) Hleny) as [a Hya].
    destruct (lookup_lt_is_Some_2 x (S i) Hlen) as [b Hxb].
    assert (Hin : a ∈ take (S (S i)) x).
    { rewrite Htake. apply (list_elem_of_lookup_2 _ (S i)).
      rewrite lookup_take_lt by lia. exact Hya. }
    apply list_elem_of_lookup_1 in Hin as [j Hj].
    assert (Hjlt : (j < S (S i))%nat).
    { apply lookup_lt_Some in Hj. rewrite length_take in Hj. lia. }
    rewrite lookup_take_lt in Hj by assumption.
    set (x' := swap x (S i) j).
    assert (Hx' : x' = <[j := b]> (<[S i := a]> x)).
    { unfold x', swap. now rewrite Hxb, Hj. }
    assert (Hx'i : x' !! S i = Some a).
    { rewrite Hx'. destruct (decide (j = S i)) as [->|Hne].
      - rewrite list_lookup_insert_eq by (rewrite length_insert; lia).
        congruence.
      - rewrite list_lookup_insert_ne by assumption.
        now rewrite list_lookup_insert_eq by lia. }
    assert (Hx'drop : drop (S (S i)) x' = drop (S (S i)) x).
    { rewrite Hx'. rewrite !drop_insert_lt by lia. reflexivity. }
    assert (Hx'len : length x' = length x).
    { rewrite Hx'. now rewrite !length_insert. }
    destruct (IH x' y) as (draws & Hdraws & Hrun).
    + lia.
    + assert (Hfull : take (S (S i)) x' ≡ₚ take (S (S i)) y).
      { rewrite <- Htake.
        apply (Permutation_app_inv_r (drop (S (S i)) x')).
        rewrite take_drop. rewrite Hx'drop, take_drop.
        apply swap_perm. }
      rewrite (take_S_r x' (S i) a Hx'i) in Hfull.
      rewrite (take_S_r y (S i) a Hya) in Hfull.
      now apply Permutation_app_inv_r in Hfull.
    + rewrite (drop_S x' a (S i) Hx'i), (drop_S y a (S i) Hya).
      now rewrite Hx'drop, Hdrop.
    + exists (j :: draws). split; [simpl; lia|]. intros p tape.
      cbn [shuffle_loop app]. unfold bind, randbelow. cbn [w_rng w_puzzle].
      rewrite Nat.mod_small by assumption.
      apply Hrun.
Qed.

Lemma shuffle_reaches {A} (x y : list A) :
  y ≡ₚ x ->
  exists draws : list nat,
    length draws = (length x - 1)%nat
    /\ forall p tape,
         shuffle x (mkWorld p (draws ++ tape)) = (Ok y, mkWorld p tape).
Proof.
  intros Hperm. unfold shuffle.
  destruct x as [|a x].
  - apply Permutation_nil_r in Hperm. subst y.
    exists []. split; reflexivity.
  - apply shuffle_loop_reaches.
    + simpl. lia.
    + pose proof (Permutation_length Hperm) as Hl.
      rewrite !take_ge by (simpl in *; lia). now symmetry.
    + pose proof (Permutation_length Hperm) as Hl.
      rewrite !drop_ge by (simpl in *; lia). reflexivity.
Qed.

(** C10.  The first thing [try_place_word] does is [random.shuffle] on
    the caller's [directions] list, and this never raises, whatever the
    puzzle: the list then holds a permutation [directions'] of its
    former content (no direction gained or lost), the search runs on
    that order, and a call that returns leaves exactly [directions'] in
    the list; on a well-formed puzzle the call does return.  The
    shuffle is a real one: every permutation of the list is the order
    that some draws leave, so the caller's list is in general
    reordered. *)
Theorem try_place_word_permutes_directions (w : Word)
    (directions : list Direction) (w0 : World) :
  (exists (directions' : list Direction) (w1 : World),
     shuffle directions w0 = (Ok directions', w1)
     /\ w_puzzle w1 = w_puzzle w0
     /\ directions' ≡ₚ directions
     /\ length directions' = length directions
     /\ (forall d, d ∈ directions' <-> d ∈ directions)
     /\ try_place_word w directions w0
        = (let* placed := scan_directions w directions' in
           ret (placed, directions')) w1
     /\ (forall placed ds w',
           try_place_word w directions w0 = (Ok (placed, ds), w') ->
           ds = directions')
     /\ (grid_wf (w_puzzle w0) ->
         exists (placed : bool) (w' : World),
           try_place_word w directions w0 = (Ok (placed, directions'), w')))
  /\ (forall target : list Direction,
        target ≡ₚ directions ->
        exists draws : list nat,
          length draws = (length directions - 1)%nat
          /\ forall tape,
               try_place_word w directions
                 (mkWorld (w_puzzle w0) (draws ++ tape))
               = (let* placed := scan_directions w target in
                  ret (placed, target)) (mkWorld (w_puzzle w0) tape)).
Proof.
  split.
  - destruct (shuffle_perm directions w0) as (ds' & w1 & Hsh & Hperm & Hp1).
    assert (Hrun : try_place_word w directions w0
                   = (let* placed := scan_directions w ds' in
                      ret (placed, ds')) w1).
    { unfold try_place_word. now rewrite (bind_ok _ _ _ _ _ Hsh). }
    exists ds', w1. split_and!; auto.
    + now apply Permutation_length.
    + intros d. now rewrite Hperm.
    + intros placed ds w' Hret. rewrite Hrun in Hret. unfold bind, ret in Hret.
      destruct (scan_directions w ds' w1) as [[b|e] w2]; congruence.
    + intros Hwf.
      destruct (scan_directions_spec w ds' w1) as (b & w' & Hscan & _);
        [now rewrite Hp1|].
      exists b, w'. rewrite Hrun. now rewrite (bind_ok _ _ _ _ _ Hscan).
  - intros target Hperm.
    destruct (shuffle_reaches directions target Hperm) as (draws & Hlen & Hsh).
    exists draws. split; [assumption|]. intros tape.
    unfold try_place_word.
    now rewrite (bind_ok _ _ _ _ _ (Hsh (w_puzzle w0) tape)).
Qed.

(* ------------------------------------------------------------------ *)
(** ** One attempt *)

(** Two duplicate-free lists of directions with the same members. *)
Ltac same_directions :=
  apply NoDup_Permutation;
  [ apply NoDup_ListNoDup; repeat constructor; simpl; intuition discriminate
  | apply NoDup_ListNoDup; repeat constructor; simpl; intuition discriminate
  | intros ?; rewrite !list_elem_of_In; simpl; intuition auto ].

(** Whatever the counts, the priority list holds each of the eight
    directions once. *)
Lemma priority_directions_perm b i :
  get_priority_directions b i ≡ₚ Directions.all.
Proof.
  destruct (get_priority_directions_cases b i) as (H1 & H2 & H3 & H4).
  destruct (Z.lt_ge_cases (counts b DIAGONAL) (total_words b / 3)) as [Hd|Hd].
  { rewrite (H1 Hd). same_directions. }
  destruct (Z.lt_ge_cases (counts b HORIZONTAL) (total_words b / 3)) as [Hh|Hh].
  { rewrite (H2 Hd Hh). same_directions. }
  destruct (Z.lt_ge_cases (counts b VERTICAL) (total_words b / 3)) as [Hv|Hv].
  { rewrite (H3 Hd Hh Hv). same_directions. }
  rewrite (H4 Hd Hh Hv).
  destruct (i mod 3 =? 0); [|destruct (i mod 3 =? 1)]; same_directions.
Qed.

(** The loop of [_attempt_placement] never raises and keeps the
    invariant; when it answers true it has appended one placement per
    word, in order, and the balancer that counted them passes the
    coverage test. *)
Lemma attempt_loop_spec ws : forall bal i w0,
  puzzle_inv (w_puzzle w0) ->
  exists b w',
    attempt_loop bal i ws w0 = (Ok b, w')
    /\ puzzle_inv (w_puzzle w')
    /\ grid_size (w_puzzle w') = grid_size (w_puzzle w0)
    /\ words (w_puzzle w') = words (w_puzzle w0)
    /\ (b = true ->
        exists new,
          placements (w_puzzle w') = placements (w_puzzle w0) ++ new
          /\ word <$> new = ws
          /\ has_sufficient_diagonal_coverage (tally bal new) float_0_2 = true).
Proof.
  induction ws as [|w rest IH]; intros bal i w0 Hinv; simpl.
  - eexists _, w0. split; [reflexivity|]. split_and!; auto.
    intros Hb. exists []. split_and!; auto. now rewrite app_nil_r.
  - destruct Hinv as [Hwf Hpls].
    destruct (try_place_word_spec w (get_priority_directions bal i) w0 Hwf)
      as (b0 & ds' & w1 & Hrun & _ & Hpost).
    rewrite (bind_ok _ _ _ _ _ Hrun). cbn [fst]. destruct b0.
    + destruct Hpost as (d & pos & Hd & Hc).
      assert (Hall : d ∈ Directions.all)
        by now rewrite <- (priority_directions_perm bal i).
      pose proof (committed_inv _ _ _ _ _ (conj Hwf Hpls) Hall Hc) as Hinv1.
      destruct (committed_spec _ _ _ _ _ Hwf Hc)
        as (Hgs & Hws & Hpl1 & _).
      unfold get_puzzle, lift_res. unfold bind at 1. unfold bind at 1.
      unfold list_last. rewrite Hpl1, last_snoc. simpl direction.
      destruct (IH (increment bal d) (i + 1) w1 Hinv1)
        as (b & w' & Hrun' & Hinv' & Hgs' & Hws' & Hpost').
      exists b, w'. split_and!; try congruence; auto.
      intros Hb. destruct (Hpost' Hb) as (new & Hnew & Hwords & Hgate).
      exists (WordPlacement_new w pos d :: new). split_and!.
      * rewrite Hnew, Hpl1. now rewrite <- app_assoc.
      * rewrite fmap_cons. now rewrite Hwords.
      * exact Hgate.
    + exists false, w1. rewrite Hpost.
      split_and!; auto; try discriminate. now split.
Qed.

Lemma reset_inv p : puzzle_inv (reset p).
Proof. split; [apply reset_wf | constructor]. Qed.

(** One attempt never raises.  It keeps the size and the word list of
    the puzzle; when it answers true the placements are one per word of
    a permutation of the sorted words, and their tally passes the
    coverage test. *)
Lemma attempt_spec sorted_words w0 :
  exists b w',
    attempt sorted_words w0 = (Ok b, w')
    /\ puzzle_inv (w_puzzle w')
    /\ grid_size (w_puzzle w') = grid_size (w_puzzle w0)
    /\ words (w_puzzle w') = words (w_puzzle w0)
    /\ (b = true ->
        word <$> placements (w_puzzle w') ≡ₚ sorted_words
        /\ has_sufficient_diagonal_coverage
             (tally (DirectionBalancer_new (Z.of_nat (length sorted_words)))
                    (placements (w_puzzle w')))
             float_0_2 = true).
Proof.
  unfold attempt, lift_puzzle, modify. unfold bind at 1. simpl.
  destruct (shuffle_perm sorted_words (mkWorld (reset (w_puzzle w0)) (w_rng w0)))
    as (ws & w1 & Hsh & Hperm & Hp1).
  rewrite (bind_ok _ _ _ _ _ Hsh). simpl in Hp1.
  assert (Hinv1 : puzzle_inv (w_puzzle w1)) by (rewrite Hp1; apply reset_inv).
  destruct (attempt_loop_spec ws
              (DirectionBalancer_new (Z.of_nat (length ws))) 0 w1 Hinv1)
    as (b & w' & Hrun & Hinv' & Hgs & Hws & Hpost).
  exists b, w'. unfold _attempt_placement.
  split_and!; auto.
  - rewrite Hgs, Hp1. reflexivity.
  - rewrite Hws, Hp1. reflexivity.
  - intros Hb. destruct (Hpost Hb) as (new & Hnew & Hwords & Hgate).
    rewrite Hp1 in Hnew. simpl in Hnew. rewrite Hnew.
    split; [now rewrite Hwords|].
    now rewrite <- (Permutation_length Hperm).
Qed.

(** Each attempt starts from a full reset: what the puzzle held before
    (grid and placements) has no influence on it. *)
Lemma attempt_from_reset sorted_words w0 :
  attempt sorted_words w0
  = attempt sorted_words (mkWorld (reset (w_puzzle w0)) (w_rng w0)).
Proof. reflexivity. Qed.

(* ------------------------------------------------------------------ *)
(** ** Filling the empty cells *)

(** A loop whose body keeps an invariant [I], moves the state along a
    preorder [R] and leaves [D x] established for the element it
    handled, [D] being stable along [R]. *)
Lemma for_each_inv {S A} (I : S -> Prop) (R : S -> S -> Prop)
    (D : A -> S -> Prop) (body : A -> M S unit) (xs : list A) :
  (forall s, R s s) ->
  (forall s1 s2 s3, R s1 s2 -> R s2 s3 -> R s1 s3) ->
  (forall x s1 s2, D x s1 -> R s1 s2 -> D x s2) ->
  (forall x s1, x ∈ xs -> I s1 ->
     exists s2, body x s1 = (Ok tt, s2) /\ I s2 /\ R s1 s2 /\ D x s2) ->
  forall s, I s ->
    exists s', for_each xs body s = (Ok tt, s')
               /\ I s' /\ R s s' /\ forall x, x ∈ xs -> D x s'.
Proof.
  intros Hrefl Htrans Hstable. induction xs as [|x rest IH]; intros Hbody s Hs.
  - exists s. split_and!; auto. intros x Hx. inversion Hx.
  - destruct (Hbody x s) as (s1 & Hrun & Hs1 & HR1 & HD1); [now left|auto|].
    destruct IH with (s := s1) as (s' & Hrun' & Hs' & HR' & HD'); auto.
    { intros y s2 Hy. apply Hbody. now right. }
    exists s'. split_and!; eauto.
    + simpl. now rewrite (bind_ok _ _ _ _ _ Hrun).
    + intros y Hy. apply elem_of_cons in Hy as [->|Hy]; eauto.
Qed.

Lemma filled_from_refl p : filled_from p p.
Proof.
  split_and!; auto. intros q cell _ Hc. case_bool_decide; subst; auto.
Qed.

Lemma uppercase_letter_nonempty s : uppercase_letter s -> s <> EmptyString.
Proof. intros (c & -> & _). discriminate. Qed.

Lemma filled_from_valid p p' q :
  filled_from p p' -> is_valid_position p' q = is_valid_position p q.
Proof.
  intros (Hgs & _). unfold is_valid_position. now rewrite Hgs.
Qed.

Lemma filled_from_trans p1 p2 p3 :
  filled_from p1 p2 -> filled_from p2 p3 -> filled_from p1 p3.
Proof.
  intros H12 H23.
  destruct H12 as (Hgs1 & Hws1 & Hpl1 & Hc1).
  destruct H23 as (Hgs2 & Hws2 & Hpl2 & Hc2).
  split_and!; try congruence.
  intros q cell Hv Hcell. specialize (Hc1 q cell Hv Hcell).
  assert (Hv2 : is_valid_position p2 q = true)
    by (unfold is_valid_position in *; now rewrite Hgs1).
  case_bool_decide as Hempty.
  - destruct Hc1 as [Hc1 | (letter & Hl & Hc1)].
    + specialize (Hc2 q _ Hv2 Hc1).
      now rewrite bool_decide_eq_true_2 in Hc2.
    + specialize (Hc2 q _ Hv2 Hc1).
      rewrite bool_decide_eq_false_2 in Hc2
        by now apply uppercase_letter_nonempty.
      right. eauto.
  - specialize (Hc2 q _ Hv2 Hc1).
    now rewrite bool_decide_eq_false_2 in Hc2.
Qed.

Lemma cell_filled_stable p p' q :
  cell_filled p q -> filled_from p p' -> cell_filled p' q.
Proof.
  intros [Hv (cell & Hc & Hne)] Hf. split.
  - now rewrite (filled_from_valid _ _ _ Hf).
  - destruct Hf as (_ & _ & _ & Hcells). specialize (Hcells q cell Hv Hc).
    rewrite bool_decide_eq_false_2 in Hcells by assumption. eauto.
Qed.

Lemma choice_uppercase w :
  exists letter w',
    choice ascii_uppercase w = (Ok letter, w')
    /\ uppercase_letter letter /\ w_puzzle w' = w_puzzle w.
Proof.
  unfold choice.
  destruct (randbelow_ok (String.length ascii_uppercase) w)
    as (j & w1 & Hr & Hp).
  assert (Hj : (j < 26)%nat) by (eapply (randbelow_lt 26); [lia | exact Hr]).
  assert (Hl : exists letter,
             str_index ascii_uppercase j = Ok letter /\ uppercase_letter letter).
  { do 26 (destruct j as [|j];
           [eexists; split;
              [reflexivity | eexists; split; [reflexivity | vm_compute; lia]] |]).
    lia. }
  destruct Hl as (letter & Hidx & Hup).
  exists letter, w1. split_and!; auto.
  rewrite (bind_ok _ _ _ _ _ Hr). unfold lift_res. now rewrite Hidx.
Qed.

Lemma fill_cell_spec pos w0 :
  grid_wf (w_puzzle w0) -> is_valid_position (w_puzzle w0) pos = true ->
  exists w',
    fill_cell pos w0 = (Ok tt, w')
    /\ grid_wf (w_puzzle w')
    /\ filled_from (w_puzzle w0) (w_puzzle w')
    /\ cell_filled (w_puzzle w') pos.
Proof.
  intros Hwf Hv. unfold fill_cell, get_puzzle, lift_res.
  unfold bind at 1. unfold bind at 1.
  destruct (get_cell_valid _ _ Hwf Hv) as (c & -> & Hat).
  case_bool_decide as Hc.
  - subst c.
    destruct (choice_uppercase w0) as (letter & w1 & Hch & Hup & Hp1).
    rewrite (bind_ok _ _ _ _ _ Hch).
    assert (Hwf1 : grid_wf (w_puzzle w1)) by now rewrite Hp1.
    assert (Hv1 : is_valid_position (w_puzzle w1) pos = true) by now rewrite Hp1.
    destruct (set_cell_valid _ pos letter Hwf1 Hv1)
      as (p' & Hset & Hgs & Hws & Hpls & Hwf' & Hnew & Hframe).
    rewrite (lift_puzzle_ok _ _ _ _ Hset).
    eexists. split; [reflexivity|]. simpl. rewrite Hp1 in *.
    split_and!; auto.
    + split_and!; auto. intros q cell Hq Hcell.
      destruct (decide (q = pos)) as [->|Hne].
      * rewrite Hat in Hcell. inversion Hcell; subst.
        rewrite bool_decide_eq_true_2 by reflexivity. right. eauto.
      * rewrite (Hframe q Hq Hne), Hcell. case_bool_decide; subst; auto.
    + split.
      * unfold is_valid_position in *. now rewrite Hgs.
      * exists letter. split; [assumption|].
        now apply uppercase_letter_nonempty.
  - exists w0. split_and!; auto.
    + apply filled_from_refl.
    + split; eauto.
Qed.

Lemma fill_empty_cells_spec w0 :
  grid_wf (w_puzzle w0) ->
  exists w',
    fill_empty_cells w0 = (Ok tt, w')
    /\ grid_wf (w_puzzle w')
    /\ filled_from (w_puzzle w0) (w_puzzle w')
    /\ forall q, is_valid_position (w_puzzle w0) q = true ->
                 cell_filled (w_puzzle w') q.
Proof.
  intros Hwf. unfold fill_empty_cells, get_puzzle. unfold bind at 1.
  set (gs := grid_size (w_puzzle w0)).
  pose (I := fun w : World =>
               grid_wf (w_puzzle w) /\ grid_size (w_puzzle w) = gs).
  pose (R := fun w w' : World => filled_from (w_puzzle w) (w_puzzle w')).
  assert (HRrefl : forall w, R w w) by (intros w; apply filled_from_refl).
  assert (HRtrans : forall w1 w2 w3, R w1 w2 -> R w2 w3 -> R w1 w3)
    by (intros w1 w2 w3; apply filled_from_trans).
  destruct (for_each_inv I R
              (fun r w => forall c, c ∈ seqZ 0 gs ->
                                    cell_filled (w_puzzle w) (mkPosition r c))
              (fun r => for_each (seqZ 0 gs)
                          (fun c => fill_cell (mkPosition r c)))
              (seqZ 0 gs) HRrefl HRtrans) with (s := w0)
    as (w' & Hrun & [Hwf' Hgs'] & HR & HD).
  - intros r w1 w2 HD1 HR12 c Hc. eapply cell_filled_stable; eauto.
  - intros r w1 Hr [Hwf1 Hgs1].
    apply (for_each_inv I R
             (fun c w => cell_filled (w_puzzle w) (mkPosition r c))
             (fun c => fill_cell (mkPosition r c))
             (seqZ 0 gs) HRrefl HRtrans).
    + intros c w2 w3 HD2 HR23. eapply cell_filled_stable; eauto.
    + intros c w2 Hc [Hwf2 Hgs2].
      destruct (fill_cell_spec (mkPosition r c) w2 Hwf2)
        as (w3 & Hrun3 & Hwf3 & Hf3 & Hfilled).
      { apply valid_position_bounds. simpl.
        apply elem_of_seqZ in Hr, Hc. lia. }
      exists w3. split_and!; auto.
      split; [assumption|]. destruct Hf3 as (Hgs3 & _). congruence.
    + split; assumption.
  - split; [assumption | reflexivity].
  - exists w'. split_and!; auto.
    intros q Hq. apply valid_position_bounds in Hq. fold gs in Hq.
    destruct q as [r c]. simpl in Hq.
    apply HD; apply elem_of_seqZ; lia.
Qed.

(** After the fill no cell of a well-formed grid is the sentinel. *)
Lemma all_cells_filled_no_sentinel p :
  grid_wf p ->
  (forall q, is_valid_position p q = true -> cell_filled p q) ->
  Forall (Forall (fun cell => cell <> EmptyString)) (grid p).
Proof.
  intros [Hlen Hrows] Hall.
  apply Forall_lookup. intros r line Hline.
  apply Forall_lookup. intros c cell Hcell.
  rewrite Forall_lookup in Hrows. pose proof (Hrows _ _ Hline) as Hll.
  apply lookup_lt_Some in Hline as Hr. apply lookup_lt_Some in Hcell as Hc.
  destruct (Hall (mkPosition (Z.of_nat r) (Z.of_nat c)))
    as [_ (cell' & Hat & Hne)].
  { apply valid_position_bounds. simpl. lia. }
  unfold grid_at in Hat. simpl in Hat.
  rewrite !Nat2Z.id, Hline, Hcell in Hat. congruence.
Qed.

Lemma filled_from_inv p p' :
  puzzle_inv p -> filled_from p p' -> grid_wf p' -> puzzle_inv p'.
Proof.
  intros [_ Hpls] Hf Hwf'. split; [assumption|].
  pose proof Hf as (Hgs & _ & Hpl & Hcells). rewrite Hpl.
  eapply Forall_impl; [exact Hpls|].
  intros pl (Hpos & Hdir & Hc). split_and!; auto.
  intros i c Hi. destruct (Hc i c Hi) as [Hv Hat]. split.
  - now rewrite (filled_from_valid _ _ _ Hf).
  - specialize (Hcells _ _ Hv Hat).
    now rewrite bool_decide_eq_false_2 in Hcells by discriminate.
Qed.

(* ------------------------------------------------------------------ *)
(** ** The retry loop of [generate] *)

Lemma insert_by_len_perm w sorted : insert_by_len w sorted ≡ₚ w :: sorted.
Proof.
  induction sorted as [|x rest IH]; simpl; [reflexivity|].
  destruct (_ <? _)%nat; [reflexivity|].
  rewrite IH. apply perm_swap.
Qed.

Lemma sorted_by_len_desc_perm ws : sorted_by_len_desc ws ≡ₚ ws.
Proof.
  unfold sorted_by_len_desc. rewrite <- (reverse_Permutation ws) at 2.
  induction (reverse ws) as [|w rest IH]; simpl; [reflexivity|].
  now rewrite insert_by_len_perm, IH.
Qed.

(** The loop makes [k] failed attempts, [k] at most the iterations it
    was given, and then either accepts attempt [k + 1] and fills its
    grid, or has run out of iterations. *)
Lemma generate_loop_spec (n : nat) sorted_words : forall w0,
  exists (k : nat) (b : bool) (w' : World),
    generate_loop n sorted_words w0 = (Ok b, w')
    /\ (k <= n)%nat
    /\ (forall i : nat, (i < k)%nat ->
          fst (attempt sorted_words (after_attempts sorted_words i w0))
          = Ok false)
    /\ if b
       then (k < n)%nat
            /\ exists wk,
                 attempt sorted_words (after_attempts sorted_words k w0)
                 = (Ok true, wk)
                 /\ fill_empty_cells wk = (Ok tt, w')
       else k = n /\ w' = after_attempts sorted_words n w0.
Proof.
  induction n as [|n IH]; intros w0; simpl.
  - exists 0%nat, false, w0. split_and!; auto. intros i Hi. lia.
  - destruct (attempt_spec sorted_words w0)
      as (b0 & w1 & Hrun & [Hwf1 _] & _).
    rewrite (bind_ok _ _ _ _ _ Hrun). destruct b0.
    + destruct (fill_empty_cells_spec w1 Hwf1) as (w2 & Hfill & _).
      exists 0%nat, true, w2. split_and!; try lia.
      * now rewrite (bind_ok _ _ _ _ _ Hfill).
      * simpl. eauto.
    + destruct (IH w1) as (k & b & w' & Hloop & Hk & Hfailed & Hpost).
      exists (S k), b, w'. split_and!; auto; try lia.
      * intros [|i] Hi; simpl; rewrite Hrun; [reflexivity|].
        apply Hfailed. lia.
      * simpl. rewrite Hrun. simpl.
        destruct b; [|destruct Hpost; split; congruence].
        destruct Hpost as [Hlt Hex]. split; [lia | exact Hex].
Qed.

(** What an accepted run of [generate] leaves in the puzzle. *)
Lemma generate_accepted max_attempts w0 w' :
  generate max_attempts w0 = (Ok true, w') ->
  puzzle_inv (w_puzzle w')
  /\ grid_size (w_puzzle w') = grid_size (w_puzzle w0)
  /\ words (w_puzzle w') = words (w_puzzle w0)
  /\ word <$> placements (w_puzzle w') ≡ₚ words (w_puzzle w0)
  /\ has_sufficient_diagonal_coverage
       (tally (DirectionBalancer_new
                 (Z.of_nat (length (words (w_puzzle w0)))))
              (placements (w_puzzle w')))
       float_0_2 = true
  /\ no_sentinel (w_puzzle w').
Proof.
  unfold generate, get_puzzle. unfold bind at 1.
  set (sw := sorted_by_len_desc (words (w_puzzle w0))).
  intros Hgen.
  destruct (generate_loop_spec (Z.to_nat max_attempts) sw w0)
    as (k & b & w1 & Hloop & _ & _ & Hpost).
  rewrite Hgen in Hloop. inversion Hloop; subst b w1. clear Hloop.
  destruct Hpost as (_ & wk & Hatt & Hfill).
  destruct (attempt_spec sw (after_attempts sw k w0))
    as (b & wk' & Hatt' & Hinv & Hgs & Hws & Hacc).
  rewrite Hatt in Hatt'. inversion Hatt'; subst b wk'. clear Hatt'.
  destruct (Hacc eq_refl) as [Hperm Hgate].
  assert (Hframe : forall j w,
            grid_size (w_puzzle (after_attempts sw j w)) = grid_size (w_puzzle w)
            /\ words (w_puzzle (after_attempts sw j w)) = words (w_puzzle w)).
  { induction j as [|j IHj]; intros w; simpl; [auto|].
    destruct (attempt_spec sw w) as (b & w2 & Hr & _ & Hg & Hw & _).
    rewrite Hr. simpl. destruct (IHj w2). split; congruence. }
  destruct (Hframe k w0) as [Hgsk Hwsk].
  destruct (fill_empty_cells_spec wk (proj1 Hinv))
    as (w2 & Hfill' & Hwf' & Hfrom & Hfilled).
  rewrite Hfill in Hfill'. inversion Hfill'; subst w2. clear Hfill'.
  pose proof Hfrom as (Hgs' & Hws' & Hpl' & _).
  split_and!; try congruence.
  - eapply filled_from_inv; eauto.
  - rewrite Hpl', Hperm. apply sorted_by_len_desc_perm.
  - rewrite Hpl'.
    rewrite <- (Permutation_length (sorted_by_len_desc_perm
                                      (words (w_puzzle w0)))).
    exact Hgate.
  - apply all_cells_filled_no_sentinel; [assumption|].
    intros q Hq. apply Hfilled.
    now rewrite <- (filled_from_valid _ _ _ Hfrom).
Qed.

(* ------------------------------------------------------------------ *)
(** ** The coverage test in binary64 *)

(** The comparison of an integer with a double is monotone in the
    integer. *)
Lemma int_ge_float_mono d d' f :
  d <= d' -> int_ge_float d f = true -> int_ge_float d' f = true.
Proof.
  intros Hd. destruct f as [s|s| |s m e]; simpl; auto.
  - rewrite !Z.leb_le. lia.
  - set (v := if s then Z.neg m else Z.pos m).
    destruct (0 <=? e) eqn:He; rewrite !Z.leb_le; intros H.
    + lia.
    + apply Z.leb_gt in He.
      assert (0 < 2 ^ (- e)) by (apply Z.pow_pos_nonneg; lia). nia.
Qed.

(** *** Bit lengths *)

Lemma digits2_pos_log2 p : Z.pos (digits2_pos p) = Z.log2 (Z.pos p) + 1.
Proof.
  induction p as [p IH|p IH|]; simpl digits2_pos.
  - rewrite Pos2Z.inj_succ, IH.
    change (Z.pos p~1) with (2 * Z.pos p + 1).
    rewrite Z.log2_succ_double by lia. lia.
  - rewrite Pos2Z.inj_succ, IH.
    change (Z.pos p~0) with (2 * Z.pos p).
    rewrite Z.log2_double by lia. lia.
  - reflexivity.
Qed.

Lemma digits2_pos_bounds p :
  2 ^ (Z.pos (digits2_pos p) - 1) <= Z.pos p < 2 ^ Z.pos (digits2_pos p).
Proof.
  rewrite digits2_pos_log2.
  pose proof (Z.log2_spec (Z.pos p) ltac:(lia)) as H.
  replace (Z.log2 (Z.pos p) + 1 - 1) with (Z.log2 (Z.pos p)) by lia.
  replace (Z.log2 (Z.pos p) + 1) with (Z.succ (Z.log2 (Z.pos p))) by lia.
  exact H.
Qed.

Lemma digits2_pos_unique p d :
  2 ^ (d - 1) <= Z.pos p < 2 ^ d -> Z.pos (digits2_pos p) = d.
Proof.
  intros H. rewrite digits2_pos_log2.
  assert (0 < d).
  { destruct (Z.lt_ge_cases 0 d) as [|Hd]; [assumption|].
    destruct H as [_ H]. destruct (Z.eq_dec d 0) as [->|].
    - simpl in H. lia.
    - rewrite Z.pow_neg_r in H by lia. lia. }
  assert (Z.log2 (Z.pos p) = d - 1); [|lia].
  apply Z.log2_unique; [lia|]. replace (Z.succ (d - 1)) with d by lia. exact H.
Qed.

(** *** Shifting right and rounding *)

Lemma shr_inv_start m0 :
  0 <= m0 -> shr_inv m0 0 (Build_shr_record m0 false false).
Proof.
  intros H. split; [assumption|]. exists 0. simpl.
  split_and!; try lia.
Qed.

Lemma shr_1_inv m0 j x :
  0 <= j -> shr_inv m0 j x -> shr_inv m0 (j + 1) (shr_1 x).
Proof.
  intros Hj [Hm (t & Ht & Heq & Hs)].
  assert (Ha : 0 < 2 ^ j) by (apply Z.pow_pos_nonneg; lia).
  assert (H1 : 2 ^ (j + 1) = 2 * 2 ^ j) by (rewrite Z.pow_add_r; lia).
  assert (H2 : 2 ^ (j + 1 + 1) = 4 * 2 ^ j)
    by (rewrite !Z.pow_add_r; lia).
  destruct x as [m r s]. simpl in *.
  assert (Hs' : orb r s = true <-> (if r then 2 ^ j else 0) + t <> 0).
  { destruct r; simpl; [split; [intros _; lia | reflexivity]|].
    rewrite Hs. lia. }
  destruct m as [|[p|p|]|p]; try lia;
    (split; [simpl; lia|]; exists ((if r then 2 ^ j else 0) + t);
     cbn [shr_1 shr_m shr_r shr_s]; rewrite H1, H2 in *;
     split_and!; auto; destruct r; lia).
Qed.

Lemma iter_pos_shr_1_inv m0 p : forall j x,
  0 <= j -> shr_inv m0 j x ->
  shr_inv m0 (j + Z.pos p) (SpecFloat.iter_pos shr_1 p x).
Proof.
  induction p as [p IH|p IH|]; intros j x Hj Hx; simpl.
  - replace (j + Z.pos p~1) with (j + 1 + Z.pos p + Z.pos p) by lia.
    apply IH; [lia|]. apply IH; [lia|]. now apply shr_1_inv.
  - replace (j + Z.pos p~0) with (j + Z.pos p + Z.pos p) by lia.
    apply IH; [lia|]. now apply IH.
  - now apply shr_1_inv.
Qed.

(** Rounding to nearest moves by at most half a unit of the kept bits. *)
Lemma round_nearest_even_close m0 j x :
  0 <= j -> shr_inv m0 j x ->
  let m' := round_nearest_even (shr_m x) (loc_of_shr_record x) in
  shr_m x <= m' <= shr_m x + 1
  /\ 2 * m' * 2 ^ j - 2 ^ j <= 2 * m0 <= 2 * m' * 2 ^ j + 2 ^ j.
Proof.
  intros Hj [Hm (t & Ht & Heq & Hs)].
  assert (Ha : 0 < 2 ^ j) by (apply Z.pow_pos_nonneg; lia).
  assert (H1 : 2 ^ (j + 1) = 2 * 2 ^ j) by (rewrite Z.pow_add_r; lia).
  rewrite H1 in Heq.
  destruct x as [m r s]. simpl in *.
  destruct r, s; simpl.
  - assert (t <> 0) by now apply Hs. nia.
  - destruct (Z.even m); nia.
  - nia.
  - nia.
Qed.

Lemma fexp_normal d e :
  -1074 <= d + e - 53 -> fexp prec emax (d + e) - e = d - 53.
Proof. unfold fexp, emin, prec, emax. lia. Qed.

(** A 53-bit mantissa in the normal range is kept as it is. *)
Lemma binary_round_aux_53 (m : positive) (e : Z) :
  Z.pos (digits2_pos m) = 53 -> -1074 <= e <= 971 ->
  binary_round_aux prec emax false (Z.pos m) e loc_Exact
  = S754_finite false m e.
Proof.
  intros Hd He.
  assert (Hshift : fexp prec emax (Zdigits2 (Z.pos m) + e) - e = 0)
    by (simpl Zdigits2; rewrite Hd, fexp_normal; lia).
  unfold binary_round_aux, shr_fexp. rewrite Hshift.
  cbn [shr shr_record_of_loc shr_m loc_of_shr_record round_nearest_even].
  rewrite Hshift. cbn [shr shr_record_of_loc shr_m].
  unfold prec, emax. destruct (Z.leb_spec e (1024 - 53)); [reflexivity | lia].
Qed.

(** A longer exact mantissa is shifted down to 53 bits and rounded to
    nearest: the result stands for [m' * 2 ^ (e + s)], [s] the number of
    bits dropped, with [m'] within half a unit of [P / 2 ^ s]. *)
Lemma binary_round_aux_shift (P : positive) (e : Z) :
  let s := Z.pos (digits2_pos P) - 53 in
  0 < s -> -1074 <= e + s -> e + s + 1 <= 971 ->
  exists (m'' : positive) (e'' : Z) (m' : Z),
    binary_round_aux prec emax false (Z.pos P) e loc_Exact
    = S754_finite false m'' e''
    /\ e + s <= e'' <= e + s + 1
    /\ Z.pos m'' * 2 ^ (e'' - e) = m' * 2 ^ s
    /\ 2 * m' * 2 ^ s - 2 ^ s <= 2 * Z.pos P <= 2 * m' * 2 ^ s + 2 ^ s.
Proof.
  intros s Hs Hlo Hhi.
  pose proof (digits2_pos_bounds P) as HP.
  set (d := Z.pos (digits2_pos P)) in *.
  assert (Hshift : fexp prec emax (Zdigits2 (Z.pos P) + e) - e = s)
    by (simpl Zdigits2; fold d; rewrite fexp_normal; unfold s; lia).
  unfold binary_round_aux, shr_fexp. rewrite Hshift.
  destruct s as [|ps|ps] eqn:Hps; try lia.
  cbn [shr shr_record_of_loc].
  pose proof (iter_pos_shr_1_inv (Z.pos P) ps 0
                (Build_shr_record (Z.pos P) false false) ltac:(lia)
                (shr_inv_start (Z.pos P) ltac:(lia))) as Hinv.
  rewrite Z.add_0_l in Hinv.
  set (x1 := SpecFloat.iter_pos shr_1 ps _) in *.
  pose proof (round_nearest_even_close (Z.pos P) (Z.pos ps) x1 ltac:(lia) Hinv) as [Hm' Hclose].
  set (m' := round_nearest_even (shr_m x1) (loc_of_shr_record x1)) in *.
  (* the quotient has 53 bits *)
  assert (Ha : 0 < 2 ^ Z.pos ps) by (apply Z.pow_pos_nonneg; lia).
  assert (Hd : 2 ^ d = 2 ^ 53 * 2 ^ Z.pos ps)
    by (rewrite <- Z.pow_add_r by lia; f_equal; lia).
  assert (Hd1 : 2 ^ (d - 1) = 2 ^ 52 * 2 ^ Z.pos ps)
    by (rewrite <- Z.pow_add_r by lia; f_equal; lia).
  destruct Hinv as [Hm1 (t & Ht & Heq & _)].
  assert (H1 : 2 ^ (Z.pos ps + 1) = 2 * 2 ^ Z.pos ps)
    by (rewrite Z.pow_add_r; lia).
  rewrite H1 in Heq. rewrite Hd, Hd1 in HP.
  assert (Hq : 2 ^ 52 <= shr_m x1 < 2 ^ 53).
  { destruct (shr_r x1); nia. }
  assert (Hm'b : 2 ^ 52 <= m' <= 2 ^ 53) by lia.
  destruct m' as [|pm|pm] eqn:Hpm; try lia.
  destruct (Z.eq_dec (Z.pos pm) (2 ^ 53)) as [Htop|Hntop].
  - (* rounding carried into a 54th bit: one more exact shift *)
    assert (pm = 9007199254740992%positive) by (apply Pos2Z.inj; exact Htop).
    subst pm. exists 4503599627370496%positive, (e + Z.pos ps + 1), (2 ^ 53).
    split_and!; try lia.
    + replace (fexp prec emax (Zdigits2 9007199254740992 + (e + Z.pos ps))
               - (e + Z.pos ps)) with 1
        by (change (Zdigits2 9007199254740992) with 54;
            rewrite fexp_normal; lia).
      cbn [shr SpecFloat.iter_pos shr_1 shr_m].
      unfold prec, emax.
      destruct (Z.leb_spec (e + Z.pos ps + 1) (1024 - 53)); [reflexivity|lia].
    + replace (e + Z.pos ps + 1 - e) with (Z.pos ps + 1) by lia.
      rewrite H1. change (2 ^ 53) with (2 * 4503599627370496). lia.
  - exists pm, (e + Z.pos ps), (Z.pos pm).
    assert (Hdm : Z.pos (digits2_pos pm) = 53)
      by (apply digits2_pos_unique; change (53 - 1) with 52; lia).
    split_and!; try lia.
    + assert (Hshift2 : fexp prec emax (Zdigits2 (Z.pos pm) + (e + Z.pos ps))
                        - (e + Z.pos ps) = 0)
        by (simpl Zdigits2; rewrite Hdm, fexp_normal; lia).
      rewrite Hshift2. cbn [shr shr_record_of_loc shr_m].
      unfold prec, emax.
      destruct (Z.leb_spec (e + Z.pos ps) (1024 - 53)); [reflexivity | lia].
    + f_equal. f_equal. lia.
Qed.

(** *** The product [n * 0.2] *)

Lemma pos_iter_xO p dd : Z.pos (Pos.iter xO p dd) = Z.pos p * 2 ^ Z.pos dd.
Proof.
  induction dd as [|dd IH] using Pos.peano_ind.
  - simpl. lia.
  - rewrite Pos.iter_succ, Pos2Z.inj_succ, Z.pow_succ_r by lia.
    change (Z.pos (Pos.iter xO p dd)~0) with (2 * Z.pos (Pos.iter xO p dd)).
    rewrite IH. lia.
Qed.

(** An integer below [2^53] converts exactly, to a 53-bit mantissa. *)
Lemma float_of_int_normal (p : positive) :
  Z.pos p < 2 ^ 53 ->
  exists mz : positive,
    float_of_int (Z.pos p)
    = S754_finite false mz (Z.pos (digits2_pos p) - 53)
    /\ Z.pos mz = Z.pos p * 2 ^ (53 - Z.pos (digits2_pos p))
    /\ 2 ^ 52 <= Z.pos mz < 2 ^ 53.
Proof.
  intros Hp. pose proof (digits2_pos_bounds p) as Hb.
  set (d := Z.pos (digits2_pos p)) in *.
  assert (Hd : 1 <= d <= 53).
  { split; [unfold d; lia|].
    destruct (Z.le_gt_cases d 53) as [|Hgt]; [assumption|].
    assert (2 ^ 53 <= 2 ^ (d - 1)) by (apply Z.pow_le_mono_r; lia). lia. }
  unfold float_of_int, binary_normalize, binary_round.
  replace (fexp prec emax (Z.pos (digits2_pos p) + 0)) with (d - 53)
    by (unfold fexp, emin, prec, emax; fold d; lia).
  unfold shl_align.
  destruct (d - 53 - 0) as [|dd|dd] eqn:Hdd; try lia.
  - assert (d = 53) by lia.
    exists p. replace (d - 53) with 0 by lia.
    replace (53 - d) with 0 by lia. rewrite Z.mul_1_r.
    split_and!; try lia.
    + apply binary_round_aux_53; [fold d; lia | lia].
    + replace 52 with (d - 1) by lia. lia.
  - exists (Pos.iter xO p dd).
    assert (Hmz : Z.pos (Pos.iter xO p dd) = Z.pos p * 2 ^ (53 - d))
      by (rewrite pos_iter_xO; f_equal; f_equal; lia).
    assert (Ha : 0 < 2 ^ (53 - d)) by (apply Z.pow_pos_nonneg; lia).
    assert (H53 : 2 ^ 53 = 2 ^ d * 2 ^ (53 - d))
      by (rewrite <- Z.pow_add_r by lia; f_equal; lia).
    assert (H52 : 2 ^ 52 = 2 ^ (d - 1) * 2 ^ (53 - d))
      by (rewrite <- Z.pow_add_r by lia; f_equal; lia).
    assert (Hrange : 2 ^ 52 <= Z.pos (Pos.iter xO p dd) < 2 ^ 53)
      by (rewrite Hmz, H53, H52; nia).
    split_and!; try lia.
    apply binary_round_aux_53; [|lia].
    apply digits2_pos_unique. change (53 - 1) with 52. lia.
Qed.

Lemma int_ge_float_finite_neg d (m : positive) (e x : Z) :
  e < 0 -> 0 <= x ->
  int_ge_float d (S754_finite false m e) = true
  <-> Z.pos m * 2 ^ x <= d * 2 ^ (x - e).
Proof.
  intros He Hx. simpl.
  destruct (Z.leb_spec 0 e); [lia|].
  rewrite Z.leb_le.
  assert (Ha : 0 < 2 ^ x) by (apply Z.pow_pos_nonneg; lia).
  replace (x - e) with (- e + x) by lia. rewrite Z.pow_add_r by lia.
  nia.
Qed.

Lemma ceil_fifth_bounds n : 5 * ceil_fifth n - 4 <= n <= 5 * ceil_fifth n.
Proof.
  unfold ceil_fifth.
  pose proof (Z.div_mod (n + 4) 5 ltac:(lia)).
  pose proof (Z.mod_pos_bound (n + 4) 5 ltac:(lia)). lia.
Qed.

(** With [5 * 0x1999999999999A = 2^55 + 2], the rounded product lies
    strictly above [ceil(0.2 * n) - 1] and not above [ceil(0.2 * n)]. *)
Lemma gate_ok_pos (p : positive) :
  Z.pos p < 2 ^ 53 -> gate_ok (Z.pos p) = true.
Proof.
  intros Hp.
  destruct (float_of_int_normal p Hp) as (mz & Hf & Hmz & Hmzr).
  pose proof (digits2_pos_bounds p) as Hb.
  set (d := Z.pos (digits2_pos p)) in *.
  assert (Hd : 1 <= d <= 53).
  { split; [unfold d; lia|].
    destruct (Z.le_gt_cases d 53) as [|Hgt]; [assumption|].
    assert (2 ^ 53 <= 2 ^ (d - 1)) by (apply Z.pow_le_mono_r; lia). lia. }
  pose proof (ceil_fifth_bounds (Z.pos p)) as HD.
  unfold gate_ok. set (D := ceil_fifth (Z.pos p)) in *.
  rewrite Hf. unfold float_0_2. cbn [SFmul xorb].
  set (P := (mz * 7205759403792794)%positive).
  assert (HP : Z.pos P = Z.pos mz * 7205759403792794) by reflexivity.
  assert (HPr : 2 ^ 104 <= Z.pos P < 2 ^ 106).
  { rewrite HP. change (2 ^ 104) with (2 ^ 52 * 2 ^ 52).
    change (2 ^ 106) with (2 ^ 53 * 2 ^ 53).
    change (2 ^ 52) with 4503599627370496 in *.
    change (2 ^ 53) with 9007199254740992 in *. nia. }
  pose proof (digits2_pos_bounds P) as HbP.
  set (dP := Z.pos (digits2_pos P)) in *.
  assert (HdP : dP = 105 \/ dP = 106).
  { assert (104 < dP).
    { destruct (Z.le_gt_cases dP 104) as [Hle|]; [|assumption].
      assert (2 ^ dP <= 2 ^ 104) by (apply Z.pow_le_mono_r; lia). lia. }
    assert (dP - 1 < 106).
    { destruct (Z.le_gt_cases 106 (dP - 1)) as [Hle|]; [|lia].
      assert (2 ^ 106 <= 2 ^ (dP - 1)) by (apply Z.pow_le_mono_r; lia). lia. }
    lia. }
  set (e := d - 53 + -55).
  destruct (binary_round_aux_shift P e)
    as (m'' & e'' & m' & Hres & He'' & HY & Hclose);
    fold dP; unfold e; try lia.
  fold e in Hres, He'', HY |- *. fold dP in He'', HY, Hclose. rewrite Hres.
  (* everything in units of [2 ^ e] *)
  set (a := 2 ^ (53 - d)) in *.
  assert (Ha : 1 <= a)
    by (unfold a; pose proof (Z.pow_pos_nonneg 2 (53 - d)); lia).
  assert (HU : 2 ^ (e'' - e - e'') = a * 2 ^ 55).
  { unfold a. rewrite <- Z.pow_add_r by lia. f_equal. unfold e. lia. }
  set (na := Z.pos mz) in *.
  set (Da := D * a).
  assert (HDa : 5 * Da - 4 * a <= na <= 5 * Da) by (unfold Da; nia).
  assert (HDa' : Z.pos p <> 5 * D -> na <= 5 * Da - a) by (unfold Da; nia).
  assert (Hupper : int_ge_float D (S754_finite false m'' e'') = true).
  { apply (int_ge_float_finite_neg D m'' e'' (e'' - e)); [lia | lia |].
    rewrite HY, HU. fold Da in HDa.
    replace (D * (a * 2 ^ 55)) with (Da * 2 ^ 55) by (unfold Da; lia).
    destruct (Z.eq_dec (Z.pos p) (5 * D)) as [Heq|Hne].
    - assert (Hna : na = 5 * Da) by (unfold Da; nia).
      destruct HdP as [HdP|HdP]; rewrite HdP in *;
        change (105 - 53) with 52 in *; change (106 - 53) with 53 in *;
        change (105 - 1) with 104 in *; change (106 - 1) with 105 in *;
        change (2 ^ 52) with 4503599627370496 in *;
        change (2 ^ 53) with 9007199254740992 in *;
        change (2 ^ 55) with 36028797018963968 in *;
        change (2 ^ 104) with 20282409603651670423947251286016 in *;
        change (2 ^ 105) with 40564819207303340847894502572032 in *;
        change (2 ^ 106) with 81129638414606681695789005144064 in *;
        lia.
    - specialize (HDa' Hne).
      destruct HdP as [HdP|HdP]; rewrite HdP in *;
        change (105 - 53) with 52 in *; change (106 - 53) with 53 in *;
        change (2 ^ 52) with 4503599627370496 in *;
        change (2 ^ 53) with 9007199254740992 in *;
        change (2 ^ 55) with 36028797018963968 in *;
        lia. }
  assert (Hlower : int_ge_float (D - 1) (S754_finite false m'' e'') = false).
  { apply not_true_iff_false.
    rewrite (int_ge_float_finite_neg (D - 1) m'' e'' (e'' - e)) by lia.
    rewrite HY, HU.
    replace ((D - 1) * (a * 2 ^ 55)) with ((Da - a) * 2 ^ 55)
      by (unfold Da; lia).
    destruct HdP as [HdP|HdP]; rewrite HdP in *;
      change (105 - 53) with 52 in *; change (106 - 53) with 53 in *;
      change (2 ^ 52) with 4503599627370496 in *;
      change (2 ^ 53) with 9007199254740992 in *;
      change (2 ^ 55) with 36028797018963968 in *;
      lia. }
  now rewrite Hupper, Hlower.
Qed.

Lemma gate_ok_all n : 0 <= n < 2 ^ 53 -> gate_ok n = true.
Proof.
  intros [Hn Hlt]. destruct n as [|p|p]; try lia.
  - reflexivity.
  - now apply gate_ok_pos.
Qed.

Lemma gate_ok_range n :
  0 <= n <= max_word_count -> gate_ok n = true.
Proof.
  intros Hn. apply gate_ok_all. unfold max_word_count in Hn. lia.
Qed.

(** Past [2^53] the conversion of the count rounds and the test can
    differ from the exact one. *)
Example gate_ok_fails_beyond : gate_ok (2 ^ 60 + 5) = false.
Proof. vm_compute. reflexivity. Qed.

(** For these counts the test [d >= n * 0.2], computed in binary64, is
    the exact test [d >= ceil(0.2 * n)]. *)
Lemma coverage_test_exact n d :
  0 <= n <= max_word_count ->
  int_ge_float d (SFmul prec emax (float_of_int n) float_0_2) = true
  <-> ceil_fifth n <= d.
Proof.
  intros Hn. pose proof (gate_ok_range n Hn) as Hok.
  unfold gate_ok in Hok. apply andb_true_iff in Hok as [Hge Hlt].
  apply negb_true_iff in Hlt. split.
  - intros H. destruct (Z.le_gt_cases (ceil_fifth n) d) as [|Hgt]; [assumption|].
    rewrite (int_ge_float_mono d (ceil_fifth n - 1)) in Hlt;
      [discriminate | lia | assumption].
  - intros H. eapply int_ge_float_mono; eauto.
Qed.

Lemma ceil_fifth_le n d : ceil_fifth n <= d <-> n <= 5 * d.
Proof.
  unfold ceil_fifth.
  pose proof (Z.div_mod (n + 4) 5 ltac:(lia)).
  pose proof (Z.mod_pos_bound (n + 4) 5 ltac:(lia)). lia.
Qed.

Lemma increment_counts b d :
  d ∈ Directions.all ->
  total_words (increment b d) = total_words b
  /\ counts (increment b d) DIAGONAL
     = counts b DIAGONAL + (if is_diagonal d then 1 else 0).
Proof.
  intros Hd. apply list_elem_of_In in Hd. simpl in Hd.
  repeat (destruct Hd as [<-|Hd];
          [unfold increment;
           set (h := is_horizontal _); set (v := is_vertical _);
           set (g := is_diagonal _);
           vm_compute in h, v, g; subst h v g;
           cbn [counts total_words]; unfold bump;
           split; [reflexivity|];
           first [ rewrite bool_decide_eq_true_2 by reflexivity
                 | rewrite bool_decide_eq_false_2 by discriminate ];
           lia |]).
  destruct Hd.
Qed.

(** The balancer count of diagonal placements, for placements along the
    eight directions. *)
Lemma tally_counts pls : forall b,
  Forall (fun pl => direction pl ∈ Directions.all) pls ->
  total_words (tally b pls) = total_words b
  /\ counts (tally b pls) DIAGONAL
     = counts b DIAGONAL + Z.of_nat (count_diagonal pls).
Proof.
  induction pls as [|pl rest IH]; intros b Hall.
  - unfold tally, count_diagonal. simpl. split; [reflexivity | lia].
  - inversion Hall as [|? ? Hd Hrest]; subst.
    change (tally b (pl :: rest))
      with (tally (increment b (direction pl)) rest).
    destruct (IH (increment b (direction pl)) Hrest) as [Ht Hc].
    destruct (increment_counts b (direction pl) Hd) as [Ht1 Hc1].
    rewrite Ht, Hc, Ht1, Hc1. split; [reflexivity|].
    unfold count_diagonal. simpl List.filter.
    destruct (is_diagonal (direction pl)); simpl length; lia.
Qed.

(* ------------------------------------------------------------------ *)
(** ** The single-puzzle generator *)


Lemma generate_total max_attempts w0 :
  exists b w', generate max_attempts w0 = (Ok b, w').
Proof.
  unfold generate, get_puzzle. unfold bind at 1.
  destruct (generate_loop_spec (Z.to_nat max_attempts)
              (sorted_by_len_desc (words (w_puzzle w0))) w0)
    as (k & b & w' & Hloop & _).
  eauto.
Qed.

(** C7. In a puzzle [generate] accepted, every recorded placement has
    one position per character of its word, position [i] being
    [start + i * (row_delta, col_delta)], so that consecutive positions
    differ by the direction vector; every position is inside the grid;
    and two placements that share a cell write the same character
    there. *)
Theorem accepted_placements_consistent (max_attempts : Z) (w0 w' : World) :
  generate max_attempts w0 = (Ok true, w') ->
  (forall pl, pl ∈ placements (w_puzzle w') ->
     length (positions pl) = Word_len (word pl)
     /\ (forall i : nat, (i < Word_len (word pl))%nat ->
           positions pl !! i
           = Some (mkPosition
                     (row (start_position pl)
                      + Z.of_nat i * row_delta (direction pl))
                     (col (start_position pl)
                      + Z.of_nat i * col_delta (direction pl))))
     /\ (forall (i : nat) q q',
           positions pl !! i = Some q -> positions pl !! S i = Some q' ->
           row q' - row q = row_delta (direction pl)
           /\ col q' - col q = col_delta (direction pl))
     /\ (forall q, q ∈ positions pl ->
           0 <= row q < grid_size (w_puzzle w')
           /\ 0 <= col q < grid_size (w_puzzle w')))
  /\ (forall pl1 pl2 (i j : nat) q c1 c2,
        pl1 ∈ placements (w_puzzle w') -> pl2 ∈ placements (w_puzzle w') ->
        positions pl1 !! i = Some q -> positions pl2 !! j = Some q ->
        String.get i (value (word pl1)) = Some c1 ->
        String.get j (value (word pl2)) = Some c2 ->
        c1 = c2).
Proof.
  intros Hgen.
  destruct (generate_accepted _ _ _ Hgen) as ([Hwf Hpls] & _).
  rewrite Forall_forall in Hpls.
  assert (Hlook : forall pl (i : nat) q,
            pl ∈ placements (w_puzzle w') -> positions pl !! i = Some q ->
            (i < Word_len (word pl))%nat
            /\ q = step_position (start_position pl) (direction pl)
                     (Z.of_nat i)).
  { intros pl i q Hin Hq. destruct (Hpls pl Hin) as (Hpos & _).
    rewrite Hpos in Hq. apply lookup_lt_Some in Hq as Hi.
    rewrite calculate_positions_length in Hi.
    rewrite calculate_positions_lookup in Hq by assumption.
    split; congruence. }
  split.
  - intros pl Hin. destruct (Hpls pl Hin) as (Hpos & Hdir & Hcells).
    split_and!.
    + rewrite Hpos. apply calculate_positions_length.
    + intros i Hi. rewrite Hpos. now apply calculate_positions_lookup.
    + intros i q q' Hq Hq'.
      destruct (Hlook pl i q Hin Hq) as [_ ->].
      destruct (Hlook pl (S i) q' Hin Hq') as [_ ->].
      simpl. lia.
    + intros q Hq. apply list_elem_of_lookup in Hq as [i Hq].
      destruct (Hlook pl i q Hin Hq) as [Hi ->].
      destruct (get_lt_Some (value (word pl)) i Hi) as [c Hc].
      destruct (Hcells i c Hc) as [Hv _].
      now apply valid_position_bounds in Hv.
  - intros pl1 pl2 i j q c1 c2 Hin1 Hin2 Hq1 Hq2 Hc1 Hc2.
    destruct (Hlook pl1 i q Hin1 Hq1) as [_ Heq1].
    destruct (Hlook pl2 j q Hin2 Hq2) as [_ Heq2].
    destruct (Hpls pl1 Hin1) as (_ & _ & Hcells1).
    destruct (Hpls pl2 Hin2) as (_ & _ & Hcells2).
    destruct (Hcells1 i c1 Hc1) as [_ Hat1].
    destruct (Hcells2 j c2 Hc2) as [_ Hat2].
    rewrite <- Heq1 in Hat1. rewrite <- Heq2 in Hat2. congruence.
Qed.

(** C8, as the code has it.  In a puzzle [generate] accepted the words of
    the placements are a rearrangement of the requested word list: one
    placement per entry of the request, so the puzzle is complete; a
    word value occurs in two placements only if it was requested
    twice. *)
Theorem accepted_one_placement_per_request (max_attempts : Z)
    (w0 w' : World) :
  generate max_attempts w0 = (Ok true, w') ->
  word <$> placements (w_puzzle w') ≡ₚ words (w_puzzle w0)
  /\ words (w_puzzle w') = words (w_puzzle w0)
  /\ length (placements (w_puzzle w')) = length (words (w_puzzle w0))
  /\ is_complete (w_puzzle w') = true
  /\ (NoDup (words (w_puzzle w0)) ->
      NoDup (word <$> placements (w_puzzle w'))).
Proof.
  intros Hgen.
  destruct (generate_accepted _ _ _ Hgen) as (_ & _ & Hws & Hperm & _).
  assert (Hlen : length (placements (w_puzzle w'))
                 = length (words (w_puzzle w0))).
  { rewrite <- (Permutation_length Hperm). now rewrite length_fmap. }
  split_and!; auto.
  - unfold is_complete. rewrite Hws, Hlen. apply Nat.leb_refl.
  - intros Hnd. now rewrite Hperm.
Qed.

(** C2. The coverage test [diagonal_count >= total_words * 0.2], as
    binary64 evaluates it, holds exactly when the count is at least
    [ceil(0.2 * total_words)]; hence a puzzle [generate] accepted has at
    least [ceil(0.2 * word_count)] diagonal placements.  Both for word
    counts below [2^53], which convert to a double exactly. *)
Theorem diagonal_coverage_law :
  (forall b : DirectionBalancer,
     0 <= total_words b <= max_word_count ->
     (has_sufficient_diagonal_coverage b float_0_2 = true
      <-> total_words b <= 5 * counts b DIAGONAL)
     /\ (has_sufficient_diagonal_coverage b float_0_2 = true
         <-> ceil_fifth (total_words b) <= counts b DIAGONAL))
  /\ (forall (max_attempts : Z) (w0 w' : World),
        Z.of_nat (length (words (w_puzzle w0))) <= max_word_count ->
        generate max_attempts w0 = (Ok true, w') ->
        ceil_fifth (Z.of_nat (length (words (w_puzzle w'))))
        <= Z.of_nat (count_diagonal (placements (w_puzzle w')))).
Proof.
  split.
  - intros b Hb. unfold has_sufficient_diagonal_coverage.
    rewrite <- ceil_fifth_le. split; now apply coverage_test_exact.
  - intros max_attempts w0 w' Hn Hgen.
    destruct (generate_accepted _ _ _ Hgen)
      as ([_ Hpls] & _ & Hws & _ & Hgate & _).
    assert (Hdirs : Forall (fun pl => direction pl ∈ Directions.all)
                      (placements (w_puzzle w'))).
    { eapply Forall_impl; [exact Hpls|]. now intros pl (_ & Hd & _). }
    destruct (tally_counts (placements (w_puzzle w'))
                (DirectionBalancer_new
                   (Z.of_nat (length (words (w_puzzle w0))))) Hdirs)
      as [Ht Hc].
    unfold has_sufficient_diagonal_coverage in Hgate.
    rewrite Ht, Hc in Hgate. simpl in Hgate.
    apply coverage_test_exact in Hgate; [|lia].
    now rewrite Hws.
Qed.

(* ------------------------------------------------------------------ *)
(** ** The multi-puzzle orchestrator *)

Lemma run_generate_total strategy_max p tape :
  exists b p' tape',
    run_generate strategy_max p tape = (Ok (b, p'), tape').
Proof.
  unfold run_generate.
  destruct (generate_total strategy_max (mkWorld p tape)) as (b & w' & ->).
  eauto.
Qed.

(** The loop with [n] iterations left and [acc] collected so far makes
    [k] calls, [k] at most [n], appends the puzzles those calls accepted,
    makes no call once [count] puzzles are held, and stops short of [n]
    calls only when [count] puzzles are held. *)
Lemma generate_puzzles_loop_spec strategy_max gs ws count (n : nat) :
  forall acc tape,
  exists (k : nat) new tape',
    _generate_puzzles_loop strategy_max gs ws count n acc tape
    = (Ok (acc ++ new), tape')
    /\ (k <= n)%nat
    /\ first_calls strategy_max gs ws k tape = (new, tape')
    /\ (forall j : nat, (j < k)%nat ->
          Z.of_nat (length acc
                    + length (fst (first_calls strategy_max gs ws j tape)))
          < count)
    /\ (Z.of_nat (length acc) <= Z.max 0 count ->
        Z.of_nat (length (acc ++ new)) <= Z.max 0 count)
    /\ (k = n \/ count <= Z.of_nat (length (acc ++ new))).
Proof.
  induction n as [|n IH]; intros acc tape; simpl.
  - exists 0%nat, [], tape. rewrite app_nil_r.
    split_and!; auto. intros j Hj. lia.
  - destruct (count <=? Z.of_nat (length acc)) eqn:Hfull.
    + apply Z.leb_le in Hfull.
      exists 0%nat, [], tape. rewrite app_nil_r.
      split_and!; auto; try lia.
    + apply Z.leb_gt in Hfull.
      destruct (run_generate_total strategy_max (Puzzle_new gs ws) tape)
        as (b & p' & tape1 & Hrun).
      rewrite (bind_ok _ _ _ _ _ Hrun). cbn [fst snd]. destruct b.
      * destruct (IH (acc ++ [p']) tape1)
          as (k & new & tape' & Hloop & Hk & Hcalls & Hbelow & Hmax & Hstop).
        exists (S k), (p' :: new), tape'.
        replace (acc ++ p' :: new) with ((acc ++ [p']) ++ new)
          by now rewrite <- app_assoc.
        split_and!; auto; try lia.
        -- simpl. now rewrite Hrun, Hcalls.
        -- intros [|j] Hj; simpl; [lia|]. rewrite Hrun.
           specialize (Hbelow j ltac:(lia)).
           destruct (first_calls strategy_max gs ws j tape1) as [ps t].
           rewrite length_app in Hbelow. simpl in *. lia.
        -- intros Hacc. apply Hmax. rewrite length_app. simpl. lia.
      * destruct (IH acc tape1)
          as (k & new & tape' & Hloop & Hk & Hcalls & Hbelow & Hmax & Hstop).
        exists (S k), new, tape'.
        split_and!; auto; try lia;
          try (destruct Hstop; [left; lia | now right]).
        -- simpl. now rewrite Hrun.
        -- intros [|j] Hj; simpl; [lia|]. rewrite Hrun.
           apply Hbelow. lia.
Qed.

(** C5. [_generate_puzzles] never raises.  It calls the generator [k]
    times, [k] at most [count * 10], each call on a fresh puzzle; the
    list it returns holds the puzzles those calls accepted, one per
    successful call and in order; no call is made once [count] puzzles
    are held, so the list never holds more than [count]; and a list
    shorter than [count] is returned only when all [count * 10] calls
    were made. *)
Theorem generate_puzzles_bounded (strategy_max gs : Z) (ws : list Word)
    (count : Z) (tape : list nat) :
  exists (k : nat) (puzzles : list Puzzle) (tape' : list nat),
    _generate_puzzles strategy_max gs ws count tape = (Ok puzzles, tape')
    /\ Z.of_nat k <= Z.max 0 (count * 10)
    /\ first_calls strategy_max gs ws k tape = (puzzles, tape')
    /\ (forall j : nat, (j < k)%nat ->
          Z.of_nat (length (fst (first_calls strategy_max gs ws j tape)))
          < count)
    /\ Z.of_nat (length puzzles) <= Z.max 0 count
    /\ (Z.of_nat (length puzzles) < count -> k = Z.to_nat (count * 10)).
Proof.
  unfold _generate_puzzles.
  destruct (generate_puzzles_loop_spec strategy_max gs ws count
              (Z.to_nat (count * 10)) [] tape)
    as (k & new & tape' & Hloop & Hk & Hcalls & Hbelow & Hmax & Hstop).
  exists k, new, tape'. simpl in *.
  split_and!; auto; try lia.
Qed.

(* ------------------------------------------------------------------ *)
(** ** The code at the sample inputs *)

(** C1, the code at a failing input.  For the first of three words the
    balancer lists the diagonal directions first, and the empty grid
    admits "CAT" diagonally from (0,0); yet [try_place_word] shuffles the
    eight directions as one list, meets [HORIZONTAL_RIGHT] first and
    commits the word horizontally.  A whole attempt, and a whole run of
    [generate], go the same way and are accepted with that placement. *)
Theorem priority_order_lost_in_shuffle :
  get_priority_directions (DirectionBalancer_new 3) 0
  = Directions.diagonal ++ Directions.horizontal ++ Directions.vertical
  /\ can_place_word sample_puzzle CAT (mkPosition 0 0)
       Directions.DIAGONAL_DOWN_RIGHT = Ok true
  /\ fst (try_place_word CAT
            (get_priority_directions (DirectionBalancer_new 3) 0)
            horizontal_first_world)
     = Ok (true,
           [ Directions.HORIZONTAL_RIGHT; Directions.DIAGONAL_UP_RIGHT;
             Directions.DIAGONAL_UP_LEFT; Directions.DIAGONAL_DOWN_LEFT;
             Directions.HORIZONTAL_LEFT; Directions.VERTICAL_DOWN;
             Directions.VERTICAL_UP; Directions.DIAGONAL_DOWN_RIGHT ])
  /\ placements
       (w_puzzle
          (snd (try_place_word CAT
                  (get_priority_directions (DirectionBalancer_new 3) 0)
                  horizontal_first_world)))
     = [ WordPlacement_new CAT (mkPosition 0 1) Directions.HORIZONTAL_RIGHT ]
  /\ fst (_attempt_placement [CAT; DOG; SUN] horizontal_first_world) = Ok true
  /\ (fun pl => (word pl, direction pl))
       <$> placements
             (w_puzzle
                (snd (_attempt_placement [CAT; DOG; SUN]
                        horizontal_first_world)))
     = [ (CAT, Directions.HORIZONTAL_RIGHT);
         (DOG, Directions.DIAGONAL_DOWN_LEFT);
         (SUN, Directions.VERTICAL_UP) ]
  /\ fst (generate default_max_attempts horizontal_first_run) = Ok true
  /\ (fun pl => (word pl, start_position pl, direction pl))
       <$> placements
             (w_puzzle (snd (generate default_max_attempts
                               horizontal_first_run)))
     = [ (CAT, mkPosition 0 1, Directions.HORIZONTAL_RIGHT);
         (DOG, mkPosition 0 4, Directions.DIAGONAL_DOWN_LEFT);
         (SUN, mkPosition 2 0, Directions.VERTICAL_UP) ].
Proof. vm_compute. repeat split; reflexivity. Qed.

(** The law at a balancer of five words with one diagonal, and at the
    accepted run on the sample world. *)
Lemma diagonal_coverage_law_witness :
  (0 <= total_words (mkBalancer 5 (fun _ => 1)) <= max_word_count
   /\ (has_sufficient_diagonal_coverage (mkBalancer 5 (fun _ => 1)) float_0_2
       = true
       <-> 5 <= 5 * 1))
  /\ Z.of_nat (length (words (w_puzzle sample_world))) <= max_word_count
  /\ generate 1 sample_world = (Ok true, snd (generate 1 sample_world))
  /\ ceil_fifth
       (Z.of_nat (length (words (w_puzzle (snd (generate 1 sample_world))))))
     <= Z.of_nat
          (count_diagonal
             (placements (w_puzzle (snd (generate 1 sample_world))))).
Proof.
  assert (H5 : 0 <= total_words (mkBalancer 5 (fun _ => 1))
               <= max_word_count) by (vm_compute; split; discriminate).
  assert (H3 : Z.of_nat (length (words (w_puzzle sample_world)))
               <= max_word_count) by (vm_compute; discriminate).
  assert (Hrun : generate 1 sample_world
                 = (Ok true, snd (generate 1 sample_world)))
    by (vm_compute; reflexivity).
  split; [split; [exact H5|] | split; [exact H3 | split; [exact Hrun|]]].
  - exact (proj1 (proj1 diagonal_coverage_law (mkBalancer 5 (fun _ => 1)) H5)).
  - exact (proj2 diagonal_coverage_law 1 sample_world _ H3 Hrun).
Defined.

(** The accepted run on the sample world. *)
Lemma accepted_placements_consistent_witness :
  generate 1 sample_world = (Ok true, snd (generate 1 sample_world))
  /\ forall pl,
       pl ∈ placements (w_puzzle (snd (generate 1 sample_world))) ->
       length (positions pl) = Word_len (word pl).
Proof.
  assert (Hrun : generate 1 sample_world
                 = (Ok true, snd (generate 1 sample_world)))
    by (vm_compute; reflexivity).
  split; [exact Hrun|]. intros pl Hin.
  exact (proj1 (proj1 (accepted_placements_consistent 1 sample_world _ Hrun)
                  pl Hin)).
Defined.

(** C8, counterexample.  The request ["CAT"; "CAT"] is a non-empty list
    of non-empty words; the generator accepts a puzzle for it whose two
    placements carry the same word value. *)
Lemma repeated_word_placed_twice :
  fst (generate 1 repeated_world) = Ok true
  /\ word <$> placements (w_puzzle (snd (generate 1 repeated_world)))
     = [CAT; CAT]
  /\ ~ NoDup (word <$> placements (w_puzzle (snd (generate 1 repeated_world)))).
Proof.
  assert (Hw : word <$> placements (w_puzzle (snd (generate 1 repeated_world)))
               = [CAT; CAT]) by (vm_compute; reflexivity).
  split_and!; [vm_compute; reflexivity | exact Hw |].
  rewrite Hw. intros Hnd. apply NoDup_cons in Hnd as [Hnotin _].
  apply Hnotin. now left.
Qed.

(** The accepted run on the sample world places CAT, DOG and SUN once
    each. *)
Lemma accepted_one_placement_per_request_witness :
  generate 1 sample_world = (Ok true, snd (generate 1 sample_world))
  /\ word <$> placements (w_puzzle (snd (generate 1 sample_world)))
     ≡ₚ [CAT; DOG; SUN].
Proof.
  assert (Hrun : generate 1 sample_world
                 = (Ok true, snd (generate 1 sample_world)))
    by (vm_compute; reflexivity).
  split; [exact Hrun|].
  exact (proj1 (accepted_one_placement_per_request 1 sample_world _ Hrun)).
Defined.

(** C9, counterexample.  "CAT" rightwards from (0,4) leaves the 5x5 grid
    after its first letter: [add_placement] raises [ValueError], the
    letter already written stays and nothing is appended. *)
Lemma add_placement_raises_out_of_bounds :
  add_placement
    (WordPlacement_new CAT (mkPosition 0 4) Directions.HORIZONTAL_RIGHT)
    sample_puzzle
  = (Raise ValueError,
     with_grid sample_puzzle
       [ [""; ""; ""; ""; "C"]; [""; ""; ""; ""; ""]; [""; ""; ""; ""; ""];
         [""; ""; ""; ""; ""]; [""; ""; ""; ""; ""] ]).
Proof. vm_compute. reflexivity. Qed.

(** No validation of the letters: "DOG" over a committed "CAT" is
    refused by [can_place_word] and written all the same by
    [add_placement]. *)
Example add_placement_overwrites_conflict :
  let p1 :=
    snd (add_placement
           (WordPlacement_new CAT (mkPosition 0 0) Directions.HORIZONTAL_RIGHT)
           sample_puzzle) in
  can_place_word p1 DOG (mkPosition 0 0) Directions.HORIZONTAL_RIGHT = Ok false
  /\ fst (add_placement
            (WordPlacement_new DOG (mkPosition 0 0)
               Directions.HORIZONTAL_RIGHT) p1) = Ok tt
  /\ grid_at
       (grid (snd (add_placement
                     (WordPlacement_new DOG (mkPosition 0 0)
                        Directions.HORIZONTAL_RIGHT) p1)))
       (mkPosition 0 0) = Some "D".
Proof. vm_compute. repeat split; reflexivity. Qed.

(** "CAT" rightwards from (0,0) stays inside the sample grid and is
    committed; rightwards from (0,4) it leaves the grid after its first
    letter, which stays written. *)
Lemma add_placement_checks_bounds_only_witness :
  grid_wf sample_puzzle
  /\ (exists p',
        add_placement
          (WordPlacement_new CAT (mkPosition 0 0) Directions.HORIZONTAL_RIGHT)
          sample_puzzle = (Ok tt, p')
        /\ placements p'
           = [ WordPlacement_new CAT (mkPosition 0 0)
                 Directions.HORIZONTAL_RIGHT ])
  /\ (exists (k : nat) p',
        add_placement
          (WordPlacement_new CAT (mkPosition 0 4) Directions.HORIZONTAL_RIGHT)
          sample_puzzle = (Raise ValueError, p')
        /\ placements p' = []
        /\ (forall (i : nat) (c : ascii),
              (i < k)%nat -> String.get i (value CAT) = Some c ->
              (forall j : nat, (i < j < k)%nat ->
                 step_position (mkPosition 0 4) Directions.HORIZONTAL_RIGHT
                   (Z.of_nat j)
                 <> step_position (mkPosition 0 4)
                      Directions.HORIZONTAL_RIGHT (Z.of_nat i)) ->
              grid_at (grid p')
                (step_position (mkPosition 0 4) Directions.HORIZONTAL_RIGHT
                   (Z.of_nat i))
              = Some (String c EmptyString))).
Proof.
  assert (Hwf : grid_wf sample_puzzle)
    by (split; [reflexivity | repeat constructor]).
  split; [exact Hwf|]. split.
  - destruct (add_placement_checks_bounds_only sample_puzzle CAT
                (mkPosition 0 0) Directions.HORIZONTAL_RIGHT Hwf)
      as [Hin _].
    destruct Hin as (p' & Hrun & Hpl & _).
    + intros i Hi. do 3 (destruct i as [|i]; [reflexivity|]).
      vm_compute in Hi. lia.
    + exists p'. split; [exact Hrun | exact Hpl].
  - destruct (add_placement_checks_bounds_only sample_puzzle CAT
                (mkPosition 0 4) Directions.HORIZONTAL_RIGHT Hwf)
      as [_ Hout].
    destruct Hout as (k & p' & _ & _ & _ & Hrun & Hpl & _ & _ & Hcells & _).
    + exists 1%nat. split; [vm_compute; lia | reflexivity].
    + exists k, p'. split; [exact Hrun|]. split; [exact Hpl | exact Hcells].
Defined.

(** A call on the sample world with the eight directions, and draws
    that exchange a list of two. *)
Lemma try_place_word_permutes_directions_witness :
  grid_wf (w_puzzle sample_world)
  /\ (exists placed directions' w',
        try_place_word CAT Directions.all sample_world
        = (Ok (placed, directions'), w')
        /\ directions' ≡ₚ Directions.all)
  /\ ([Directions.VERTICAL_DOWN; Directions.HORIZONTAL_RIGHT]
      ≡ₚ [Directions.HORIZONTAL_RIGHT; Directions.VERTICAL_DOWN]
      /\ exists draws : list nat,
           forall tape,
             try_place_word CAT
               [Directions.HORIZONTAL_RIGHT; Directions.VERTICAL_DOWN]
               (mkWorld (w_puzzle sample_world) (draws ++ tape))
             = (let* placed :=
                  scan_directions CAT
                    [Directions.VERTICAL_DOWN; Directions.HORIZONTAL_RIGHT] in
                ret (placed,
                     [Directions.VERTICAL_DOWN; Directions.HORIZONTAL_RIGHT]))
                 (mkWorld (w_puzzle sample_world) tape)).
Proof.
  assert (Hwf : grid_wf (w_puzzle sample_world))
    by (split; [reflexivity | repeat constructor]).
  assert (Hswap : [Directions.VERTICAL_DOWN; Directions.HORIZONTAL_RIGHT]
                  ≡ₚ [Directions.HORIZONTAL_RIGHT; Directions.VERTICAL_DOWN])
    by apply perm_swap.
  split; [exact Hwf|]. split.
  - destruct (try_place_word_permutes_directions CAT Directions.all
                sample_world)
      as [(ds' & w1 & _ & _ & Hperm & _ & _ & _ & _ & Hret) _].
    destruct (Hret Hwf) as (placed & w' & Hrun).
    exists placed, ds', w'. split; [exact Hrun | exact Hperm].
  - split; [exact Hswap|].
    destruct (try_place_word_permutes_directions CAT
                [Directions.HORIZONTAL_RIGHT; Directions.VERTICAL_DOWN]
                sample_world)
      as [_ Hreach].
    destruct (Hreach _ Hswap) as (draws & _ & Hrun).
    exists draws. exact Hrun.
Defined.

(** The shuffle does reorder: the caller's list after the call of the
    first example. *)
Example try_place_word_reorders :
  snd <$> (match fst (try_place_word CAT Directions.all sample_world) with
           | Ok r => Some r
           | Raise _ => None
           end)
  = Some [ Directions.HORIZONTAL_LEFT; Directions.VERTICAL_DOWN;
           Directions.VERTICAL_UP; Directions.DIAGONAL_DOWN_LEFT;
           Directions.DIAGONAL_UP_RIGHT; Directions.DIAGONAL_DOWN_RIGHT;
           Directions.DIAGONAL_UP_LEFT; Directions.HORIZONTAL_RIGHT ].
Proof. vm_compute. reflexivity. Qed.

(* ================================================================== *)
(** * Further properties of the code *)

Lemma sample_puzzle_wf : grid_wf sample_puzzle.
Proof. split; [reflexivity | repeat constructor]. Defined.

(* ------------------------------------------------------------------ *)
(** ** The positions of the grid *)

Lemma all_positions_elem p pos :
  pos ∈ _get_all_positions p <-> is_valid_position p pos = true.
Proof.
  unfold _get_all_positions. rewrite valid_position_bounds, list_elem_of_bind.
  split.
  - intros (r & Hin & Hr). apply list_elem_of_bind in Hin as (c & Hin & Hc).
    apply list_elem_of_singleton in Hin. subst pos. simpl.
    apply elem_of_seqZ in Hr, Hc. lia.
  - intros [Hr Hc]. exists (row pos). split; [|apply elem_of_seqZ; lia].
    apply list_elem_of_bind. exists (col pos).
    split; [|apply elem_of_seqZ; lia].
    apply list_elem_of_singleton. now destruct pos.
Qed.

Lemma all_positions_NoDup p : NoDup (_get_all_positions p).
Proof.
  unfold _get_all_positions. apply NoDup_bind.
  - intros r1 r2 pos _ _ H1 H2.
    apply list_elem_of_bind in H1 as (c1 & H1 & _).
    apply list_elem_of_bind in H2 as (c2 & H2 & _).
    apply list_elem_of_singleton in H1, H2. congruence.
  - intros r _. apply NoDup_bind.
    + intros c1 c2 pos _ _ H1 H2.
      apply list_elem_of_singleton in H1, H2. congruence.
    + intros c _. apply NoDup_singleton.
    + apply NoDup_seqZ.
  - apply NoDup_seqZ.
Qed.

Lemma bind_length_const {A B} (f : A -> list B) (n : nat) (l : list A) :
  (forall x, length (f x) = n) -> length (l ≫= f) = (length l * n)%nat.
Proof.
  intros Hf. induction l as [|x l IH]; [reflexivity|].
  rewrite bind_cons, length_app, Hf, IH. simpl. lia.
Qed.

Lemma all_positions_length p :
  length (_get_all_positions p)
  = (Z.to_nat (grid_size p) * Z.to_nat (grid_size p))%nat.
Proof.
  unfold _get_all_positions.
  rewrite (bind_length_const _ (Z.to_nat (grid_size p))).
  - now rewrite length_seqZ.
  - intros r. rewrite (bind_length_const _ 1%nat); [|reflexivity].
    rewrite length_seqZ. lia.
Qed.

(** [_get_all_positions] lists the cells inside the grid, each once:
    [grid_size * grid_size] of them, none when the size is not
    positive. *)
Theorem get_all_positions_exact (p : Puzzle) :
  (forall pos, pos ∈ _get_all_positions p
               <-> 0 <= row pos < grid_size p /\ 0 <= col pos < grid_size p)
  /\ NoDup (_get_all_positions p)
  /\ length (_get_all_positions p)
     = (Z.to_nat (grid_size p) * Z.to_nat (grid_size p))%nat
  /\ (grid_size p <= 0 -> _get_all_positions p = []).
Proof.
  split_and!.
  - intros pos. now rewrite all_positions_elem, valid_position_bounds.
  - apply all_positions_NoDup.
  - apply all_positions_length.
  - intros Hgs. apply length_zero_iff_nil. rewrite all_positions_length.
    replace (Z.to_nat (grid_size p)) with 0%nat by lia. reflexivity.
Qed.

(* ------------------------------------------------------------------ *)
(** ** The prober is exhaustive *)

Lemma scan_directions_complete w ds : forall w0,
  grid_wf (w_puzzle w0) ->
  exists b w',
    scan_directions w ds w0 = (Ok b, w')
    /\ if b
       then exists d pos,
              d ∈ ds /\ is_valid_position (w_puzzle w0) pos = true
              /\ committed (w_puzzle w0) w pos d (w_puzzle w')
       else w_puzzle w' = w_puzzle w0
            /\ forall d pos, d ∈ ds ->
                 is_valid_position (w_puzzle w0) pos = true ->
                 can_place_word (w_puzzle w0) w pos d = Ok false.
Proof.
  induction ds as [|d rest IH]; intros w0 Hwf; simpl.
  - exists false, w0. split_and!; auto. intros d pos Hd. inversion Hd.
  - unfold get_puzzle. unfold bind at 1.
    destruct (shuffle_perm (_get_all_positions (w_puzzle w0)) w0)
      as (ps & w1 & Hsh & Hperm & Hp1).
    rewrite (bind_ok _ _ _ _ _ Hsh).
    assert (Hwf1 : grid_wf (w_puzzle w1)) by now rewrite Hp1.
    destruct (scan_positions_spec w d ps w1 Hwf1) as (b & w2 & Hrun & _ & Hpost).
    rewrite (bind_ok _ _ _ _ _ Hrun). rewrite Hp1 in Hpost. destruct b.
    + exists true, w2. split; [reflexivity|].
      destruct Hpost as (pos & Hin & Hc). exists d, pos.
      split_and!; [now left | | assumption].
      apply all_positions_elem. now rewrite <- Hperm.
    + destruct Hpost as [Hp2 Hnone].
      assert (Hwf2 : grid_wf (w_puzzle w2)) by now rewrite Hp2.
      destruct (IH w2 Hwf2) as (b & w' & Hrun' & Hpost').
      rewrite Hp2 in Hpost'.
      exists b, w'. split; [assumption|]. destruct b.
      * destruct Hpost' as (d' & pos & Hd' & Hv & Hc). exists d', pos.
        split_and!; auto. now right.
      * destruct Hpost' as [Hp' Hrest]. split; [assumption|].
        intros d' pos Hd' Hv. apply elem_of_cons in Hd' as [->|Hd'].
        -- apply Hnone. rewrite Hperm. now apply all_positions_elem.
        -- now apply Hrest.
Qed.

Lemma try_place_word_complete (w : Word) (directions : list Direction)
    (w0 : World) :
  grid_wf (w_puzzle w0) ->
  exists (placed : bool) (directions' : list Direction) (w' : World),
    try_place_word w directions w0 = (Ok (placed, directions'), w')
    /\ (placed = false <->
        forall d pos, d ∈ directions ->
          is_valid_position (w_puzzle w0) pos = true ->
          can_place_word (w_puzzle w0) w pos d = Ok false)
    /\ (placed = false -> w_puzzle w' = w_puzzle w0)
    /\ (placed = true ->
        exists d pos,
          d ∈ directions /\ is_valid_position (w_puzzle w0) pos = true
          /\ can_place_word (w_puzzle w0) w pos d = Ok true
          /\ add_placement (WordPlacement_new w pos d) (w_puzzle w0)
             = (Ok tt, w_puzzle w')
          /\ placements (w_puzzle w')
             = placements (w_puzzle w0) ++ [WordPlacement_new w pos d]).
Proof.
  intros Hwf. unfold try_place_word.
  destruct (shuffle_perm directions w0) as (ds' & w1 & Hsh & Hperm & Hp1).
  rewrite (bind_ok _ _ _ _ _ Hsh).
  assert (Hwf1 : grid_wf (w_puzzle w1)) by now rewrite Hp1.
  destruct (scan_directions_complete w ds' w1 Hwf1) as (b & w' & Hrun & Hpost).
  rewrite (bind_ok _ _ _ _ _ Hrun). rewrite Hp1 in Hpost.
  exists b, ds', w'. split; [reflexivity|]. destruct b.
  - destruct Hpost as (d & pos & Hd & Hv & Hc).
    pose proof (committed_spec _ _ _ _ _ Hwf Hc) as (_ & _ & Hpl & _).
    destruct Hc as [Hcan Hadd]. split_and!.
    + split; [discriminate|]. intros Hnone.
      rewrite (Hnone d pos) in Hcan; [discriminate | | assumption].
      now rewrite <- Hperm.
    + discriminate.
    + intros _. exists d, pos. split_and!; auto. now rewrite <- Hperm.
  - destruct Hpost as [Hp' Hnone]. split_and!.
    + split; [|reflexivity]. intros _ d pos Hd Hv. apply Hnone; auto.
      now rewrite Hperm.
    + auto.
    + discriminate.
Qed.

(** [try_place_word] scans every listed direction from every cell of the
    grid: on a well-formed puzzle it fails exactly when no listed
    direction admits the word from any cell, and then leaves the puzzle
    as it was; otherwise it commits the word once, from a cell of the
    grid along a listed direction that [can_place_word] accepted. *)
Theorem try_place_word_exhaustive (w : Word) (directions : list Direction)
    (w0 : World) :
  grid_wf (w_puzzle w0) ->
  exists (placed : bool) (directions' : list Direction) (w' : World),
    try_place_word w directions w0 = (Ok (placed, directions'), w')
    /\ (placed = false <->
        forall d pos, d ∈ directions ->
          is_valid_position (w_puzzle w0) pos = true ->
          can_place_word (w_puzzle w0) w pos d = Ok false)
    /\ (placed = false -> w_puzzle w' = w_puzzle w0)
    /\ (placed = true ->
        exists d pos,
          d ∈ directions /\ is_valid_position (w_puzzle w0) pos = true
          /\ can_place_word (w_puzzle w0) w pos d = Ok true
          /\ add_placement (WordPlacement_new w pos d) (w_puzzle w0)
             = (Ok tt, w_puzzle w')
          /\ placements (w_puzzle w')
             = placements (w_puzzle w0) ++ [WordPlacement_new w pos d]).
Proof. apply try_place_word_complete. Qed.

(* ------------------------------------------------------------------ *)
(** ** Empty grids *)

Lemma can_place_on_empty_grid p w start d :
  grid p = empty_grid (grid_size p) ->
  can_place_word p w start d = Ok true
  <-> forall i : nat, (i < Word_len w)%nat ->
        is_valid_position p (step_position start d (Z.of_nat i)) = true.
Proof.
  intros Hg. unfold can_place_word. rewrite can_place_loop_true. split.
  - intros H i Hi. destruct (get_lt_Some (value w) i Hi) as [c Hc].
    now destruct (H i c Hc) as [Hv _].
  - intros H i c Hc. rewrite Z.add_0_l.
    assert (Hi : (i < Word_len w)%nat) by (eapply get_Some_lt; eauto).
    specialize (H i Hi). split; [assumption|].
    exists EmptyString. split; [|now left].
    apply valid_position_bounds in H. rewrite Hg.
    now apply empty_grid_at.
Qed.

Lemma try_place_word_exhaustive_witness :
  grid_wf (w_puzzle sample_world)
  /\ exists placed directions' w',
       try_place_word CAT Directions.all sample_world
       = (Ok (placed, directions'), w')
       /\ (placed = false -> w_puzzle w' = w_puzzle sample_world).
Proof.
  assert (Hwf : grid_wf (w_puzzle sample_world))
    by (split; [reflexivity | repeat constructor]).
  split; [exact Hwf|].
  destruct (try_place_word_exhaustive CAT Directions.all sample_world Hwf)
    as (placed & ds' & w' & Hrun & _ & Hsame & _).
  exists placed, ds', w'. split; [exact Hrun | exact Hsame].
Defined.

(** A start cell from which a word of [n] letters fits along [d]: the
    near edge for a non-negative step, [n - 1] cells in for a negative
    one. *)
Lemma word_fits_on_empty_grid p w d :
  grid p = empty_grid (grid_size p) ->
  d ∈ Directions.all ->
  (1 <= Word_len w)%nat -> Z.of_nat (Word_len w) <= grid_size p ->
  exists pos, is_valid_position p pos = true
              /\ can_place_word p w pos d = Ok true.
Proof.
  intros Hg Hd Hlen Hfit.
  set (n := Z.of_nat (Word_len w)).
  exists (mkPosition (if row_delta d <? 0 then n - 1 else 0)
                     (if col_delta d <? 0 then n - 1 else 0)).
  apply list_elem_of_In in Hd. simpl in Hd.
  repeat (destruct Hd as [<-|Hd];
    [split;
     [apply valid_position_bounds; simpl; lia
     |apply can_place_on_empty_grid; [assumption|];
      intros i Hi; apply valid_position_bounds; simpl; lia] |]).
  destruct Hd.
Qed.

Lemma try_place_word_on_empty (q : Puzzle) (w : Word)
    (directions : list Direction) (tape : list nat) :
  (1 <= Word_len w)%nat -> Z.of_nat (Word_len w) <= grid_size q ->
  directions <> [] -> Forall (fun d => d ∈ Directions.all) directions ->
  exists directions' w',
    try_place_word w directions (mkWorld (reset q) tape)
    = (Ok (true, directions'), w')
    /\ length (placements (w_puzzle w')) = 1%nat.
Proof.
  intros Hlen Hfit Hne Hall.
  destruct (try_place_word_complete w directions (mkWorld (reset q) tape)
              (reset_wf q))
    as (placed & ds' & w' & Hrun & Hiff & _ & Hplaced).
  destruct placed.
  - exists ds', w'. split; [assumption|].
    destruct (Hplaced eq_refl) as (d & pos & _ & _ & _ & _ & Hpl).
    now rewrite Hpl.
  - exfalso. destruct directions as [|d rest]; [contradiction|].
    inversion Hall as [|? ? Hd _]; subst.
    destruct (word_fits_on_empty_grid (reset q) w d eq_refl Hd Hlen Hfit)
      as (pos & Hv & Hcan).
    assert (Hin : d ∈ d :: rest) by now left.
    pose proof (proj1 Hiff eq_refl d pos Hin Hv) as Hno.
    simpl in Hno. congruence.
Qed.

(** On a puzzle just reset, a non-empty word no longer than the grid is
    always placed by [try_place_word], whatever non-empty list of
    catalog directions it is given and whatever the random draws. *)
Theorem try_place_word_succeeds_on_reset (q : Puzzle) (w : Word)
    (directions : list Direction) (tape : list nat) :
  (1 <= Word_len w)%nat -> Z.of_nat (Word_len w) <= grid_size q ->
  directions <> [] -> Forall (fun d => d ∈ Directions.all) directions ->
  exists directions' w',
    try_place_word w directions (mkWorld (reset q) tape)
    = (Ok (true, directions'), w')
    /\ length (placements (w_puzzle w')) = 1%nat.
Proof. apply try_place_word_on_empty. Qed.

(** [reset] keeps the size and the word list, drops every placement and
    empties every cell; it is idempotent, and on the reset puzzle
    [can_place_word] accepts exactly the paths that stay inside the
    grid. *)
Theorem reset_clears (p : Puzzle) :
  grid_size (reset p) = grid_size p /\ words (reset p) = words p
  /\ placements (reset p) = []
  /\ reset (reset p) = reset p
  /\ (forall pos, is_valid_position p pos = true ->
        get_cell (reset p) pos = Ok EmptyString)
  /\ (forall w start d,
        can_place_word (reset p) w start d = Ok true
        <-> forall i : nat, (i < Word_len w)%nat ->
              is_valid_position p (step_position start d (Z.of_nat i))
              = true).
Proof.
  split_and!; try reflexivity.
  - intros pos Hv. unfold get_cell.
    change (is_valid_position (reset p) pos) with (is_valid_position p pos).
    rewrite Hv. simpl. apply valid_position_bounds in Hv.
    now rewrite empty_grid_at.
  - intros w start d. now rewrite can_place_on_empty_grid.
Qed.

Lemma try_place_word_succeeds_on_reset_witness :
  ((1 <= Word_len CAT)%nat /\ Z.of_nat (Word_len CAT) <= grid_size sample_puzzle
   /\ Directions.all <> []
   /\ Forall (fun d => d ∈ Directions.all) Directions.all)
  /\ exists directions' w',
       try_place_word CAT Directions.all
         (mkWorld (reset sample_puzzle) [0; 0; 4]%nat)
       = (Ok (true, directions'), w')
       /\ length (placements (w_puzzle w')) = 1%nat.
Proof.
  assert (H1 : (1 <= Word_len CAT)%nat) by (vm_compute; lia).
  assert (H2 : Z.of_nat (Word_len CAT) <= grid_size sample_puzzle)
    by (vm_compute; discriminate).
  assert (H3 : Directions.all <> []) by discriminate.
  assert (H4 : Forall (fun d => d ∈ Directions.all) Directions.all)
    by (apply Forall_forall; intros d Hd; exact Hd).
  split; [split_and!; assumption|].
  exact (try_place_word_succeeds_on_reset sample_puzzle CAT Directions.all
           [0; 0; 4]%nat H1 H2 H3 H4).
Defined.

(* ------------------------------------------------------------------ *)
(** ** Reading and writing cells *)

Lemma get_cell_invalid p pos :
  is_valid_position p pos = false -> get_cell p pos = Raise ValueError.
Proof. intros H. unfold get_cell. now rewrite H. Qed.

(** [set_cell] then [get_cell]: inside a well-formed grid the write
    succeeds, the cell reads back what was written, every other cell
    reads as before and nothing else of the puzzle changes; outside the
    grid both calls raise [ValueError] and the write changes nothing. *)
Theorem set_cell_get_cell (p : Puzzle) (pos : Position) (ch : string) :
  grid_wf p ->
  if is_valid_position p pos
  then exists p',
         set_cell pos ch p = (Ok tt, p')
         /\ get_cell p' pos = Ok ch
         /\ (forall q, q <> pos -> get_cell p' q = get_cell p q)
         /\ grid_size p' = grid_size p /\ words p' = words p
         /\ placements p' = placements p /\ grid_wf p'
  else set_cell pos ch p = (Raise ValueError, p)
       /\ get_cell p pos = Raise ValueError.
Proof.
  intros Hwf. destruct (is_valid_position p pos) eqn:Hv.
  - destruct (set_cell_valid p pos ch Hwf Hv)
      as (p' & Hset & Hgs & Hws & Hpls & Hwf' & Hat & Hframe).
    assert (Hsame : forall q, is_valid_position p' q = is_valid_position p q)
      by (intros q; unfold is_valid_position; now rewrite Hgs).
    exists p'. split_and!; auto.
    + unfold get_cell. now rewrite Hsame, Hv, Hat.
    + intros q Hne. unfold get_cell. rewrite Hsame.
      destruct (is_valid_position p q) eqn:Hq; [|reflexivity].
      simpl. now rewrite (Hframe q Hq Hne).
  - split; [now apply set_cell_invalid | now apply get_cell_invalid].
Qed.

Lemma set_cell_get_cell_witness :
  grid_wf sample_puzzle
  /\ exists p',
       set_cell (mkPosition 0 0) "C" sample_puzzle = (Ok tt, p')
       /\ get_cell p' (mkPosition 0 0) = Ok "C".
Proof.
  split; [exact sample_puzzle_wf|].
  generalize (set_cell_get_cell sample_puzzle (mkPosition 0 0) "C"
                sample_puzzle_wf).
  change (is_valid_position sample_puzzle (mkPosition 0 0)) with true.
  cbv iota. intros (p' & Hset & Hget & _).
  exists p'. split; [exact Hset | exact Hget].
Defined.

(* ------------------------------------------------------------------ *)
(** ** Checked placements *)

(** A placement that [can_place_word] has accepted is committed by
    [add_placement] without an exception: it is appended to the
    placements, no letter already in the grid changes, and (for a
    direction that moves) the grid then spells the word along the path,
    so that the same placement is accepted again. *)
Theorem add_placement_after_can_place_word (p0 : Puzzle) (w : Word)
    (pos : Position) (d : Direction) :
  grid_wf p0 -> can_place_word p0 w pos d = Ok true ->
  exists p',
    add_placement (WordPlacement_new w pos d) p0 = (Ok tt, p')
    /\ grid_size p' = grid_size p0 /\ words p' = words p0
    /\ placements p' = placements p0 ++ [WordPlacement_new w pos d]
    /\ (forall q cell, get_cell p0 q = Ok cell -> cell <> EmptyString ->
          get_cell p' q = Ok cell)
    /\ (dir_moves d ->
        (forall (i : nat) (c : ascii), String.get i (value w) = Some c ->
           get_cell p' (step_position pos d (Z.of_nat i))
           = Ok (String c EmptyString))
        /\ can_place_word p' w pos d = Ok true).
Proof.
  intros Hwf Hcan.
  destruct (committed_exists p0 w pos d Hwf Hcan) as [p' Hc].
  destruct (committed_spec p0 w pos d p' Hwf Hc)
    as (Hgs & Hws & Hpls & Hwf' & Hkeep & Hspell).
  assert (Hsame : forall q, is_valid_position p' q = is_valid_position p0 q)
    by (intros q; unfold is_valid_position; now rewrite Hgs).
  exists p'. split_and!; auto.
  - apply Hc.
  - intros q cell Hget Hne. unfold get_cell in *. rewrite Hsame.
    destruct (is_valid_position p0 q) eqn:Hv; simpl in *; [|discriminate].
    destruct (grid_at (grid p0) q) as [c0|] eqn:Hq; [|discriminate].
    inversion Hget; subst. now rewrite (Hkeep q cell Hv Hq Hne).
  - intros Hmv. specialize (Hspell Hmv). split.
    + intros i c Hi. destruct (Hspell i c Hi) as [Hv Hat].
      unfold get_cell. now rewrite Hv, Hat.
    + unfold can_place_word. apply can_place_loop_true. intros i c Hi.
      rewrite Z.add_0_l. destruct (Hspell i c Hi) as [Hv Hat].
      split; [assumption|]. exists (String c EmptyString). auto.
Qed.

Lemma add_placement_after_can_place_word_witness :
  (grid_wf sample_puzzle
   /\ can_place_word sample_puzzle CAT (mkPosition 0 0)
        Directions.HORIZONTAL_RIGHT = Ok true)
  /\ exists p',
       add_placement
         (WordPlacement_new CAT (mkPosition 0 0) Directions.HORIZONTAL_RIGHT)
         sample_puzzle = (Ok tt, p')
       /\ can_place_word p' CAT (mkPosition 0 0) Directions.HORIZONTAL_RIGHT
          = Ok true.
Proof.
  assert (Hcan : can_place_word sample_puzzle CAT (mkPosition 0 0)
                   Directions.HORIZONTAL_RIGHT = Ok true) by reflexivity.
  split; [split; [exact sample_puzzle_wf | exact Hcan]|].
  destruct (add_placement_after_can_place_word sample_puzzle CAT
              (mkPosition 0 0) Directions.HORIZONTAL_RIGHT
              sample_puzzle_wf Hcan)
    as (p' & Hrun & _ & _ & _ & _ & Hmoves).
  exists p'. split; [exact Hrun|].
  apply Hmoves. right. discriminate.
Defined.

Lemma add_placement_loop_overrun pl ps : forall i p,
  grid_wf p ->
  Forall (fun pos => is_valid_position p pos = true) ps ->
  (i <= Word_len (word pl) < i + length ps)%nat ->
  exists p',
    add_placement_loop pl i ps p = (Raise IndexError, p')
    /\ placements p' = placements p /\ grid_size p' = grid_size p.
Proof.
  induction ps as [|pos rest IH]; intros i p Hwf Hall Hlen; simpl in *;
    [lia|].
  inversion Hall as [|? ? Hv Hrest]; subst.
  unfold get_character_at. rewrite str_index_get.
  destruct (String.get i (value (word pl))) as [c|] eqn:Hi.
  - apply get_Some_lt in Hi.
    destruct (set_cell_valid p pos (String c EmptyString) Hwf Hv)
      as (p1 & Hset & Hgs & Hws & Hpls & Hwf1 & _ & _).
    unfold bind at 1. unfold lift_res.
    rewrite (bind_ok _ _ _ _ _ Hset).
    destruct (IH (S i) p1 Hwf1) as (p' & Hrun & Hp' & Hg').
    + eapply Forall_impl; [exact Hrest|]. intros q Hq.
      unfold is_valid_position in *. now rewrite Hgs.
    + unfold Word_len in *. lia.
    + exists p'. rewrite Hrun. split_and!; congruence.
  - exists p. unfold bind, lift_res. auto.
Qed.

(** A placement built with an explicit path (the [positions] argument of
    the dataclass) whose cells all lie inside the grid: [add_placement]
    succeeds exactly when the path is no longer than the word, and
    otherwise raises [IndexError] without recording the placement. *)
Theorem add_placement_explicit_path (p : Puzzle) (w : Word)
    (start : Position) (d : Direction) (ps : list Position) :
  grid_wf p -> ps <> [] ->
  Forall (fun pos => is_valid_position p pos = true) ps ->
  exists p',
    add_placement (WordPlacement_init w start d ps) p
    = (if bool_decide (length ps <= Word_len w)%nat
       then Ok tt else Raise IndexError, p')
    /\ placements p'
       = (if bool_decide (length ps <= Word_len w)%nat
          then placements p ++ [WordPlacement_init w start d ps]
          else placements p).
Proof.
  intros Hwf Hne Hall.
  assert (Hps : positions (WordPlacement_init w start d ps) = ps)
    by (destruct ps; [contradiction | reflexivity]).
  case_bool_decide as Hlen.
  - destruct (add_placement_ok p (WordPlacement_init w start d ps) Hwf)
      as (p' & Hrun & _ & _ & Hpls & _); [now rewrite Hps| now rewrite Hps|].
    exists p'. auto.
  - destruct (add_placement_loop_overrun (WordPlacement_init w start d ps)
                ps 0 p Hwf Hall) as (p' & Hrun & Hpls & _);
      [simpl; lia|].
    exists p'. split; [|assumption].
    unfold add_placement. rewrite Hps.
    now rewrite (bind_raise _ _ _ _ _ Hrun).
Qed.

Lemma add_placement_explicit_path_witness :
  (grid_wf sample_puzzle
   /\ [mkPosition 0 0; mkPosition 0 1; mkPosition 0 2; mkPosition 0 3] <> []
   /\ Forall (fun pos => is_valid_position sample_puzzle pos = true)
        [mkPosition 0 0; mkPosition 0 1; mkPosition 0 2; mkPosition 0 3])
  /\ exists p',
       add_placement
         (WordPlacement_init CAT (mkPosition 0 0) Directions.HORIZONTAL_RIGHT
            [mkPosition 0 0; mkPosition 0 1; mkPosition 0 2; mkPosition 0 3])
         sample_puzzle
       = (Raise IndexError, p')
       /\ placements p' = [].
Proof.
  assert (Hne : [mkPosition 0 0; mkPosition 0 1; mkPosition 0 2;
                 mkPosition 0 3] <> []) by discriminate.
  assert (Hall : Forall (fun pos => is_valid_position sample_puzzle pos = true)
                   [mkPosition 0 0; mkPosition 0 1; mkPosition 0 2;
                    mkPosition 0 3]) by (repeat constructor).
  split; [split_and!; [exact sample_puzzle_wf | exact Hne | exact Hall]|].
  exact (add_placement_explicit_path sample_puzzle CAT (mkPosition 0 0)
           Directions.HORIZONTAL_RIGHT _ sample_puzzle_wf Hne Hall).
Defined.

(* ------------------------------------------------------------------ *)
(** ** Direction balancer *)

(** [increment] always adds exactly one to exactly one counter and
    leaves [total_words] alone; for a catalog direction that counter is
    the one of the category [Directions.by_type] lists it under. *)
Theorem increment_one_category (b : DirectionBalancer) (d : Direction) :
  total_words (increment b d) = total_words b
  /\ (exists t, counts (increment b d) t = counts b t + 1
               /\ forall t', t' <> t ->
                    counts (increment b d) t' = counts b t')
  /\ (forall t, d ∈ Directions.by_type t ->
        counts (increment b d) t = counts b t + 1).
Proof.
  split_and!.
  - unfold increment. now destruct (is_horizontal d), (is_vertical d).
  - unfold increment.
    destruct (is_horizontal d); [exists HORIZONTAL|];
      [|destruct (is_vertical d); [exists VERTICAL | exists DIAGONAL]];
      simpl; unfold bump; (split;
        [now rewrite bool_decide_eq_true_2
        |intros t' Hne; now rewrite bool_decide_eq_false_2]).
  - intros t Hd. apply list_elem_of_In in Hd.
    destruct t; simpl in Hd;
      repeat (destruct Hd as [<-|Hd]; [reflexivity|]); destruct Hd.
Qed.

(** Whatever the counters and the word index, [get_priority_directions]
    returns each of the eight catalog directions exactly once: balancing
    reorders the directions and never withholds one. *)
Theorem get_priority_directions_complete (b : DirectionBalancer) (i : Z) :
  get_priority_directions b i ≡ₚ Directions.all
  /\ NoDup (get_priority_directions b i)
  /\ length (get_priority_directions b i) = 8%nat.
Proof.
  pose proof (priority_directions_perm b i) as Hp.
  split_and!.
  - exact Hp.
  - rewrite Hp. unfold Directions.all.
    repeat (apply NoDup_cons_2;
            [rewrite list_elem_of_In; simpl; intuition discriminate|]).
    apply NoDup_nil_2.
  - now rewrite Hp.
Qed.

(* ------------------------------------------------------------------ *)
(** ** Words *)

Lemma upper_char_idem c : upper_char (upper_char c) = upper_char c.
Proof.
  destruct c as [[] [] [] [] [] [] [] []]; reflexivity.
Qed.

Lemma upper_lower_char c : upper_char (lower_char c) = upper_char c.
Proof.
  destruct c as [[] [] [] [] [] [] [] []]; reflexivity.
Qed.

Lemma upper_idem s : upper (upper s) = upper s.
Proof. induction s; simpl; [|rewrite upper_char_idem]; congruence. Qed.

Lemma upper_lower s : upper (lower s) = upper s.
Proof. induction s; simpl; [|rewrite upper_lower_char]; congruence. Qed.

Lemma upper_length s : String.length (upper s) = String.length s.
Proof. induction s; simpl; congruence. Qed.

Lemma upper_char_isascii c :
  (nat_of_ascii c <? 128)%nat = true ->
  (nat_of_ascii (upper_char c) <? 128)%nat = true.
Proof.
  destruct c as [[] [] [] [] [] [] [] []]; vm_compute; congruence.
Qed.

Lemma upper_isascii s : isascii s = true -> isascii (upper s) = true.
Proof.
  induction s as [|c r IH]; [reflexivity|]. cbn [isascii upper].
  rewrite !andb_true_iff. intros [Hc Hr].
  split; [now apply upper_char_isascii | now apply IH].
Qed.

(** [Word] construction on ASCII text: the empty string is rejected
    with [ValueError]; any other string gives a word of the same length
    holding its upper-case form, again ASCII, so that construction is
    case-insensitive and rebuilding a word from its own value changes
    nothing. *)
Theorem Word_new_normalises (s : string) :
  isascii s = true ->
  Word_new (lower s) = Word_new s
  /\ Word_new (upper s) = Word_new s
  /\ match Word_new s with
     | Ok w => s <> EmptyString
               /\ value w = upper s
               /\ isascii (value w) = true
               /\ Word_len w = String.length s
               /\ Word_new (value w) = Ok w
     | Raise e => s = EmptyString /\ e = ValueError
     end.
Proof.
  intros Hascii.
  destruct s as [|c r]; [now split_and!|].
  split_and!.
  - unfold Word_new. simpl. now rewrite upper_lower_char, upper_lower.
  - unfold Word_new. simpl. now rewrite upper_char_idem, upper_idem.
  - cbn [Word_new value]. split_and!; [discriminate|reflexivity| | |].
    + now apply upper_isascii.
    + unfold Word_len. simpl. now rewrite upper_length.
    + unfold Word_new. simpl. now rewrite upper_char_idem, upper_idem.
Qed.

Lemma Word_new_normalises_witness :
  isascii "Cat" = true
  /\ Word_new (lower "Cat") = Word_new "Cat"
  /\ Word_new (upper "Cat") = Word_new "Cat".
Proof.
  assert (Hascii : isascii "Cat" = true) by reflexivity.
  split; [exact Hascii|].
  destruct (Word_new_normalises "Cat" Hascii) as (Hlower & Hupper & _).
  split; [exact Hlower | exact Hupper].
Defined.

(* ------------------------------------------------------------------ *)
(** ** Filling a grid that is already full *)

Lemma fill_cell_noop pos w :
  cell_filled (w_puzzle w) pos -> fill_cell pos w = (Ok tt, w).
Proof.
  intros (Hv & cell & Hat & Hne).
  unfold fill_cell, bind, get_puzzle, lift_res, get_cell.
  rewrite Hv, Hat. simpl.
  now rewrite bool_decide_eq_false_2.
Qed.

Lemma for_each_noop {S A} (body : A -> M S unit) (xs : list A) (s : S) :
  (forall x, x ∈ xs -> body x s = (Ok tt, s)) ->
  for_each xs body s = (Ok tt, s).
Proof.
  induction xs as [|x rest IH]; intros H; simpl; [reflexivity|].
  unfold bind. rewrite (H x) by now left.
  apply IH. intros y Hy. apply H. now right.
Qed.

Lemma fill_empty_cells_noop w :
  (forall q, is_valid_position (w_puzzle w) q = true ->
             cell_filled (w_puzzle w) q) ->
  fill_empty_cells w = (Ok tt, w).
Proof.
  intros Hfull. unfold fill_empty_cells, bind, get_puzzle.
  apply for_each_noop. intros r Hr.
  apply for_each_noop. intros c Hc.
  apply fill_cell_noop, Hfull, valid_position_bounds.
  apply elem_of_seqZ in Hr, Hc. simpl. lia.
Qed.

Lemma no_sentinel_cell_filled p q :
  no_sentinel p -> grid_wf p -> is_valid_position p q = true ->
  cell_filled p q.
Proof.
  intros Hns Hwf Hv. split; [assumption|].
  destruct (grid_at_valid p q Hwf Hv) as [cell Hat].
  exists cell. split; [assumption|].
  unfold grid_at in Hat.
  destruct (grid p !! Z.to_nat (row q)) as [line|] eqn:Hl; [|discriminate].
  unfold no_sentinel in Hns. rewrite Forall_lookup in Hns.
  specialize (Hns _ _ Hl). rewrite Forall_lookup in Hns.
  exact (Hns _ _ Hat).
Qed.

(** [fill_empty_cells] never raises on a well-formed grid, leaves no
    empty cell, and is idempotent: run again on its own result, or on
    any grid without an empty cell, it changes no cell and draws no
    random number. *)
Theorem fill_empty_cells_idempotent (w0 : World) :
  grid_wf (w_puzzle w0) ->
  exists w1,
    fill_empty_cells w0 = (Ok tt, w1)
    /\ no_sentinel (w_puzzle w1)
    /\ fill_empty_cells w1 = (Ok tt, w1)
    /\ (no_sentinel (w_puzzle w0) -> w1 = w0).
Proof.
  intros Hwf.
  destruct (fill_empty_cells_spec w0 Hwf) as (w1 & Hrun & Hwf1 & Hff & Hfull).
  assert (Hfull1 : forall q, is_valid_position (w_puzzle w1) q = true ->
                             cell_filled (w_puzzle w1) q).
  { intros q Hq. apply Hfull. destruct Hff as (Hgs & _).
    unfold is_valid_position in *. now rewrite <- Hgs. }
  exists w1. split_and!; auto.
  - now apply all_cells_filled_no_sentinel.
  - now apply fill_empty_cells_noop.
  - intros Hns.
    rewrite fill_empty_cells_noop in Hrun; [congruence|].
    intros q Hq. now apply no_sentinel_cell_filled.
Qed.

Lemma fill_empty_cells_idempotent_witness :
  grid_wf (w_puzzle sample_world)
  /\ exists w1,
       fill_empty_cells sample_world = (Ok tt, w1)
       /\ no_sentinel (w_puzzle w1)
       /\ fill_empty_cells w1 = (Ok tt, w1).
Proof.
  split; [exact sample_puzzle_wf|].
  destruct (fill_empty_cells_idempotent sample_world sample_puzzle_wf)
    as (w1 & Hrun & Hns & Hagain & _).
  exists w1. split_and!; assumption.
Defined.

(* ------------------------------------------------------------------ *)
(** ** Edge cases of [generate] *)

Lemma shuffle_nil {A} w : shuffle (@nil A) w = (Ok [], w).
Proof. reflexivity. Qed.

(** With [max_attempts <= 0] the loop body never runs: [generate]
    returns [False] and neither the puzzle (not even reset) nor the
    random source is touched.  With at least one attempt and an empty
    word list the first attempt is accepted: nothing is placed and
    every cell gets a filler letter. *)
Theorem generate_edge_cases (max_attempts : Z) (w0 : World) :
  (max_attempts <= 0 -> generate max_attempts w0 = (Ok false, w0))
  /\ (0 < max_attempts -> words (w_puzzle w0) = [] ->
      exists w', generate max_attempts w0 = (Ok true, w')
                 /\ placements (w_puzzle w') = []
                 /\ grid_size (w_puzzle w') = grid_size (w_puzzle w0)
                 /\ no_sentinel (w_puzzle w')).
Proof.
  split.
  - intros Hle. unfold generate, bind, get_puzzle.
    replace (Z.to_nat max_attempts) with 0%nat by lia. reflexivity.
  - intros Hpos Hws.
    destruct (Z.to_nat max_attempts) as [|n] eqn:Hn; [lia|].
    set (w1 := mkWorld (reset (w_puzzle w0)) (w_rng w0)).
    assert (Hatt : attempt [] w0 = (Ok true, w1)) by reflexivity.
    destruct (fill_empty_cells_spec w1 (reset_wf _))
      as (w' & Hfill & Hwf' & Hff & Hfull).
    exists w'.
    assert (Hrun : generate max_attempts w0 = (Ok true, w')).
    { unfold generate, bind at 1, get_puzzle. rewrite Hws, Hn.
      change (sorted_by_len_desc []) with (@nil Word).
      cbn [generate_loop]. rewrite (bind_ok _ _ _ _ _ Hatt).
      now rewrite (bind_ok _ _ _ _ _ Hfill). }
    destruct Hff as (Hgs & _ & Hpls & _).
    split_and!; auto.
    apply all_cells_filled_no_sentinel; [assumption|].
    intros q Hq. apply Hfull. unfold is_valid_position in *.
    now rewrite <- Hgs.
Qed.

Lemma generate_edge_cases_witness :
  exists w',
    generate 1 (mkWorld (Puzzle_new 5 []) []) = (Ok true, w')
    /\ placements (w_puzzle w') = []
    /\ grid_size (w_puzzle w') = 5
    /\ no_sentinel (w_puzzle w').
Proof.
  apply (proj2 (generate_edge_cases 1 (mkWorld (Puzzle_new 5 []) [])));
    [lia | reflexivity].
Defined.

(* ------------------------------------------------------------------ *)
(** ** What [_generate_puzzles] returns *)

Lemma run_generate_accepted strategy_max gs ws tape p tape' :
  run_generate strategy_max (Puzzle_new gs ws) tape = (Ok (true, p), tape') ->
  accepted_puzzle gs ws p.
Proof.
  unfold run_generate. intros H.
  destruct (generate strategy_max (mkWorld (Puzzle_new gs ws) tape))
    as [[b|e] w'] eqn:Hg; [|discriminate].
  inversion H; subst.
  destruct (generate_accepted _ _ _ Hg) as (Hinv & Hgs & Hws & Hperm & _ & Hns).
  simpl in *. unfold accepted_puzzle. split_and!; auto.
  unfold is_complete. rewrite Hws.
  apply Permutation_length in Hperm. rewrite length_fmap in Hperm.
  apply Nat.leb_le. lia.
Qed.

Lemma first_calls_accepted strategy_max gs ws (k : nat) : forall tape,
  Forall (accepted_puzzle gs ws) (fst (first_calls strategy_max gs ws k tape)).
Proof.
  induction k as [|k IH]; intros tape; simpl; [constructor|].
  destruct (run_generate strategy_max (Puzzle_new gs ws) tape)
    as [[[b p]|e] tape'] eqn:Hr; [|apply IH].
  destruct b; [|apply IH].
  specialize (IH tape').
  destruct (first_calls strategy_max gs ws k tape') as [ps t]. simpl in *.
  constructor; [|assumption].
  eapply run_generate_accepted; eauto.
Qed.

Lemma generate_puzzles_results strategy_max gs ws count tape :
  exists puzzles tape',
    _generate_puzzles strategy_max gs ws count tape = (Ok puzzles, tape')
    /\ Forall (accepted_puzzle gs ws) puzzles
    /\ Z.of_nat (length puzzles) <= Z.max 0 count
    /\ (count <= 0 -> puzzles = [] /\ tape' = tape).
Proof.
  unfold _generate_puzzles.
  destruct (generate_puzzles_loop_spec strategy_max gs ws count
              (Z.to_nat (count * 10)) [] tape)
    as (k & new & tape' & Hrun & Hk & Hfirst & _ & Hbound).
  exists new, tape'. split_and!.
  - exact Hrun.
  - pose proof (first_calls_accepted strategy_max gs ws k tape) as H.
    now rewrite Hfirst in H.
  - apply Hbound. simpl. lia.
  - intros Hle. assert (k = 0%nat) by lia. subst k.
    simpl in Hfirst. now inversion Hfirst.
Qed.

(** [_generate_puzzles] never raises.  Every puzzle it returns was
    accepted by the strategy: it has the requested size and words, its
    placements are the requested words (one each), each placement lies
    inside the grid and is spelled by it, and no cell is empty.  With
    [count <= 0] it returns the empty list without a random draw. *)
Theorem generate_puzzles_all_accepted (strategy_max gs : Z) (ws : list Word)
    (count : Z) (tape : list nat) :
  exists puzzles tape',
    _generate_puzzles strategy_max gs ws count tape = (Ok puzzles, tape')
    /\ Forall (accepted_puzzle gs ws) puzzles
    /\ (count <= 0 -> puzzles = [] /\ tape' = tape).
Proof.
  destruct (generate_puzzles_results strategy_max gs ws count tape)
    as (puzzles & tape' & Hrun & Hall & _ & Hzero).
  eauto.
Qed.

(* ------------------------------------------------------------------ *)
(** ** Configuration validation *)

Lemma foldl_max_spec (rest : list nat) : forall x : nat,
  (x <= foldl Nat.max x rest)%nat
  /\ Forall (fun y => (y <= foldl Nat.max x rest)%nat) rest.
Proof.
  induction rest as [|y rest IH]; intros x; simpl; [split; [lia|constructor]|].
  destruct (IH (Nat.max x y)) as [Hx Hrest]. split; [lia|].
  constructor; [lia | assumption].
Qed.

Lemma foldl_max_bound (rest : list nat) (b : nat) : forall x : nat,
  (x <= b)%nat -> Forall (fun y => (y <= b)%nat) rest ->
  (foldl Nat.max x rest <= b)%nat.
Proof.
  induction rest as [|y rest IH]; intros x Hx Hall; simpl; [assumption|].
  inversion Hall; subst. apply IH; [lia | assumption].
Qed.

Lemma validate_words_iff ws gs :
  PuzzleConfigValidator.validate_words ws gs
  = if bool_decide (ws <> []
                    /\ Forall (fun w => Z.of_nat (Word_len w) <= gs) ws)
    then Ok tt else Raise ValueError.
Proof.
  case_bool_decide as H; unfold PuzzleConfigValidator.validate_words.
  - destruct H as [Hne Hall]. destruct ws as [|w rest]; [contradiction|].
    cbn [length Nat.eqb fmap list_fmap py_max].
    inversion Hall as [|? ? Hfit Hfits]; subst.
    assert (Hm : (foldl Nat.max (Word_len w) (Word_len <$> rest)
                  <= Z.to_nat gs)%nat).
    { apply foldl_max_bound; [lia|].
      apply Forall_fmap. eapply Forall_impl; [exact Hfits|].
      simpl. intros; lia. }
    destruct (Z.ltb_spec gs
                (Z.of_nat (foldl Nat.max (Word_len w) (Word_len <$> rest))));
      [lia | reflexivity].
  - destruct ws as [|w rest]; [reflexivity|].
    cbn [length Nat.eqb fmap list_fmap py_max].
    destruct (foldl_max_spec (Word_len <$> rest) (Word_len w)) as [Hw Hrest].
    destruct (Z.ltb_spec gs
                (Z.of_nat (foldl Nat.max (Word_len w) (Word_len <$> rest))));
      [reflexivity|].
    exfalso. apply H. split; [discriminate|]. constructor; [lia|].
    apply Forall_fmap in Hrest. eapply Forall_impl; [exact Hrest|].
    simpl. intros; lia.
Qed.

Lemma validate_grid_size_iff size :
  PuzzleConfigValidator.validate_grid_size size
  = if bool_decide (5 <= size <= 30) then Ok tt else Raise ValueError.
Proof.
  unfold PuzzleConfigValidator.validate_grid_size,
    PuzzleConfigValidator.MIN_GRID_SIZE, PuzzleConfigValidator.MAX_GRID_SIZE.
  destruct (size <? 5) eqn:H1; [apply Z.ltb_lt in H1 | apply Z.ltb_ge in H1].
  - rewrite bool_decide_eq_false_2; [reflexivity | lia].
  - destruct (30 <? size) eqn:H2;
      [apply Z.ltb_lt in H2 | apply Z.ltb_ge in H2].
    + rewrite bool_decide_eq_false_2; [reflexivity | lia].
    + rewrite bool_decide_eq_true_2; [reflexivity | lia].
Qed.

Lemma validate_configuration_iff gs ws :
  GeneratePuzzleUseCase._validate_configuration
    (validator := PuzzleConfigValidator.validator) gs ws = Ok tt
  <-> 5 <= gs <= 30 /\ ws <> []
      /\ Forall (fun w => Z.of_nat (Word_len w) <= gs) ws.
Proof.
  unfold GeneratePuzzleUseCase._validate_configuration. simpl.
  rewrite validate_grid_size_iff, validate_words_iff.
  repeat case_bool_decide; split; intros Hx; try discriminate;
    try reflexivity; tauto.
Qed.

(** The configuration check of the generation use case, with the
    validator the application is wired with: it passes exactly when the
    grid size is between 5 and 30, the word list is not empty and no
    word is longer than the grid; every rejection is a [ValueError]; and
    the grid-size check accepts the sizes the [GridSize] value object
    accepts. *)
Theorem validate_configuration_accepts (gs : Z) (ws : list Word) :
  (GeneratePuzzleUseCase._validate_configuration
     (validator := PuzzleConfigValidator.validator) gs ws = Ok tt
   <-> 5 <= gs <= 30 /\ ws <> []
       /\ Forall (fun w => Z.of_nat (Word_len w) <= gs) ws)
  /\ (forall e,
        GeneratePuzzleUseCase._validate_configuration
          (validator := PuzzleConfigValidator.validator) gs ws = Raise e ->
        e = ValueError)
  /\ (PuzzleConfigValidator.validate_grid_size gs = Ok tt
      <-> GridSize_new gs = Ok gs).
Proof.
  split_and!.
  - apply validate_configuration_iff.
  - intros e. unfold GeneratePuzzleUseCase._validate_configuration. simpl.
    rewrite validate_grid_size_iff, validate_words_iff.
    repeat case_bool_decide; congruence.
  - rewrite validate_grid_size_iff. unfold GridSize_new.
    case_bool_decide as H.
    + destruct (gs <? 5) eqn:H1; [apply Z.ltb_lt in H1; lia|].
      destruct (30 <? gs) eqn:H2; [apply Z.ltb_lt in H2; lia|]. tauto.
    + split; [discriminate|].
      destruct (gs <? 5) eqn:H1; [discriminate|].
      destruct (30 <? gs) eqn:H2; [discriminate|].
      apply Z.ltb_ge in H1, H2. lia.
Qed.

(* ------------------------------------------------------------------ *)
(** ** Building the word list *)

Lemma map_res_Word_new_ok strs :
  Forall (fun s => s <> EmptyString) strs ->
  map_res Word_new strs = Ok ((fun s => mkWord (upper s)) <$> strs).
Proof.
  induction 1 as [|s rest Hs _ IH]; [reflexivity|].
  cbn [map_res]. rewrite IH.
  destruct s; [contradiction | reflexivity].
Qed.

Lemma map_res_Word_new_raise strs :
  ~ Forall (fun s => s <> EmptyString) strs ->
  map_res Word_new strs = Raise ValueError.
Proof.
  induction strs as [|s rest IH]; intros H; [destruct H; constructor|].
  cbn [map_res]. destruct s as [|c r]; [reflexivity|].
  rewrite IH; [reflexivity|].
  intros Hrest. apply H. constructor; [discriminate | assumption].
Qed.

Lemma map_res_Word_new strs :
  map_res Word_new strs
  = if bool_decide (Forall (fun s => s <> EmptyString) strs)
    then Ok ((fun s => mkWord (upper s)) <$> strs)
    else Raise ValueError.
Proof.
  case_bool_decide;
    [now apply map_res_Word_new_ok | now apply map_res_Word_new_raise].
Qed.

Lemma map_res_Word_new_nonempty strs ws :
  map_res Word_new strs = Ok ws ->
  length ws = length strs
  /\ Forall (fun w => (1 <= Word_len w)%nat) ws.
Proof.
  rewrite map_res_Word_new. case_bool_decide as H; [|discriminate].
  intros Heq. inversion Heq; subst. split; [apply length_fmap|].
  apply Forall_fmap. eapply Forall_impl; [exact H|].
  intros s Hs. unfold Word_len. simpl. rewrite upper_length.
  destruct s; [contradiction | simpl; lia].
Qed.

(** After the configuration check has passed, any word of the list is
    placed by [try_place_word] on the fresh puzzle, with whatever
    directions the balancer proposes and whatever the random draws: an
    attempt can only fail from its second word on, or at the coverage
    test. *)
Theorem validated_word_placed_on_fresh_puzzle (gs : Z) (ws : list Word)
    (w : Word) (b : DirectionBalancer) (i : Z) (tape : list nat) :
  GeneratePuzzleUseCase._validate_configuration
    (validator := PuzzleConfigValidator.validator) gs ws = Ok tt ->
  w ∈ ws -> (1 <= Word_len w)%nat ->
  exists directions' w',
    try_place_word w (get_priority_directions b i)
      (mkWorld (Puzzle_new gs ws) tape)
    = (Ok (true, directions'), w')
    /\ length (placements (w_puzzle w')) = 1%nat.
Proof.
  intros Hval Hin Hlen.
  apply validate_configuration_iff in Hval. destruct Hval as (_ & _ & Hfit).
  rewrite Forall_forall in Hfit. specialize (Hfit w Hin).
  change (Puzzle_new gs ws) with (reset (Puzzle_new gs ws)).
  apply try_place_word_on_empty; try assumption.
  - intros Hnil. pose proof (priority_directions_perm b i) as Hp.
    rewrite Hnil in Hp. apply Permutation_length in Hp. discriminate.
  - apply Forall_forall. intros d Hd.
    now rewrite <- (priority_directions_perm b i).
Qed.

Lemma validated_word_placed_on_fresh_puzzle_witness :
  exists directions' w',
    try_place_word CAT (get_priority_directions (DirectionBalancer_new 3) 0)
      (mkWorld (Puzzle_new 5 [CAT; DOG; SUN]) [0; 0; 4]%nat)
    = (Ok (true, directions'), w')
    /\ length (placements (w_puzzle w')) = 1%nat.
Proof.
  apply (validated_word_placed_on_fresh_puzzle 5 [CAT; DOG; SUN] CAT
           (DirectionBalancer_new 3) 0 [0; 0; 4]%nat).
  - reflexivity.
  - now left.
  - vm_compute. lia.
Defined.

(* ------------------------------------------------------------------ *)
(** ** The validation use case *)

Lemma upper_fits gs strs :
  Forall (fun w => Z.of_nat (Word_len w) <= gs)
         ((fun s => mkWord (upper s)) <$> strs)
  <-> Forall (fun s => Z.of_nat (String.length s) <= gs) strs.
Proof.
  rewrite Forall_fmap. apply Forall_proper; [|reflexivity].
  intros s. unfold Word_len. simpl. now rewrite upper_length.
Qed.

Lemma validate_config_errors gs strs :
  errors (ValidateConfigUseCase.execute
            (validator := PuzzleConfigValidator.validator)
            (mkValidateConfigRequest gs strs))
  = (if bool_decide (5 <= gs <= 30) then [] else [ValueError])
    ++ (if bool_decide (Forall (fun s => s <> EmptyString) strs
                        /\ strs <> []
                        /\ Forall (fun s => Z.of_nat (String.length s) <= gs)
                                  strs)
        then [] else [ValueError]).
Proof.
  unfold ValidateConfigUseCase.execute.
  cbn [errors vreq_grid_size vreq_words validate_grid_size validate_words
       PuzzleConfigValidator.validator].
  rewrite validate_grid_size_iff, map_res_Word_new.
  assert (Hiff : (fun s => mkWord (upper s)) <$> strs <> []
                 /\ Forall (fun w => Z.of_nat (Word_len w) <= gs)
                           ((fun s => mkWord (upper s)) <$> strs)
                 <-> strs <> []
                     /\ Forall (fun s => Z.of_nat (String.length s) <= gs)
                               strs).
  { rewrite upper_fits. destruct strs; simpl; [tauto|].
    split; intros [_ H]; (split; [discriminate | exact H]). }
  destruct (decide (Forall (fun s => s <> EmptyString) strs)) as [Hne|Hne].
  - rewrite (bool_decide_eq_true_2 _ Hne), validate_words_iff.
    repeat case_bool_decide; try reflexivity; exfalso; tauto.
  - rewrite (bool_decide_eq_false_2 _ Hne).
    repeat case_bool_decide; try reflexivity; exfalso; tauto.
Qed.

Lemma validate_config_valid gs strs :
  valid (ValidateConfigUseCase.execute
           (validator := PuzzleConfigValidator.validator)
           (mkValidateConfigRequest gs strs)) = true
  <-> 5 <= gs <= 30
      /\ Forall (fun s => s <> EmptyString) strs /\ strs <> []
      /\ Forall (fun s => Z.of_nat (String.length s) <= gs) strs.
Proof.
  change (valid _)
    with (length (errors (ValidateConfigUseCase.execute
                            (validator := PuzzleConfigValidator.validator)
                            (mkValidateConfigRequest gs strs))) =? 0)%nat.
  rewrite validate_config_errors.
  repeat case_bool_decide; simpl; split; intros Hx; try discriminate;
    try reflexivity; tauto.
Qed.

(** [ValidateConfigUseCase.execute] with the application's validator,
    on ASCII words: it reports at most two errors, and reports the
    configuration valid exactly when the grid size is between 5 and 30,
    the list of words is not empty, and every word is non-empty and no
    longer than the grid.  A configuration it reports valid passes the
    loading and checking steps of the generation use case. *)
Theorem validate_config_execute_spec (gs : Z) (strs : list string) :
  Forall (fun s => isascii s = true) strs ->
  let response :=
    ValidateConfigUseCase.execute
      (validator := PuzzleConfigValidator.validator)
      (mkValidateConfigRequest gs strs) in
  (valid response = true <-> errors response = [])
  /\ (length (errors response) <= 2)%nat
  /\ (valid response = true
      <-> 5 <= gs <= 30 /\ strs <> []
          /\ Forall (fun s => s <> EmptyString
                              /\ Z.of_nat (String.length s) <= gs) strs)
  /\ (valid response = true ->
      forall (word_repository : IWordRepository) count out ttl,
      exists ws,
        GeneratePuzzleUseCase._load_words
          (mkGeneratePuzzleRequest gs (Some strs) None count out ttl)
        = Returns ws
        /\ GeneratePuzzleUseCase._validate_configuration
             (validator := PuzzleConfigValidator.validator) gs ws = Ok tt).
Proof.
  intros Hascii. cbv zeta. split_and!.
  - change (valid _)
      with (length (errors (ValidateConfigUseCase.execute
                              (validator := PuzzleConfigValidator.validator)
                              (mkValidateConfigRequest gs strs))) =? 0)%nat.
    rewrite Nat.eqb_eq. apply length_zero_iff_nil.
  - rewrite validate_config_errors. repeat case_bool_decide; simpl; lia.
  - rewrite validate_config_valid, Forall_and. tauto.
  - intros Hvalid word_repository count out ttl.
    apply validate_config_valid in Hvalid.
    destruct Hvalid as (Hgs & Hne & Hnil & Hfit).
    exists ((fun s => mkWord (upper s)) <$> strs). split.
    + unfold GeneratePuzzleUseCase._load_words.
      cbn [req_word_file req_words].
      destruct strs as [|s rest]; [contradiction|].
      now rewrite map_res_Word_new_ok.
    + apply validate_configuration_iff. split; [lia|]. split.
      * intros Hnil'. now apply fmap_nil_inv in Hnil'.
      * now apply upper_fits.
Qed.

Lemma validate_config_execute_spec_witness :
  Forall (fun s => isascii s = true) ["cat"; "dog"]
  /\ valid (ValidateConfigUseCase.execute
              (validator := PuzzleConfigValidator.validator)
              (mkValidateConfigRequest 5 ["cat"; "dog"])) = true.
Proof.
  assert (Hascii : Forall (fun s => isascii s = true) ["cat"; "dog"])
    by (repeat constructor).
  split; [exact Hascii|].
  destruct (validate_config_execute_spec 5 ["cat"; "dog"] Hascii)
    as (Hvalid & _).
  apply Hvalid. reflexivity.
Defined.

(* ------------------------------------------------------------------ *)
(** ** Loading the words *)

Lemma default_words_lengths :
  exists ws,
    FileWordRepository.get_default_words = Ok ws
    /\ Word_len <$> ws = [7; 6; 8; 6; 6; 5; 4; 8; 3; 6; 8; 6]%nat.
Proof. eexists. split; reflexivity. Qed.

(** A request without a word file whose word list is missing or empty
    gets the repository's default words ([ValidateConfigUseCase] calls
    the empty list invalid; the generation use case replaces it).  With
    the defaults of [FileWordRepository], twelve words of at most eight
    letters, the configuration check then passes exactly for grid sizes
    8 to 30. *)
Theorem load_words_falls_back_to_defaults
    (word_repository : IWordRepository) (request : GeneratePuzzleRequest) :
  req_word_file request = None \/ req_word_file request = Some EmptyString ->
  req_words request = None \/ req_words request = Some [] ->
  GeneratePuzzleUseCase._load_words request = get_default_words
  /\ valid (ValidateConfigUseCase.execute
              (validator := PuzzleConfigValidator.validator)
              (mkValidateConfigRequest (req_grid_size request) [])) = false
  /\ exists ws,
       FileWordRepository.get_default_words = Ok ws
       /\ length ws = 12%nat
       /\ (GeneratePuzzleUseCase._validate_configuration
             (validator := PuzzleConfigValidator.validator)
             (req_grid_size request) ws = Ok tt
           <-> 8 <= req_grid_size request <= 30).
Proof.
  intros Hfile Hwords. split_and!.
  - unfold GeneratePuzzleUseCase._load_words.
    destruct Hfile as [-> | ->], Hwords as [-> | ->]; reflexivity.
  - apply not_true_is_false. rewrite validate_config_valid. tauto.
  - destruct default_words_lengths as (ws & Hws & Hlens).
    exists ws. split; [assumption|]. split.
    + rewrite <- (length_fmap Word_len), Hlens. reflexivity.
    + rewrite validate_configuration_iff.
      assert (Hfit : Forall (fun w => Z.of_nat (Word_len w)
                                      <= req_grid_size request) ws
                     <-> 8 <= req_grid_size request).
      { rewrite <- (Forall_fmap Word_len
                      (fun n => Z.of_nat n <= req_grid_size request)).
        rewrite Hlens, !Forall_cons, Forall_nil. lia. }
      rewrite Hfit.
      assert (ws <> []) by (intros ->; discriminate).
      intuition lia.
Qed.

Lemma load_words_falls_back_to_defaults_witness :
  GeneratePuzzleUseCase._load_words
    (word_repository := sample_word_repository)
    (mkGeneratePuzzleRequest 9 (Some []) None 10 "out.html" "Puzzle")
  = of_res FileWordRepository.get_default_words.
Proof.
  apply (load_words_falls_back_to_defaults sample_word_repository
           (mkGeneratePuzzleRequest 9 (Some []) None 10 "out.html" "Puzzle")).
  - now left.
  - now right.
Defined.

(* ------------------------------------------------------------------ *)
(** ** The generation use case *)

Section execute_properties.
Context {Content : Type}.
Context {word_repository : IWordRepository}.
Context {puzzle_repository : IPuzzleRepository Content}.
Context {presenter : IPuzzlePresenter Content}.

(** The guard at the head of [HTMLPuzzlePresenter.present]. *)
Hypothesis present_no_puzzles :
  forall metadata, present [] metadata = Raises (Builtin ValueError).

(** How the body of the [try] block can end. *)
Lemma execute_try_cases strategy_max request tape :
  match fst (GeneratePuzzleUseCase.execute_try
               (validator := PuzzleConfigValidator.validator)
               strategy_max request tape) with
  | Returns puzzles =>
      puzzles <> []
      /\ Z.of_nat (length puzzles) <= puzzle_count request
      /\ exists ws,
           GeneratePuzzleUseCase._load_words request = Returns ws
           /\ GeneratePuzzleUseCase._validate_configuration
                (validator := PuzzleConfigValidator.validator)
                (req_grid_size request) ws = Ok tt
           /\ Forall (accepted_puzzle (req_grid_size request) ws) puzzles
           /\ exists content,
                present puzzles
                  (mkMetadata (title request) (output_file request))
                = Returns content
                /\ save content (output_file request) = Returns tt
  | Raises e => True
  | Escapes b =>
      GeneratePuzzleUseCase._load_words request = Escapes b
      \/ exists ws puzzles tape',
           GeneratePuzzleUseCase._load_words request = Returns ws
           /\ GeneratePuzzleUseCase._validate_configuration
                (validator := PuzzleConfigValidator.validator)
                (req_grid_size request) ws = Ok tt
           /\ _generate_puzzles strategy_max (req_grid_size request) ws
                (puzzle_count request) tape = (Ok puzzles, tape')
           /\ puzzles <> []
           /\ GeneratePuzzleUseCase._save_puzzles puzzles request = Escapes b
  end.
Proof.
  unfold GeneratePuzzleUseCase.execute_try.
  destruct (GeneratePuzzleUseCase._load_words request) as [ws|e|b] eqn:Hload;
    cbn [fst]; auto.
  destruct (GeneratePuzzleUseCase._validate_configuration
              (req_grid_size request) ws) as [[]|e] eqn:Hval; cbn [fst]; auto.
  destruct (generate_puzzles_results strategy_max (req_grid_size request) ws
              (puzzle_count request) tape)
    as (ps & t & Hgen & Hacc & Hlen & _).
  rewrite Hgen.
  destruct (GeneratePuzzleUseCase._save_puzzles ps request)
    as [[]|e|b] eqn:Hsave; cbn [fst]; auto.
  - unfold GeneratePuzzleUseCase._save_puzzles in Hsave.
    destruct ps as [|p ps]; [rewrite present_no_puzzles in Hsave; discriminate|].
    destruct (present (p :: ps) _) as [content|e|b] eqn:Hpres;
      try discriminate.
    split; [discriminate|]. split; [simpl in *; lia|].
    exists ws. split_and!; auto. exists content. auto.
  - right. exists ws, ps, t. split_and!; auto.
    intros ->. unfold GeneratePuzzleUseCase._save_puzzles in Hsave.
    rewrite present_no_puzzles in Hsave. discriminate.
Qed.

(** [execute] with the application's validator and a presenter that, as
    the HTML presenter does, refuses an empty list of puzzles, for a
    request whose words are ASCII.  The call returns a response or is
    left by an exception outside [Exception] that a repository or the
    presenter raised (the word repository while loading, or the
    presenter or the puzzle repository while saving a non-empty list);
    it never lets an [Exception] through.  A response always has
    [puzzles_generated = len(puzzles)].  A failure response carries no
    puzzle, whatever had been generated, and the exception that ended the
    body.  A success response carries at least one and at most
    [puzzle_count] puzzles, all accepted by the strategy for words that
    passed the configuration check, and the document was presented and
    saved.  A request for zero puzzles (or fewer) gets a failure
    response, unless loading the words leaves the call. *)
Theorem execute_response (strategy_max : Z)
    (request : GeneratePuzzleRequest) (tape : list nat) :
  ascii_request request ->
  match fst (GeneratePuzzleUseCase.execute
               (validator := PuzzleConfigValidator.validator)
               strategy_max request tape) with
  | Returns response =>
      puzzles_generated response = length (resp_puzzles response)
      /\ (success response = false ->
          resp_puzzles response = []
          /\ exists e,
               message response = Failed_to_generate e
               /\ fst (GeneratePuzzleUseCase.execute_try
                         (validator := PuzzleConfigValidator.validator)
                         strategy_max request tape) = Raises e)
      /\ (success response = true ->
          resp_puzzles response <> []
          /\ Z.of_nat (length (resp_puzzles response)) <= puzzle_count request
          /\ exists ws,
               GeneratePuzzleUseCase._load_words request = Returns ws
               /\ GeneratePuzzleUseCase._validate_configuration
                    (validator := PuzzleConfigValidator.validator)
                    (req_grid_size request) ws = Ok tt
               /\ Forall (accepted_puzzle (req_grid_size request) ws)
                         (resp_puzzles response)
               /\ exists content,
                    present (resp_puzzles response)
                      (mkMetadata (title request) (output_file request))
                    = Returns content
                    /\ save content (output_file request) = Returns tt)
      /\ (puzzle_count request <= 0 -> success response = false)
  | Raises _ => False
  | Escapes b =>
      GeneratePuzzleUseCase._load_words request = Escapes b
      \/ (0 < puzzle_count request
          /\ exists ws puzzles tape',
               GeneratePuzzleUseCase._load_words request = Returns ws
               /\ GeneratePuzzleUseCase._validate_configuration
                    (validator := PuzzleConfigValidator.validator)
                    (req_grid_size request) ws = Ok tt
               /\ _generate_puzzles strategy_max (req_grid_size request) ws
                    (puzzle_count request) tape = (Ok puzzles, tape')
               /\ puzzles <> []
               /\ GeneratePuzzleUseCase._save_puzzles puzzles request
                  = Escapes b)
  end.
Proof.
  intros _.
  pose proof (execute_try_cases strategy_max request tape) as Hcases.
  unfold GeneratePuzzleUseCase.execute.
  destruct (GeneratePuzzleUseCase.execute_try strategy_max request tape)
    as [[puzzles|e|b] tape'] eqn:Htry;
    cbn [fst success resp_puzzles puzzles_generated message] in *.
  - destruct Hcases as (Hne & Hlen & Hrest).
    split_and!; auto; try discriminate.
    intros Hcount. destruct puzzles; [contradiction | simpl in Hlen; lia].
  - split_and!; auto; try discriminate. eauto.
  - destruct Hcases as [Hload|(ws & ps & t & Hload & Hval & Hgen & Hne & Hsave)];
      [now left|].
    right. split; [|exists ws, ps, t; split_and!; auto].
    destruct (generate_puzzles_results strategy_max (req_grid_size request) ws
                (puzzle_count request) tape)
      as (ps' & t' & Hgen' & _ & Hlen & _).
    rewrite Hgen in Hgen'. inversion Hgen'; subst ps' t'.
    destruct ps; [contradiction | simpl in Hlen; lia].
Qed.

End execute_properties.

Lemma execute_response_witness :
  ((forall metadata,
      present (IPuzzlePresenter := sample_presenter) [] metadata
      = Raises (Builtin ValueError))
   /\ ascii_request sample_request)
  /\ exists response,
       fst (GeneratePuzzleUseCase.execute
              (word_repository := sample_word_repository)
              (puzzle_repository := sample_puzzle_repository)
              (presenter := sample_presenter)
              (validator := PuzzleConfigValidator.validator)
              1 sample_request sample_tape) = Returns response
       /\ success response = true
       /\ resp_puzzles response <> [].
Proof.
  assert (Hguard : forall metadata,
             present (IPuzzlePresenter := sample_presenter) [] metadata
             = Raises (Builtin ValueError)) by reflexivity.
  assert (Hascii : ascii_request sample_request)
    by (repeat constructor).
  split; [split; [exact Hguard | exact Hascii]|].
  generalize (execute_response
                (word_repository := sample_word_repository)
                (puzzle_repository := sample_puzzle_repository)
                (presenter := sample_presenter)
                Hguard 1 sample_request sample_tape Hascii).
  destruct (fst (GeneratePuzzleUseCase.execute
                   (word_repository := sample_word_repository)
                   (puzzle_repository := sample_puzzle_repository)
                   (presenter := sample_presenter)
                   (validator := PuzzleConfigValidator.validator)
                   1 sample_request sample_tape))
    as [response|e|b] eqn:Hrun.
  - intros (_ & _ & Hsuccess & _). exists response.
    assert (Hs : success response = true).
    { vm_compute in Hrun. inversion Hrun. reflexivity. }
    split; [reflexivity|]. split; [exact Hs|].
    exact (proj1 (Hsuccess Hs)).
  - intros [].
  - vm_compute in Hrun. discriminate.
Defined.

(** With the repositories the application is wired with, which turn
    every failure of theirs into [sys.exit(1)]: neither ever raises an
    [Exception]; a request naming a word file that cannot be read gets
    no response, the call being left by [SystemExit] with code 1 before
    any random draw; and whenever the call is left, it is by
    [SystemExit] with code 1 or by what the presenter raised. *)
Theorem execute_exits_with_file_repositories
    (read_word_strings : string -> option (list string))
    (write_file : string -> string -> bool)
    (presenter : IPuzzlePresenter string)
    (strategy_max : Z) (request : GeneratePuzzleRequest) (tape : list nat) :
  let run :=
    GeneratePuzzleUseCase.execute
      (word_repository := FileWordRepository.repository read_word_strings)
      (puzzle_repository := HTMLFileRepository.repository write_file)
      (presenter := presenter)
      (validator := PuzzleConfigValidator.validator)
      strategy_max request tape in
  (forall filepath e,
     FileWordRepository.load_from_file read_word_strings filepath
     <> Raises e)
  /\ (forall content filename e,
        HTMLFileRepository.save write_file content filename <> Raises e)
  /\ (forall c f,
        req_word_file request = Some (String c f) ->
        read_word_strings (String c f) = None ->
        run = (Escapes (SystemExit 1), tape))
  /\ (forall b,
        fst run = Escapes b ->
        b = SystemExit 1
        \/ exists puzzles,
             present puzzles
               (mkMetadata (title request) (output_file request))
             = Escapes b).
Proof.
  cbv zeta. split_and!.
  - intros filepath e. unfold FileWordRepository.load_from_file.
    destruct (read_word_strings filepath) as [strs|]; [|discriminate].
    destruct (map_res Word_new strs); discriminate.
  - intros content filename e. unfold HTMLFileRepository.save.
    destruct (write_file filename content); discriminate.
  - intros c f Hfile Hread.
    unfold GeneratePuzzleUseCase.execute, GeneratePuzzleUseCase.execute_try,
      GeneratePuzzleUseCase._load_words.
    rewrite Hfile.
    cbn [load_from_file FileWordRepository.repository].
    unfold FileWordRepository.load_from_file. now rewrite Hread.
  - intros b.
    unfold GeneratePuzzleUseCase.execute, GeneratePuzzleUseCase.execute_try.
    destruct (GeneratePuzzleUseCase._load_words request)
      as [ws|e|b0] eqn:Hload; cbn [fst]; try discriminate.
    + destruct (GeneratePuzzleUseCase._validate_configuration
                  (req_grid_size request) ws) as [[]|e];
        cbn [fst]; try discriminate.
      destruct (_generate_puzzles strategy_max (req_grid_size request) ws
                  (puzzle_count request) tape) as [[ps|e] t];
        cbn [fst]; try discriminate.
      destruct (GeneratePuzzleUseCase._save_puzzles ps request)
        as [[]|e|b1] eqn:Hsave; cbn [fst]; try discriminate.
      intros Heq. inversion Heq; subst b1.
      unfold GeneratePuzzleUseCase._save_puzzles in Hsave.
      destruct (present ps _) as [content|e|b1] eqn:Hpres;
        try discriminate.
      * destruct ps; [discriminate|].
        cbn [save HTMLFileRepository.repository] in Hsave.
        unfold HTMLFileRepository.save in Hsave.
        destruct (write_file _ _); [discriminate|].
        inversion Hsave. now left.
      * inversion Hsave; subst b1. right. eauto.
    + intros Heq. inversion Heq; subst b0. left.
      unfold GeneratePuzzleUseCase._load_words in Hload.
      assert (Hdef : of_res FileWordRepository.get_default_words
                     <> Escapes b).
      { unfold of_res. destruct FileWordRepository.get_default_words;
          discriminate. }
      assert (Hfile : forall path,
                 FileWordRepository.load_from_file read_word_strings path
                 = Escapes b -> b = SystemExit 1).
      { intros path. unfold FileWordRepository.load_from_file.
        destruct (read_word_strings path) as [strs|];
          [destruct (map_res Word_new strs)|]; congruence. }
      cbn [load_from_file get_default_words FileWordRepository.repository]
        in Hload.
      destruct (req_word_file request) as [[|c f]|];
        try (now apply (Hfile _ Hload));
        (destruct (req_words request) as [[|w ws]|];
         [contradiction
         |unfold of_res in Hload;
          destruct (map_res Word_new (w :: ws)); discriminate
         |contradiction]).
Qed.

Lemma execute_exits_with_file_repositories_witness :
  GeneratePuzzleUseCase.execute
    (word_repository := FileWordRepository.repository (fun _ => None))
    (puzzle_repository := HTMLFileRepository.repository (fun _ _ => true))
    (presenter := sample_html_presenter)
    (validator := PuzzleConfigValidator.validator)
    1 sample_file_request sample_tape
  = (Escapes (SystemExit 1), sample_tape).
Proof.
  apply (proj1 (proj2 (proj2
           (execute_exits_with_file_repositories (fun _ => None)
              (fun _ _ => true) sample_html_presenter
              1 sample_file_request sample_tape))) "w"%char "ords.txt").
  - reflexivity.
  - reflexivity.
Defined.

(* ------------------------------------------------------------------ *)
(** ** The exported puzzle data *)

Lemma word_data_fold pls : forall (m : gmap string (list (list Z))),
  let m' := foldl (fun word_data placement =>
                     <[value (word placement) := path_of placement]> word_data)
                  m pls in
  (forall key path, m' !! key = Some path ->
     m !! key = Some path
     \/ exists pl, pl ∈ pls /\ value (word pl) = key /\ path = path_of pl)
  /\ dom m' = dom m ∪ list_to_set ((fun pl => value (word pl)) <$> pls).
Proof.
  induction pls as [|pl rest IH]; intros m; cbn [foldl].
  - split; [auto|]. cbv zeta.
    now rewrite fmap_nil, list_to_set_nil, (right_id_L ∅ (∪)).
  - destruct (IH (<[value (word pl) := path_of pl]> m)) as [Hlk Hdom].
    cbv zeta in *. split.
    + intros key path Hm'. destruct (Hlk key path Hm') as [Hins|Hrest].
      * destruct (decide (value (word pl) = key)) as [Heq|Hne].
        -- subst key. rewrite lookup_insert_eq in Hins. inversion Hins; subst.
           right. exists pl. split_and!; auto. now left.
        -- rewrite lookup_insert_ne in Hins by assumption. now left.
      * destruct Hrest as (pl' & Hin & Hk & Hp). right. exists pl'.
        split_and!; auto. now right.
    + rewrite Hdom, dom_insert_L, fmap_cons, list_to_set_cons.
      rewrite (comm_L (∪) {[value (word pl)]} (dom m)).
      now rewrite (assoc_L (∪)).
Qed.

Lemma word_data_of_spec pls :
  (forall key path, word_data_of pls !! key = Some path ->
     exists pl, pl ∈ pls /\ value (word pl) = key /\ path = path_of pl)
  /\ dom (word_data_of pls)
     = list_to_set ((fun pl => value (word pl)) <$> pls).
Proof.
  destruct (word_data_fold pls ∅) as [Hlk Hdom]. cbv zeta in *. split.
  - intros key path H. destruct (Hlk key path H) as [He|Hex]; [|assumption].
    rewrite lookup_empty in He. discriminate.
  - unfold word_data_of. unfold path_of in Hdom.
    now rewrite Hdom, dom_empty_L, (left_id_L ∅ (∪)).
Qed.

Lemma size_list_to_set_le (l : list string) :
  (size (list_to_set l : gset string) <= length l)%nat
  /\ (size (list_to_set l : gset string) = length l -> NoDup l).
Proof.
  induction l as [|x l [IHle IHnd]].
  - rewrite list_to_set_nil, size_empty. split; [simpl; lia | constructor].
  - rewrite list_to_set_cons. cbn [length].
    destruct (decide (x ∈ l)) as [Hin|Hnin].
    + assert (Heq : ({[x]} ∪ list_to_set l : gset string) = list_to_set l).
      { apply subseteq_union_1_L, singleton_subseteq_l.
        now apply elem_of_list_to_set. }
      rewrite Heq. split; lia.
    + rewrite size_union, size_singleton.
      * split; [lia|]. intros Hs. apply NoDup_cons_2; [assumption|].
        apply IHnd. lia.
      * apply disjoint_singleton_l. now rewrite elem_of_list_to_set.
Qed.

Lemma word_data_accepted gs ws p :
  accepted_puzzle gs ws p ->
  (forall key, is_Some (word_data_of (placements p) !! key)
               <-> exists w, w ∈ ws /\ value w = key)
  /\ (forall key path, word_data_of (placements p) !! key = Some path ->
        length path = String.length key
        /\ forall (i : nat) (c : ascii), String.get i key = Some c ->
             exists r cl,
               path !! i = Some [r; cl]
               /\ get_cell p (mkPosition r cl) = Ok (String c EmptyString))
  /\ (size (word_data_of (placements p)) <= length ws)%nat
  /\ (size (word_data_of (placements p)) = length ws
      <-> NoDup (value <$> ws)).
Proof.
  intros (Hgs & Hws & [Hwf Hpls] & Hns & Hperm & Hcomplete).
  destruct (word_data_of_spec (placements p)) as [Hlk Hdom].
  assert (Hkeys : dom (word_data_of (placements p))
                  = list_to_set (value <$> ws)).
  { rewrite Hdom, <- Hperm, <- list_fmap_compose. reflexivity. }
  assert (Hsize : size (word_data_of (placements p))
                  = size (list_to_set (value <$> ws) : gset string))
    by now rewrite <- Hkeys, size_dom.
  split_and!.
  - intros key. rewrite <- elem_of_dom, Hkeys, elem_of_list_to_set.
    rewrite list_elem_of_fmap. split; intros (w & H1 & H2); eauto.
  - intros key path Hkey.
    destruct (Hlk key path Hkey) as (pl & Hin & <- & ->).
    rewrite Forall_forall in Hpls.
    destruct (Hpls pl Hin) as (Hpos & _ & Hspell).
    unfold path_of. rewrite length_fmap, Hpos, calculate_positions_length.
    split; [reflexivity|]. intros i c Hi.
    destruct (Hspell i c Hi) as [Hv Hat].
    exists (row (step_position (start_position pl) (direction pl)
                   (Z.of_nat i))),
           (col (step_position (start_position pl) (direction pl)
                   (Z.of_nat i))).
    split.
    + rewrite list_lookup_fmap, calculate_positions_lookup; [reflexivity|].
      eapply get_Some_lt; eauto.
    + unfold get_cell.
      replace (mkPosition _ _)
        with (step_position (start_position pl) (direction pl) (Z.of_nat i))
        by now destruct (step_position _ _ _).
      now rewrite Hv, Hat.
  - rewrite Hsize, <- (length_fmap value ws).
    apply size_list_to_set_le.
  - rewrite Hsize, <- (length_fmap value ws). split.
    + apply size_list_to_set_le.
    + apply size_list_to_set.
Qed.

(** The data the HTML presenter exports for the puzzles that
    [_generate_puzzles] returns.  Each entry carries the puzzle's grid.
    The keys of its word dictionary are the texts of the requested
    words; the path stored under a word has one [[row, col]] pair per
    letter and the grid spells the word along it.  Placements of equal
    words share one key, so the dictionary has as many entries as the
    request has words exactly when the words are pairwise different. *)
Theorem exported_data_of_generated_puzzles (strategy_max gs : Z)
    (ws : list Word) (count : Z) (tape : list nat) :
  exists puzzles tape',
    _generate_puzzles strategy_max gs ws count tape = (Ok puzzles, tape')
    /\ length (_convert_puzzles_to_data puzzles) = length puzzles
    /\ forall (k : nat) p data,
         puzzles !! k = Some p ->
         _convert_puzzles_to_data puzzles !! k = Some data ->
         pd_grid data = grid p
         /\ (forall key, is_Some (pd_words data !! key)
                         <-> exists w, w ∈ ws /\ value w = key)
         /\ (forall key path, pd_words data !! key = Some path ->
               length path = String.length key
               /\ forall (i : nat) (c : ascii), String.get i key = Some c ->
                    exists r cl,
                      path !! i = Some [r; cl]
                      /\ get_cell p (mkPosition r cl)
                         = Ok (String c EmptyString))
         /\ (size (pd_words data) <= length ws)%nat
         /\ (size (pd_words data) = length ws <-> NoDup (value <$> ws)).
Proof.
  destruct (generate_puzzles_results strategy_max gs ws count tape)
    as (puzzles & tape' & Hrun & Hacc & _ & _).
  exists puzzles, tape'. split; [assumption|].
  split; [apply length_fmap|].
  intros k p data Hp Hd. unfold _convert_puzzles_to_data in Hd.
  rewrite list_lookup_fmap, Hp in Hd. inversion Hd; subst. cbn [pd_grid pd_words].
  split; [reflexivity|].
  rewrite Forall_lookup in Hacc.
  exact (word_data_accepted gs ws p (Hacc k p Hp)).
Qed.

(* ------------------------------------------------------------------ *)
(** ** [generate] starts from scratch *)

(** With at least one attempt allowed, [generate] depends on the puzzle
    it is given only through its size and its words: the grid and the
    placements it held are discarded by the reset that opens the first
    attempt. *)
Theorem generate_ignores_previous_content (max_attempts : Z)
    (p1 p2 : Puzzle) (tape : list nat) :
  0 < max_attempts ->
  grid_size p1 = grid_size p2 -> words p1 = words p2 ->
  generate max_attempts (mkWorld p1 tape)
  = generate max_attempts (mkWorld p2 tape).
Proof.
  intros Hpos Hgs Hws.
  assert (Hgen : forall p,
             generate max_attempts (mkWorld p tape)
             = generate_loop (Z.to_nat max_attempts)
                 (sorted_by_len_desc (words p)) (mkWorld p tape))
    by reflexivity.
  rewrite !Hgen, Hws.
  destruct (Z.to_nat max_attempts) as [|n] eqn:Hn; [lia|].
  cbn [generate_loop]. unfold bind.
  rewrite (attempt_from_reset _ (mkWorld p1 tape)).
  rewrite (attempt_from_reset _ (mkWorld p2 tape)).
  cbn [w_puzzle w_rng]. unfold reset. now rewrite Hgs, Hws.
Qed.

Lemma generate_ignores_previous_content_witness :
  generate 1 (mkWorld (snd (set_cell (mkPosition 0 0) "X" sample_puzzle))
                      [0; 0; 4]%nat)
  = generate 1 sample_world.
Proof.
  apply (generate_ignores_previous_content 1
           (snd (set_cell (mkPosition 0 0) "X" sample_puzzle))
           sample_puzzle [0; 0; 4]%nat).
  - lia.
  - reflexivity.
  - reflexivity.
Defined.



(* ------------------------------------------------------------------ *)
(** ** The puzzle a failed [generate] leaves behind *)

Lemma reset_covered p : letters_covered (reset p).
Proof.
  intros q cell Hv Hat Hne. apply valid_position_bounds in Hv.
  simpl in Hv, Hat. destruct Hv as [Hr Hc].
  rewrite (empty_grid_at _ q Hr Hc) in Hat. congruence.
Qed.

Lemma committed_covered p0 w pos d p' :
  grid_wf p0 -> letters_covered p0 -> committed p0 w pos d p' ->
  letters_covered p'.
Proof.
  intros Hwf Hcov [Hcan Hadd].
  destruct (add_placement_ok p0 (WordPlacement_new w pos d) Hwf)
    as (p1 & Hadd1 & Hgs & Hws & Hpls & Hwf1 & Hq).
  { apply Forall_forall. intros q Hin.
    apply calculate_positions_elem in Hin as (i & Hi & ->).
    eapply can_place_word_valid; eauto. }
  { simpl. now rewrite calculate_positions_length. }
  rewrite Hadd in Hadd1. inversion Hadd1; subst p1. clear Hadd1.
  intros q cell Hv Hat Hne.
  assert (Hv0 : is_valid_position p0 q = true)
    by (unfold is_valid_position in *; now rewrite <- Hgs).
  rewrite Hq in Hat by assumption. rewrite Hpls.
  destruct (last_write _ _ _ q) as [c|] eqn:Hl.
  - apply last_write_Some_inv in Hl as (j & Hj & _).
    exists (WordPlacement_new w pos d). split.
    + apply elem_of_app. right. now left.
    + eapply list_elem_of_lookup_2; eauto.
  - destruct (Hcov q cell Hv0 Hat Hne) as (pl & Hin & Hon).
    exists pl. split; [|assumption]. apply elem_of_app. now left.
Qed.

Lemma attempt_loop_covered ws : forall bal i w0 b w',
  puzzle_inv (w_puzzle w0) -> letters_covered (w_puzzle w0) ->
  attempt_loop bal i ws w0 = (Ok b, w') ->
  letters_covered (w_puzzle w').
Proof.
  induction ws as [|w rest IH]; intros bal i w0 b w' Hinv Hcov Hrun;
    simpl in Hrun.
  - inversion Hrun; subst. assumption.
  - destruct Hinv as [Hwf Hpls].
    destruct (try_place_word_spec w (get_priority_directions bal i) w0 Hwf)
      as (b0 & ds' & w1 & Hrun1 & _ & Hpost).
    rewrite (bind_ok _ _ _ _ _ Hrun1) in Hrun. cbn [fst] in Hrun.
    destruct b0.
    + destruct Hpost as (d & pos & Hd & Hc).
      assert (Hall : d ∈ Directions.all)
        by now rewrite <- (priority_directions_perm bal i).
      pose proof (committed_inv _ _ _ _ _ (conj Hwf Hpls) Hall Hc) as Hinv1.
      pose proof (committed_covered _ _ _ _ _ Hwf Hcov Hc) as Hcov1.
      destruct (committed_spec _ _ _ _ _ Hwf Hc) as (_ & _ & Hpl1 & _).
      unfold get_puzzle, lift_res in Hrun. unfold bind at 1 in Hrun.
      unfold bind at 1 in Hrun.
      unfold list_last in Hrun. rewrite Hpl1, last_snoc in Hrun.
      eapply IH; eauto.
    + inversion Hrun; subst. now rewrite Hpost.
Qed.

Lemma attempt_covered sorted_words w0 :
  letters_covered (w_puzzle (snd (attempt sorted_words w0)))
  /\ puzzle_inv (w_puzzle (snd (attempt sorted_words w0)))
  /\ grid_size (w_puzzle (snd (attempt sorted_words w0)))
     = grid_size (w_puzzle w0)
  /\ words (w_puzzle (snd (attempt sorted_words w0))) = words (w_puzzle w0).
Proof.
  destruct (attempt_spec sorted_words w0) as (b & w' & Hrun & Hinv & Hgs & Hws & _).
  rewrite Hrun. cbn [snd]. split_and!; auto.
  unfold attempt in Hrun.
  unfold bind at 1 in Hrun. unfold lift_puzzle, modify in Hrun.
  cbn [w_puzzle w_rng] in Hrun.
  destruct (shuffle_perm sorted_words
              (mkWorld (reset (w_puzzle w0)) (w_rng w0)))
    as (ws' & w1 & Hsh & _ & Hp1).
  rewrite (bind_ok _ _ _ _ _ Hsh) in Hrun.
  unfold _attempt_placement in Hrun.
  eapply attempt_loop_covered; [| |exact Hrun].
  - rewrite Hp1. apply reset_inv.
  - rewrite Hp1. apply reset_covered.
Qed.

Lemma after_attempts_covered sorted_words (k : nat) : forall w0,
  (1 <= k)%nat ->
  letters_covered (w_puzzle (after_attempts sorted_words k w0))
  /\ puzzle_inv (w_puzzle (after_attempts sorted_words k w0))
  /\ grid_size (w_puzzle (after_attempts sorted_words k w0))
     = grid_size (w_puzzle w0)
  /\ words (w_puzzle (after_attempts sorted_words k w0)) = words (w_puzzle w0).
Proof.
  induction k as [|k IH]; intros w0 Hk; [lia|].
  cbn [after_attempts].
  destruct (attempt_covered sorted_words w0) as (Hc & Hi & Hgs & Hws).
  destruct k as [|k]; [cbn [after_attempts]; auto|].
  destruct (IH (snd (attempt sorted_words w0))) as (Hc' & Hi' & Hgs' & Hws');
    [lia|].
  split_and!; auto; congruence.
Qed.

(** When [generate] gives up (with at least one attempt allowed) the
    puzzle is left as the last attempt left it: neither reset nor
    filled.  Its size and words are unchanged, the placements it holds
    are spelled by the grid, and every letter in the grid belongs to one
    of them, the other cells being empty. *)
Theorem generate_failure_leaves_partial_puzzle (max_attempts : Z)
    (w0 w' : World) :
  0 < max_attempts ->
  generate max_attempts w0 = (Ok false, w') ->
  grid_size (w_puzzle w') = grid_size (w_puzzle w0)
  /\ words (w_puzzle w') = words (w_puzzle w0)
  /\ puzzle_inv (w_puzzle w')
  /\ forall q, is_valid_position (w_puzzle w') q = true ->
       get_cell (w_puzzle w') q = Ok EmptyString
       \/ exists pl, pl ∈ placements (w_puzzle w') /\ q ∈ positions pl.
Proof.
  intros Hpos Hrun. unfold generate, bind, get_puzzle in Hrun.
  destruct (generate_loop_spec (Z.to_nat max_attempts)
              (sorted_by_len_desc (words (w_puzzle w0))) w0)
    as (k & b & w1 & Hloop & _ & _ & Hpost).
  rewrite Hloop in Hrun. inversion Hrun; subst b w1.
  destruct Hpost as [_ ->].
  destruct (after_attempts_covered
              (sorted_by_len_desc (words (w_puzzle w0)))
              (Z.to_nat max_attempts) w0) as (Hc & Hi & Hgs & Hws); [lia|].
  split_and!; auto.
  intros q Hv. destruct Hi as [Hwf _].
  destruct (get_cell_valid _ q Hwf Hv) as (cell & Hget & Hat).
  destruct (decide (cell = EmptyString)) as [->|Hne]; [now left|].
  right. exact (Hc q cell Hv Hat Hne).
Qed.

(** One attempt on a 5x5 puzzle for "CAT" with an exhausted random
    source: the word is placed, not diagonally, so the attempt is
    refused. *)
Lemma generate_failure_leaves_partial_puzzle_witness :
  (0 < 1
   /\ generate 1 (mkWorld (Puzzle_new 5 [CAT]) [])
      = (Ok false, snd (generate 1 (mkWorld (Puzzle_new 5 [CAT]) []))))
  /\ puzzle_inv (w_puzzle (snd (generate 1 (mkWorld (Puzzle_new 5 [CAT]) [])))).
Proof.
  assert (Hpos : 0 < 1) by lia.
  assert (Hrun : generate 1 (mkWorld (Puzzle_new 5 [CAT]) [])
                 = (Ok false, snd (generate 1 (mkWorld (Puzzle_new 5 [CAT]) []))))
    by (vm_compute; reflexivity).
  split; [split; [exact Hpos | exact Hrun]|].
  exact (proj1 (proj2 (proj2 (generate_failure_leaves_partial_puzzle
                                1 _ _ Hpos Hrun)))).
Defined.

(** The puzzle that refused attempt leaves: complete by [is_complete],
    yet reported as a failure and not filled. *)
Example generate_failure_can_be_complete :
  let w' := snd (generate 1 (mkWorld (Puzzle_new 5 [CAT]) [])) in
  fst (generate 1 (mkWorld (Puzzle_new 5 [CAT]) [])) = Ok false
  /\ is_complete (w_puzzle w') = true
  /\ get_cell (w_puzzle w') (mkPosition 4 4) = Ok EmptyString.
Proof. vm_compute. repeat split. Qed.
